(** * Similarity scores for gene-expression datasets: a model of [src/utils.py]

    The scoring engine of the repository (correlation utilities, the
    regulatory extractor, the dendrogram replay, the TF-activity detector and
    the score aggregator) embedded as Rocq functions, with the properties of
    the specification stated and proved over them, followed by further
    properties read off the code.  The plotting utilities are left out: they
    draw with matplotlib and seaborn and return the axes.

    Numbers.  A numpy [float64] is modelled by [npfloat]: a real number, one
    of the two infinities, or NaN.  Arithmetic on finite values is exact real
    arithmetic (rounding is abstracted away, the two signed zeros are
    identified); the special values follow IEEE 754 as numpy applies it
    (a division by zero yields an infinity or NaN, never an exception).

    Arrays.  A vector is a list; a matrix is its shape and its entries.

    Exceptions.  Python code that can raise returns a [result].

    Collaborators.  The regulatory map of [data_pipeline] and the calls into
    scipy and statsmodels are variables of the section [Engine], the call
    into scikit-learn is the variable of the section [Silhouette]; the class
    [Cluster] of the module [clustering] is modelled from the
    specification. *)

From Stdlib Require Import Reals Lra Lia ZArith List.
From stdpp Require Import base option list gmap strings.

(** ** numpy floats *)

Inductive npfloat : Type :=
| Fin (r : R)
| PInf
| NInf
| NaN.

Definition isnan (x : npfloat) : bool :=
  match x with NaN => true | _ => false end.

Definition isfinite (x : npfloat) : bool :=
  match x with Fin _ => true | _ => false end.

(** Sign of a real as numpy sees it when it picks the sign of an infinity. *)
Definition Rsign_pos (r : R) : bool := if Rlt_dec 0%R r then true else false.

Definition Rzero (r : R) : bool := if Req_dec_T r 0%R then true else false.

Definition fneg (x : npfloat) : npfloat :=
  match x with
  | Fin r => Fin (- r)%R
  | PInf => NInf
  | NInf => PInf
  | NaN => NaN
  end.

Definition fadd (x y : npfloat) : npfloat :=
  match x, y with
  | NaN, _ | _, NaN => NaN
  | Fin a, Fin b => Fin (a + b)%R
  | PInf, NInf | NInf, PInf => NaN
  | PInf, _ | _, PInf => PInf
  | NInf, _ | _, NInf => NInf
  end.

Definition fsub (x y : npfloat) : npfloat := fadd x (fneg y).

(** An infinity of the sign of [r] (for [r <> 0]). *)
Definition inf_of_sign (r : R) : npfloat := if Rsign_pos r then PInf else NInf.

Definition fmul (x y : npfloat) : npfloat :=
  match x, y with
  | NaN, _ | _, NaN => NaN
  | Fin a, Fin b => Fin (a * b)%R
  | Fin a, PInf | PInf, Fin a => if Rzero a then NaN else inf_of_sign a
  | Fin a, NInf | NInf, Fin a => if Rzero a then NaN else inf_of_sign (- a)%R
  | PInf, PInf | NInf, NInf => PInf
  | PInf, NInf | NInf, PInf => NInf
  end.

(** numpy true division: [x / 0] is an infinity for [x <> 0], and [0 / 0] is
    NaN; only a warning is issued. *)
Definition fdiv (x y : npfloat) : npfloat :=
  match x, y with
  | NaN, _ | _, NaN => NaN
  | Fin a, Fin b =>
      if Rzero b then (if Rzero a then NaN else inf_of_sign a) else Fin (a / b)%R
  | Fin _, (PInf | NInf) => Fin 0%R
  | PInf, Fin b => if Rsign_pos b then PInf else if Rzero b then PInf else NInf
  | NInf, Fin b => if Rsign_pos b then NInf else if Rzero b then NInf else PInf
  | (PInf | NInf), (PInf | NInf) => NaN
  end.

(** [np.sqrt]: NaN on negative input. *)
Definition fsqrt (x : npfloat) : npfloat :=
  match x with
  | Fin a => if Rlt_dec a 0%R then NaN else Fin (sqrt a)
  | PInf => PInf
  | NInf | NaN => NaN
  end.

(** A Python [int] used where numpy expects a float. *)
Definition of_nat (n : nat) : npfloat := Fin (INR n).
Definition of_Z (z : Z) : npfloat := Fin (IZR z).

(** ** Python exceptions *)

Inductive exn : Type :=
| ZeroDivisionError
| AssertionError
| KeyError
| IndexError
| ValueError.

Inductive result (A : Type) : Type :=
| Ok (a : A)
| Raise (e : exn).
Arguments Ok {A} a.
Arguments Raise {A} e.

#[export] Instance result_ret : MRet result := fun A a => Ok a.
#[export] Instance result_bind : MBind result := fun A B f m =>
  match m with Ok a => f a | Raise e => Raise e end.

Definition assert_ (b : bool) : result unit :=
  if b then Ok tt else Raise AssertionError.

(** A [for] loop over a list whose body may raise: the state is threaded
    through, and the first exception ends the loop. *)
Fixpoint for_each {A S : Type} (body : S -> A -> result S) (l : list A) (s : S)
  : result S :=
  match l with
  | [] => Ok s
  | a :: l' => s' ← body s a; for_each body l' s'
  end.

(** ** One-dimensional arrays *)

(** [np.sum] of a float array. *)
Definition np_sum (a : list npfloat) : npfloat := foldr fadd (Fin 0%R) a.

(** [np.mean]: the sum over the length ([nan] for an empty array). *)
Definition np_mean (a : list npfloat) : npfloat :=
  fdiv (np_sum a) (of_nat (length a)).

(** [np.std]: the square root of the mean squared deviation. *)
Definition np_std (a : list npfloat) : npfloat :=
  let mu := np_mean a in
  fsqrt (np_mean (map (fun v => let d := fsub v mu in fmul d d) a)).

Definition vdot (x y : list npfloat) : npfloat := np_sum (zip_with fmul x y).

(** [np.dot] of two vectors: the shapes must agree. *)
Definition np_dot (x y : list npfloat) : result npfloat :=
  if (length x =? length y)%nat then Ok (vdot x y) else Raise ValueError.

(** [np.linalg.norm] of a vector. *)
Definition np_norm (x : list npfloat) : npfloat :=
  fsqrt (np_sum (map (fun v => fmul v v) x)).

(** ** Two-dimensional arrays

    A rectangular array is its shape and its entries; [item a s j] is
    [a[s, j]]. *)

Record ndarray : Type := mk_ndarray {
  nrows : nat;
  ncols : nat;
  item : nat -> nat -> npfloat
}.

Definition column (a : ndarray) (j : nat) : list npfloat :=
  map (fun s => item a s j) (seq 0 (nrows a)).

Definition row (a : ndarray) (i : nat) : list npfloat :=
  map (fun j => item a i j) (seq 0 (ncols a)).

(** The array whose rows are the given lists (all of the length of the first). *)
Definition of_rows (rows : list (list npfloat)) : ndarray :=
  {| nrows := length rows;
     ncols := length (hd [] rows);
     item := fun s j => nth j (nth s rows []) NaN |}.

Definition np_transpose (a : ndarray) : ndarray :=
  {| nrows := ncols a; ncols := nrows a; item := fun i j => item a j i |}.

(** [np.dot] of two matrices whose inner dimensions agree. *)
Definition np_matmul (a b : ndarray) : ndarray :=
  {| nrows := nrows a; ncols := ncols b;
     item := fun i j => vdot (row a i) (column b j) |}.

Definition np_div_scalar (a : ndarray) (c : npfloat) : ndarray :=
  {| nrows := nrows a; ncols := ncols a; item := fun i j => fdiv (item a i j) c |}.

(** [m.ravel()]: the entries in row-major order. *)
Definition np_ravel (a : ndarray) : list npfloat :=
  concat (map (row a) (seq 0 (nrows a))).

(** [a[:, idxs]]: the columns at the given positions. *)
Definition take_columns (a : ndarray) (idxs : list nat) : result ndarray :=
  if forallb (fun j => (j <? ncols a)%nat) idxs
  then Ok {| nrows := nrows a; ncols := length idxs;
             item := fun s k => item a s (nth k idxs 0%nat) |}
  else Raise IndexError.

(** ** Correlation utilities *)

(** The inner function of [pearson_correlation], on a vector. *)
Definition standardize (a : list npfloat) : list npfloat :=
  let a_off := np_mean a in
  let a_std := np_std a in
  map (fun v => fdiv (fsub v a_off) a_std) a.

(** The same with [axis=0] on a matrix: every column is standardized. *)
Definition standardize2 (a : ndarray) : ndarray :=
  {| nrows := nrows a; ncols := ncols a;
     item := fun s j =>
       let a_off := np_mean (column a j) in
       let a_std := np_std (column a j) in
       fdiv (fsub (item a s j) a_off) a_std |}.

Definition pearson_correlation (x y : ndarray) : result ndarray :=
  assert_ (nrows x =? nrows y)%nat;;
  let x_ := standardize2 x in
  let y_ := standardize2 y in
  Ok (np_div_scalar (np_matmul (np_transpose x_) y_) (of_nat (nrows x))).

(** [pearson_correlation] applied to two vectors, as [gamma_coefficients] and
    [compare_cophenetic] do: the means and deviations are scalars and the
    result is one coefficient. *)
Definition pearson_correlation_1d (x y : list npfloat) : result npfloat :=
  assert_ (length x =? length y)%nat;;
  let x_ := standardize x in
  let y_ := standardize y in
  d ← np_dot x_ y_;
  Ok (fdiv d (of_nat (length x))).

Definition cosine_similarity (x y : list npfloat) : result npfloat :=
  d ← np_dot x y;
  Ok (fdiv d (fmul (np_norm x) (np_norm y))).

(** [np.triu(m, k=1)]: zero on and below the diagonal. *)
Definition np_triu1 (m : ndarray) : ndarray :=
  {| nrows := nrows m; ncols := ncols m;
     item := fun i j => if (i <? j)%nat then item m i j else Fin 0%R |}.

(** [np.tril(m)]: zero above the diagonal. *)
Definition np_tril (m : ndarray) : ndarray :=
  {| nrows := nrows m; ncols := ncols m;
     item := fun i j => if (j <=? i)%nat then item m i j else Fin 0%R |}.

Definition np_zeros_like (m : ndarray) : ndarray :=
  {| nrows := nrows m; ncols := ncols m; item := fun _ _ => Fin 0%R |}.

Definition np_add_scalar (m : ndarray) (c : npfloat) : ndarray :=
  {| nrows := nrows m; ncols := ncols m; item := fun i j => fadd (item m i j) c |}.

Definition np_add (a b : ndarray) : ndarray :=
  {| nrows := nrows a; ncols := ncols a;
     item := fun i j => fadd (item a i j) (item b i j) |}.

Definition upper_diag_list (m_ : ndarray) : list npfloat :=
  let m := np_triu1 m_ in
  let tril := np_add_scalar (np_zeros_like m_) NaN in
  let tril := np_tril tril in
  let m := np_add m tril in
  let m := np_ravel m in
  List.filter (fun v => negb (isnan v)) m.

Definition correlations_list (x y : ndarray)
    (corr_fun : ndarray -> ndarray -> result ndarray) : result (list npfloat) :=
  corr ← corr_fun x y;
  Ok (upper_diag_list corr).

(** ** Gene symbols and the regulatory map *)

(** A [dict] from a TF symbol to the list of its targets' symbols, in
    iteration (insertion) order. *)
Definition regulatory_map : Type := list (string * list string).

(** [g in gene_symbols], for the numpy array of symbols. *)
Definition symbol_in (g : string) (gene_symbols : list string) : bool :=
  existsb (String.eqb g) gene_symbols.

(** [np.where(gene_symbols == g)[0]]: the positions holding [g], counted
    from [k]. *)
Fixpoint np_where_from (k : nat) (gene_symbols : list string) (g : string)
  : list nat :=
  match gene_symbols with
  | [] => []
  | s :: rest =>
      if String.eqb s g then k :: np_where_from (S k) rest g
      else np_where_from (S k) rest g
  end.

Definition np_where (gene_symbols : list string) (g : string) : list nat :=
  np_where_from 0 gene_symbols g.

(** [np.array(rows).ravel()] for a list of index arrays: numpy builds a
    rectangular array, and refuses rows of different lengths. *)
Definition np_array_ravel (rows : list (list nat)) : result (list nat) :=
  match rows with
  | [] => Ok []
  | r :: rest =>
      if forallb (fun r' => (length r' =? length r)%nat) rest
      then Ok (concat rows)
      else Raise ValueError
  end.

(** The [tg_idxs] of both loops over the regulatory map. *)
Definition target_indices (gene_symbols tgs : list string) : result (list nat) :=
  np_array_ravel
    (map (np_where gene_symbols)
         (List.filter (fun tg => symbol_in tg gene_symbols) tgs)).

(** [np.argwhere(gene_symbols == tf)[0]]. *)
Definition np_argwhere_first (gene_symbols : list string) (tf : string)
  : result nat :=
  match np_where gene_symbols tf with
  | i :: _ => Ok i
  | [] => Raise IndexError
  end.

(** What [compute_tf_tg_corrs] returns: two flat lists, or two lists with one
    entry per TF. *)
Inductive corr_lists : Type :=
| Flat (tf_tg_corr tg_tg_corr : list npfloat)
| Grouped (tf_tg_corr tg_tg_corr : list (list npfloat)).

(** The body of the loop of [compute_tf_tg_corrs]; the state is
    [(tf_tg_corr, tg_tg_corr)]. *)
Definition tf_tg_corrs_body (expr : ndarray) (gene_symbols : list string)
    (acc : list (list npfloat) * list (list npfloat))
    (entry : string * list string)
  : result (list (list npfloat) * list (list npfloat)) :=
  let '(tf_tg_corr, tg_tg_corr) := acc in
  let '(tf, tgs) := entry in
  tg_idxs ← target_indices gene_symbols tgs;
  if symbol_in tf gene_symbols && (0 <? length tg_idxs)%nat then
    expr_tgs ← take_columns expr tg_idxs;
    corr ← correlations_list expr_tgs expr_tgs pearson_correlation;
    let tg_tg_corr := tg_tg_corr ++ [corr] in
    tf_idx ← np_argwhere_first gene_symbols tf;
    expr_tf ← take_columns expr [tf_idx];
    corr ← pearson_correlation expr_tf expr_tgs;
    let tf_tg_corr := tf_tg_corr ++ [np_ravel corr] in
    Ok (tf_tg_corr, tg_tg_corr)
  else Ok (tf_tg_corr, tg_tg_corr).

(** ** Python numbers in the weighted aggregators

    [weights_sum] and [total_sum] start as the Python [int] 0 and become
    numpy floats once a float is added to them.  Dividing two Python ints
    raises on a zero divisor; a division with a numpy float never raises. *)

Inductive pynum : Type :=
| PyInt (z : Z)
| NpFloat (x : npfloat).

Definition to_float (n : pynum) : npfloat :=
  match n with PyInt z => of_Z z | NpFloat x => x end.

Definition py_add (a b : pynum) : pynum :=
  match a, b with
  | PyInt x, PyInt y => PyInt (x + y)
  | _, _ => NpFloat (fadd (to_float a) (to_float b))
  end.

Definition py_mul (a b : pynum) : pynum :=
  match a, b with
  | PyInt x, PyInt y => PyInt (x * y)
  | _, _ => NpFloat (fmul (to_float a) (to_float b))
  end.

Definition py_truediv (a b : pynum) : result pynum :=
  match a, b with
  | PyInt x, PyInt y =>
      if (y =? 0)%Z then Raise ZeroDivisionError
      else Ok (NpFloat (Fin (IZR x / IZR y)%R))
  | _, _ => Ok (NpFloat (fdiv (to_float a) (to_float b)))
  end.

(** Python's [>] on floats: false whenever a NaN is involved. *)
Definition fgt (x y : npfloat) : bool :=
  match x, y with
  | NaN, _ | _, NaN => false
  | Fin a, Fin b => if Rlt_dec b a then true else false
  | PInf, PInf | NInf, NInf => false
  | PInf, _ | _, NInf => true
  | _, PInf | NInf, _ => false
  end.

(** Python's [max] of a non-empty sequence: the first of the largest items. *)
Definition py_max (l : list npfloat) : result npfloat :=
  match l with
  | [] => Raise ValueError
  | x :: rest => Ok (fold_left (fun m v => if fgt v m then v else m) rest x)
  end.

(** [np.roots([1, b, c])] when the two roots are real.  (The loop of
    [phi_coefficient] calls it with [b = 1] and [c = -2 * len(cx) < 0], so the
    discriminant is positive there.) *)
Definition np_roots_monic (b c : R) : list npfloat :=
  let d := sqrt (b * b - 4 * c)%R in
  [Fin ((- b + d) / 2)%R; Fin ((- b - d) / 2)%R].

Definition nb_genes_type : string := "nb_genes".

(** The body of the loop of [psi_coefficient]; the state is
    [(weights_sum, total_sum)]. *)
Definition psi_body (weights_type : string) (st : pynum * pynum)
    (c : list npfloat * list npfloat) : result (pynum * pynum) :=
  let '(weights_sum, total_sum) := st in
  let '(cx, cz) := c in
  let weight :=
    if String.eqb weights_type nb_genes_type
    then PyInt (Z.of_nat (length cx))
    else PyInt 1 in
  let weights_sum := py_add weights_sum weight in
  cs ← cosine_similarity cx cz;
  Ok (weights_sum, py_add total_sum (py_mul weight (NpFloat cs))).

Definition psi_coefficient (tf_tg_x tf_tg_z : list (list npfloat))
    (weights_type : string) : result pynum :=
  '(weights_sum, total_sum) ←
    for_each (psi_body weights_type) (zip tf_tg_x tf_tg_z) (PyInt 0, PyInt 0);
  py_truediv total_sum weights_sum.

(** The weight [phi_coefficient] gives to a TF with the non-empty TG-TG list
    [cx]. *)
Definition phi_weight (weights_type : string) (cx : list npfloat)
  : result pynum :=
  if String.eqb weights_type nb_genes_type then
    let x := length cx in
    let roots := np_roots_monic 1 (-2 * INR x)%R in
    w ← py_max roots;
    Ok (NpFloat w)
  else Ok (PyInt 1).

(** The body of the loop of [phi_coefficient]. *)
Definition phi_body (weights_type : string) (st : pynum * pynum)
    (c : list npfloat * list npfloat) : result (pynum * pynum) :=
  let '(weights_sum, total_sum) := st in
  let '(cx, cz) := c in
  if (0 <? length cx)%nat then
    weight ← phi_weight weights_type cx;
    let weights_sum := py_add weights_sum weight in
    cs ← cosine_similarity cx cz;
    Ok (weights_sum, py_add total_sum (py_mul weight (NpFloat cs)))
  else Ok (weights_sum, total_sum).

Definition phi_coefficient (tg_tg_x tg_tg_z : list (list npfloat))
    (weights_type : string) : result pynum :=
  '(weights_sum, total_sum) ←
    for_each (phi_body weights_type) (zip tg_tg_x tg_tg_z) (PyInt 0, PyInt 0);
  py_truediv total_sum weights_sum.

(** ** Dendrograms *)

(** Modelled from the spec: the class [Cluster] of the module [clustering],
    which is not among the sources.  A leaf holds one gene index; an internal
    node holds its two children, and its [indices] are the children's, left
    then right. *)
Inductive Cluster : Type :=
| Leaf (index : nat)
| Node (c_left c_right : Cluster).

Fixpoint indices (c : Cluster) : list nat :=
  match c with
  | Leaf i => [i]
  | Node l r => indices l ++ indices r
  end.

(** A row [(c1, c2, dist, n_elems)] of a scipy linkage matrix.  The ids are
    whole numbers and the merge height is a finite number, as scipy produces
    them. *)
Record linkage_row : Type := mk_row {
  c1 : nat;
  c2 : nat;
  dist : R;
  n_elems : nat
}.

Definition dict_get (clusters : gmap nat Cluster) (k : nat) : result Cluster :=
  match clusters !! k with
  | Some c => Ok c
  | None => Raise KeyError
  end.

(** [{i: Cluster(index=i) for i in range(nb_genes)}]. *)
Definition leaf_clusters (nb_genes : nat) : gmap nat Cluster :=
  list_to_map (map (fun i => (i, Leaf i)) (seq 0 nb_genes)).

Definition np_zeros (n k : nat) : ndarray :=
  {| nrows := n; ncols := k; item := fun _ _ => Fin 0%R |}.

(** [m[i, j] = v]. *)
Definition set_item (m : ndarray) (i j : nat) (v : npfloat) : result ndarray :=
  if (i <? nrows m)%nat && (j <? ncols m)%nat then
    Ok {| nrows := nrows m; ncols := ncols m;
          item := fun a b =>
            if (a =? i)%nat && (b =? j)%nat then v else item m a b |}
  else Raise IndexError.

(** The two nested loops that write one merge height into [m]. *)
Definition fill_pairs (c1_indices c2_indices : list nat) (d : npfloat)
    (m : ndarray) : result ndarray :=
  for_each
    (fun m c1_idx =>
       for_each
         (fun m c2_idx =>
            m ← set_item m c1_idx c2_idx d;
            set_item m c2_idx c1_idx d)
         c2_indices m)
    c1_indices m.

(** The body of the loop of [dendrogram_distance] over [enumerate(l_matrix)];
    the state is [(clusters, m)]. *)
Definition dendrogram_body (nb_genes : nat)
    (st : gmap nat Cluster * ndarray) (iz : nat * linkage_row)
  : result (gmap nat Cluster * ndarray) :=
  let '(clusters, m) := st in
  let '(i, z) := iz in
  cl ← dict_get clusters (c1 z);
  cr ← dict_get clusters (c2 z);
  let clusters := <[(nb_genes + i)%nat := Node cl cr]> clusters in
  k1 ← dict_get clusters (c1 z);
  k2 ← dict_get clusters (c2 z);
  m ← fill_pairs (indices k1) (indices k2) (Fin (dist z)) m;
  Ok (clusters, m).

Definition enumerate {A : Type} (l : list A) : list (nat * A) :=
  zip (seq 0 (length l)) l.

Definition dendrogram_distance (l_matrix : list linkage_row) (condensed : bool)
  : result (if condensed then list npfloat else ndarray) :=
  let nb_genes := (length l_matrix + 1)%nat in
  let clusters := leaf_clusters nb_genes in
  let m := np_zeros nb_genes nb_genes in
  '(_, m) ← for_each (dendrogram_body nb_genes) (enumerate l_matrix) (clusters, m);
  match condensed return result (if condensed then list npfloat else ndarray) with
  | true => Ok (upper_diag_list m)
  | false => Ok m
  end.

Definition compare_cophenetic (l_matrix1 l_matrix2 : list linkage_row)
  : result npfloat :=
  dists1 ← dendrogram_distance l_matrix1 true;
  dists2 ← dendrogram_distance l_matrix2 true;
  pearson_correlation_1d dists1 dists2.

(** [w * v] for an integer array and a float array of the same shape. *)
Definition np_mul_vec (w v : list npfloat) : result (list npfloat) :=
  if (length w =? length v)%nat then Ok (zip_with fmul w v) else Raise ValueError.

(** [(a == b).all()] for two integer arrays: numpy compares element by
    element, stretching an array of one element, and refuses other shapes. *)
Definition np_all_equal (a b : list nat) : result bool :=
  if (length a =? length b)%nat then
    Ok (forallb (fun p => (p.1 =? p.2)%nat) (zip a b))
  else if (length a =? 1)%nat then Ok (forallb (fun y => (hd 0%nat a =? y)%nat) b)
  else if (length b =? 1)%nat then Ok (forallb (fun x => (x =? hd 0%nat b)%nat) a)
  else Raise ValueError.

Definition weighted_mean (x : list npfloat) (w : list nat) : result npfloat :=
  d ← np_dot (map of_nat w) x;
  Ok (fdiv d (of_nat (sum_list w))).

Definition weighted_var (x : list npfloat) (w : list nat) (mean : npfloat)
  : result npfloat :=
  d ← np_dot (map of_nat w) (map (fun v => let e := fsub v mean in fmul e e) x);
  Ok (fdiv d (of_nat (sum_list w))).

Definition weighted_covar (x y : list npfloat) (w : list nat)
    (mean_x mean_y : npfloat) : result npfloat :=
  wx ← np_mul_vec (map of_nat w) (map (fun v => fsub v mean_x) x);
  d ← np_dot wx (map (fun v => fsub v mean_y) y);
  Ok (fdiv d (of_nat (sum_list w))).

(** [omega_coefficient] from the assertion on: what it does with the chip
    rates and weights of the two datasets. *)
Definition omega_of_rates (rates_x : list npfloat) (weights_x : list nat)
    (rates_y : list npfloat) (weights_y : list nat) : result npfloat :=
  same ← np_all_equal weights_x weights_y;
  assert_ same;;
  let weights := weights_x in
  mean_x ← weighted_mean rates_x weights;
  mean_y ← weighted_mean rates_y weights;
  var_x ← weighted_var rates_x weights mean_x;
  var_y ← weighted_var rates_y weights mean_y;
  covar ← weighted_covar rates_x rates_y weights mean_x mean_y;
  Ok (fdiv covar (fsqrt (fmul var_x var_y))).

(** [np.sum] of a boolean array: the number of [True]s. *)
Definition np_sum_bool (a : list bool) : nat :=
  length (List.filter (fun b : bool => b) a).

(** ** The functions that call the data source and the libraries *)

Section Engine.

(** [tf_tg_interactions()] of the module [data_pipeline]: the regulatory map
    of the organism. *)
Variable tf_tg_interactions : regulatory_map.

(** [scipy.cluster.hierarchy.linkage(y, 'complete')]. *)
Variable linkage_complete : list npfloat -> result (list linkage_row).

(** The coefficient [c] of [scipy.cluster.hierarchy.cophenet(Z, Y)]. *)
Variable cophenet : list linkage_row -> list npfloat -> npfloat.

(** The p-value of [scipy.stats.mannwhitneyu(x, y, alternative='two-sided')],
    which may raise (some versions refuse samples without two distinct
    values). *)
Variable mannwhitneyu : list npfloat -> list npfloat -> result npfloat.

(** The [reject] array of
    [multipletests(pvals=p, alpha=0.05, method='fdr_bh')] of statsmodels,
    which may raise (it divides by the number of tests). *)
Variable multipletests : list npfloat -> result (list bool).

Definition compute_tf_tg_corrs (expr : ndarray) (gene_symbols : list string)
    (tf_tg : option regulatory_map) (flat : bool)
  : result (if flat then (list npfloat * list npfloat)%type
            else (list (list npfloat) * list (list npfloat))%type) :=
  let tf_tg := match tf_tg with None => tf_tg_interactions | Some d => d end in
  '(tf_tg_corr, tg_tg_corr) ←
    for_each (tf_tg_corrs_body expr gene_symbols) tf_tg ([], []);
  match flat return result (if flat then (list npfloat * list npfloat)%type
                            else (list (list npfloat) * list (list npfloat))%type)
  with
  | true => Ok (concat tf_tg_corr, concat tg_tg_corr)
  | false => Ok (tf_tg_corr, tg_tg_corr)
  end.

Definition hierarchical_clustering (data : ndarray)
    (corr_fun : ndarray -> ndarray -> result ndarray)
  : result (list linkage_row) :=
  c ← correlations_list data data corr_fun;
  let y := map (fsub (Fin 1%R)) c in
  linkage_complete y.

Definition gamma_coefficients (expr_x expr_z : ndarray)
  : result (npfloat * npfloat * npfloat * npfloat) :=
  cx ← correlations_list expr_x expr_x pearson_correlation;
  let dists_x := map (fsub (Fin 1%R)) cx in
  cz ← correlations_list expr_z expr_z pearson_correlation;
  let dists_z := map (fsub (Fin 1%R)) cz in
  gamma_dx_dz ← pearson_correlation_1d dists_x dists_z;
  xl_matrix ← hierarchical_clustering expr_x pearson_correlation;
  let gamma_dx_tx := cophenet xl_matrix dists_x in
  zl_matrix ← hierarchical_clustering expr_z pearson_correlation;
  let gamma_dz_tz := cophenet zl_matrix dists_z in
  gamma_tx_tz ← compare_cophenetic xl_matrix zl_matrix;
  Ok (gamma_dx_dz, gamma_dx_tx, gamma_dz_tz, gamma_tx_tz).

(** The body of the loop of [find_chip_rates]; the state is
    [(active_tfs, weights)]. *)
Definition chip_rates_body (expr_norm : ndarray) (gene_symbols : list string)
    (st : list npfloat * list nat) (entry : string * list string)
  : result (list npfloat * list nat) :=
  let '(active_tfs, weights) := st in
  let '(tf, tgs) := entry in
  let nb_samples := nrows expr_norm in
  let nb_genes := ncols expr_norm in
  tg_idxs ← target_indices gene_symbols tgs;
  if symbol_in tf gene_symbols && (0 <? length tg_idxs)%nat then
    let weights := weights ++ [length tg_idxs] in
    expr_tgs ← take_columns expr_norm tg_idxs;
    let non_tg_idxs :=
      List.filter (fun j => negb (existsb (Nat.eqb j) tg_idxs)) (seq 0 nb_genes) in
    expr_non_tgs ← take_columns expr_norm non_tg_idxs;
    p_values ←
      for_each
        (fun p_values i =>
           p_value ← mannwhitneyu (row expr_tgs i) (row expr_non_tgs i);
           Ok (p_values ++ [p_value]))
        (seq 0 nb_samples) [];
    reject ← multipletests p_values;
    let chip_rate :=
      fdiv (of_nat (np_sum_bool reject)) (of_nat nb_samples) in
    Ok (active_tfs ++ [chip_rate], weights)
  else Ok (active_tfs, weights).

Definition find_chip_rates (expr : ndarray) (gene_symbols : list string)
    (tf_tg : option regulatory_map) : result (list npfloat * list nat) :=
  let tf_tg := match tf_tg with None => tf_tg_interactions | Some d => d end in
  let expr_norm := standardize2 expr in
  for_each (chip_rates_body expr_norm gene_symbols) tf_tg ([], []).

Definition omega_coefficient (expr_x expr_z : ndarray)
    (gene_symbols : list string) : result npfloat :=
  let tf_tg := tf_tg_interactions in
  '(rates_x, weights_x) ← find_chip_rates expr_x gene_symbols (Some tf_tg);
  '(rates_y, weights_y) ← find_chip_rates expr_z gene_symbols (Some tf_tg);
  omega_of_rates rates_x weights_x rates_y weights_y.

Definition compute_scores (expr_x expr_z : ndarray) (gene_symbols : list string)
  : result (list npfloat) :=
  '(gamma_dx_dz, gamma_dx_tx, gamma_dz_tz, gamma_tx_tz) ←
    gamma_coefficients expr_x expr_z;
  '(r_tf_tg_corr, r_tg_tg_corr) ←
    compute_tf_tg_corrs expr_x gene_symbols None false;
  '(s_tf_tg_corr, s_tg_tg_corr) ←
    compute_tf_tg_corrs expr_z gene_symbols None false;
  psi_dx_dz ← psi_coefficient r_tf_tg_corr s_tf_tg_corr nb_genes_type;
  phi_dx_dz ← phi_coefficient r_tg_tg_corr s_tg_tg_corr nb_genes_type;
  omega_coeff ← omega_coefficient expr_x expr_z gene_symbols;
  let d := fsub gamma_dx_tx gamma_dz_tz in
  Ok [gamma_dx_dz; gamma_tx_tz; fmul d d;
      to_float psi_dx_dz; to_float phi_dx_dz; omega_coeff].

End Engine.

(** ** Real-valued vectors

    The sums, means and variances of a list of reals, to which the numpy
    functions are related on arrays without special values. *)

Definition Rsum (l : list R) : R := foldr Rplus 0%R l.

Definition Rmean (l : list R) : R := (Rsum l / INR (length l))%R.

Definition Rvar (l : list R) : R :=
  Rmean (map (fun v => (v - Rmean l) * (v - Rmean l))%R l).

(** An array is constant when all its entries are one value. *)
Definition constant (a : list npfloat) : Prop :=
  exists c, forall v, In v a -> v = c.

(** ** Predicates, per-TF values and example data used in the statements *)

(** The entries strictly above the diagonal, row by row, left to right. *)
Definition strict_upper (m : ndarray) : list npfloat :=
  concat (map (fun i => map (item m i) (seq (S i) (ncols m - S i)))
              (seq 0 (nrows m))).

Definition notnan (v : npfloat) : bool := negb (isnan v).

(** An array of standard deviation neither zero nor undefined. *)
Definition nonzero_std (a : list npfloat) : Prop :=
  match np_std a with Fin s => s <> 0%R | _ => False end.

(** An expression matrix holds real numbers: no NaN, no infinity. *)
Definition real_valued (x : ndarray) : Prop :=
  forall s j, (s < nrows x)%nat -> (j < ncols x)%nat ->
              isfinite (item x s j) = true.

(** No gene column of zero variance. *)
Definition no_zero_variance (x : ndarray) : Prop :=
  forall j, (j < ncols x)%nat -> nonzero_std (column x j).

(** The matrix [pearson_correlation] returns once its assertion has passed. *)
Definition pearson_matrix (x y : ndarray) : ndarray :=
  np_div_scalar (np_matmul (np_transpose (standardize2 x)) (standardize2 y))
                (of_nat (nrows x)).

(** The gene symbols of the example. *)
Definition example_symbols : list string := ["TF1"; "G1"; "G2"]%string.

(** Two samples of three genes: the TF and its first target move together,
    its second target moves against them. *)
Definition example_expr : ndarray :=
  of_rows [[Fin 1%R; Fin 1%R; Fin (-1)%R];
           [Fin (-1)%R; Fin (-1)%R; Fin 1%R]].

(** Every entry of the array is a number. *)
Definition finite_matrix (m : ndarray) : Prop :=
  forall i j, isfinite (item m i j) = true.

Definition square_finite (n : nat) (m : ndarray) : Prop :=
  nrows m = n /\ ncols m = n /\ finite_matrix m.

(** The ids of row [i] name clusters that exist when the row is replayed:
    leaves, or nodes made by earlier rows. *)
Definition valid_linkage (l_matrix : list linkage_row) : Prop :=
  forall i z, l_matrix !! i = Some z ->
    (c1 z < length l_matrix + 1 + i)%nat /\ (c2 z < length l_matrix + 1 + i)%nat.

(** The state of the dictionary of clusters before row [i] is replayed. *)
Definition clusters_upto (n i : nat) (clusters : gmap nat Cluster) : Prop :=
  (forall k, (k < n + i)%nat -> is_Some (clusters !! k)) /\
  (forall k c, clusters !! k = Some c -> Forall (fun x => (x < n)%nat) (indices c)).

(** The targets of a TF that are among the gene symbols, in the order of the
    map. *)
Definition present_targets (gene_symbols tgs : list string) : list string :=
  List.filter (fun tg => symbol_in tg gene_symbols) tgs.

(** A TF is eligible when it is a gene symbol and has a present target. *)
Definition eligible (gene_symbols : list string)
    (entry : string * list string) : bool :=
  symbol_in entry.1 gene_symbols
  && (0 <? length (present_targets gene_symbols entry.2))%nat.

(** The column of a gene symbol. *)
Definition position (gene_symbols : list string) (g : string) : nat :=
  hd 0%nat (np_where gene_symbols g).

(** The columns of the present targets of a TF. *)
Definition target_positions (gene_symbols tgs : list string) : list nat :=
  map (position gene_symbols) (present_targets gene_symbols tgs).

(** The array [take_columns] returns when the positions are in range. *)
Definition columns (a : ndarray) (idxs : list nat) : ndarray :=
  {| nrows := nrows a; ncols := length idxs;
     item := fun s k => item a s (nth k idxs 0%nat) |}.

(** The entries of one eligible TF in the two lists of
    [compute_tf_tg_corrs]. *)
Definition tg_tg_list (expr : ndarray) (gene_symbols : list string)
    (entry : string * list string) : list npfloat :=
  let expr_tgs := columns expr (target_positions gene_symbols entry.2) in
  upper_diag_list (pearson_matrix expr_tgs expr_tgs).

Definition tf_tg_vector (expr : ndarray) (gene_symbols : list string)
    (entry : string * list string) : list npfloat :=
  let expr_tgs := columns expr (target_positions gene_symbols entry.2) in
  let expr_tf := columns expr [position gene_symbols entry.1] in
  np_ravel (pearson_matrix expr_tf expr_tgs).

(** The value a library call returns (NaN stands for a call that raised). *)
Definition returned (r : result npfloat) : npfloat :=
  match r with Ok v => v | Raise _ => NaN end.

(** The chip rate [find_chip_rates] computes for one eligible TF. *)
Definition chip_rate
    (mannwhitneyu : list npfloat -> list npfloat -> result npfloat)
    (multipletests : list npfloat -> result (list bool))
    (expr : ndarray) (gene_symbols : list string)
    (entry : string * list string) : npfloat :=
  let expr_norm := standardize2 expr in
  let tg_idxs := target_positions gene_symbols entry.2 in
  let non_tg_idxs :=
    List.filter (fun j => negb (existsb (Nat.eqb j) tg_idxs))
                (seq 0 (ncols expr)) in
  let expr_tgs := columns expr_norm tg_idxs in
  let expr_non_tgs := columns expr_norm non_tg_idxs in
  let p_values :=
    map (fun i => returned (mannwhitneyu (row expr_tgs i) (row expr_non_tgs i)))
        (seq 0 (nrows expr)) in
  match multipletests p_values with
  | Ok reject => fdiv (of_nat (np_sum_bool reject)) (of_nat (nrows expr))
  | Raise _ => NaN
  end.

Definition example_map : regulatory_map :=
  [("TF1", ["G1"; "G2"]); ("TF2", ["G9999"])]%string.


(** Stand-ins for the library calls, used to instantiate the statements on
    the example: every test returns the p-value 1. *)
Definition example_mannwhitneyu (x y : list npfloat) : result npfloat :=
  Ok (Fin 1%R).

(** No hypothesis is rejected; an empty list of p-values raises, as the
    library's division by the number of tests does. *)
Definition example_multipletests (ps : list npfloat) : result (list bool) :=
  match ps with
  | [] => Raise ZeroDivisionError
  | _ => Ok (map (fun _ => false) ps)
  end.

(** Complete linkage on the three genes of the example merges the TF with
    its first target at height 0 and their cluster with the second target at
    height 2. *)
Definition example_linkage : list linkage_row :=
  [mk_row 0 1 0%R 2; mk_row 2 3 2%R 3].

(** The value is 1, or NaN. *)
Definition one_or_nan (x : npfloat) : Prop := x = Fin 1%R \/ x = NaN.

(** Some entry of the vector is not zero. *)
Definition has_nonzero (rs : list R) : Prop := exists r, In r rs /\ r <> 0%R.

(** The state of an aggregation loop once a TF has entered the sums:
    [weights_sum] is a positive number [w], and [total_sum] is a numpy float,
    equal to [w] or NaN ([w] itself when [exact] is set). *)
Definition started (exact : bool) (st : pynum * pynum) : Prop :=
  exists (w : R) (t : npfloat),
    (0 < w)%R /\ to_float st.1 = Fin w /\ st.2 = NpFloat t /\
    (t = Fin w \/ (exact = false /\ t = NaN)).

(** The state of an aggregation loop: as it starts, or as above. *)
Definition running (exact : bool) (st : pynum * pynum) : Prop :=
  st = (PyInt 0, PyInt 0) \/ started exact st.

(** Some entry of the array is not the number zero. *)
Definition nonzero_vector (v : list npfloat) : Prop :=
  exists x, In x v /\ x <> Fin 0%R.

(** A pair of the loop of [psi_coefficient] on a dataset against itself: the
    same non-empty real-valued vector twice. *)
Definition psi_pair (exact : bool) (c : list npfloat * list npfloat) : Prop :=
  c.2 = c.1 /\
  exists rs : list R, c.1 = map Fin rs /\ rs <> [] /\
                      (exact = true -> has_nonzero rs).

(** A pair of the loop of [phi_coefficient] on a dataset against itself: the
    same real-valued list twice, holding the pairs of [g] genes. *)
Definition phi_pair (exact : bool) (c : list npfloat * list npfloat) : Prop :=
  c.2 = c.1 /\
  exists (rs : list R) (g : nat),
    c.1 = map Fin rs /\ (2 * length rs = g * (g - 1))%nat /\
    (exact = true -> rs = [] \/ has_nonzero rs).

(** The sum of the weights [fw a] over the TFs of [l]. *)
Definition total_weight {A : Type} (fw : A -> nat) (l : list A) : R :=
  Rsum (map (fun a => INR (fw a)) l).

(** The weighted sum of the squared deviations of the rates [fr a] from
    [mu]. *)
Definition weighted_squares {A : Type} (fw : A -> nat) (fr : A -> R)
    (mu : R) (l : list A) : R :=
  Rsum (map (fun a => INR (fw a) * ((fr a + - mu) * (fr a + - mu)))%R l).

(** The condensed [1 - correlation] distances of [gamma_coefficients] and
    [hierarchical_clustering]. *)
Definition distance_vector (x : ndarray) : list npfloat :=
  map (fsub (Fin 1%R)) (upper_diag_list (pearson_matrix x x)).

(** The number behind a chip rate. *)
Definition real_part (x : npfloat) : R :=
  match x with Fin r => r | _ => 0%R end.

(** Stand-ins for scipy on the example: the linkage matrix of its three
    genes, and a cophenetic coefficient of 1. *)
Definition example_linkage_complete (y : list npfloat)
  : result (list linkage_row) := Ok example_linkage.

Definition example_cophenet (z : list linkage_row) (y : list npfloat)
  : npfloat := Fin 1%R.

(** A map without any eligible TF for the symbols of the example. *)
Definition foreign_map : regulatory_map := [("TF2", ["G9999"])]%string.

(** A map in which both TF1 and G1 are eligible. *)
Definition example_map2 : regulatory_map :=
  [("TF1", ["G1"; "G2"]); ("G1", ["G2"])]%string.

(** Stand-ins that give the two TFs of the second map different chip rates:
    every sample of a TF with two targets is significant, none of a TF with
    one.  They are not the libraries' values. *)
Definition example_mannwhitneyu2 (x y : list npfloat) : result npfloat :=
  Ok (if (length x =? 2)%nat then Fin 0%R else Fin 1%R).

(** The p-value is the number zero. *)
Definition p_is_zero (p : npfloat) : bool :=
  match p with Fin r => Rzero r | _ => false end.

(** A p-value of zero is rejected, any other is not. *)
Definition example_multipletests2 (ps : list npfloat) : result (list bool) :=
  match ps with
  | [] => Raise ZeroDivisionError
  | _ => Ok (map p_is_zero ps)
  end.

(** ** Predicates of the further properties *)

(** Two real-valued vectors on which the cosine similarity is a number: one
    length, and neither is the zero vector. *)
Definition comparable (a b : list R) : Prop :=
  length a = length b /\ has_nonzero a /\ has_nonzero b.

(** A pair of the loop of [phi_coefficient]: skipped, or as above. *)
Definition phi_comparable (a b : list R) : Prop := a = [] \/ comparable a b.

(** The state of an aggregation loop that some TF has entered, when the
    cosines are numbers: the total weight [w] is positive and the total sum
    lies within [[-w, w]]. *)
Definition within_weight (st : pynum * pynum) : Prop :=
  exists w t : R,
    (0 < w)%R /\ to_float st.1 = Fin w /\ st.2 = NpFloat (Fin t) /\
    (- w <= t <= w)%R.

(** The columns [compute_tf_tg_corrs] reads for a TF, its own and those of
    its present targets, all exist in the expression matrix. *)
Definition in_range (expr : ndarray) (gene_symbols : list string)
    (entry : string * list string) : bool :=
  forallb (fun j => (j <? ncols expr)%nat)
          (position gene_symbols entry.1
           :: target_positions gene_symbols entry.2).

(** ** Silhouette scores of a dendrogram *)

(** [c - m] for a number [c] and a matrix [m]. *)
Definition np_rsub_scalar (c : npfloat) (m : ndarray) : ndarray :=
  {| nrows := nrows m; ncols := ncols m;
     item := fun i j => fsub c (item m i j) |}.

Section Silhouette.

(** [sklearn.metrics.silhouette_score(m, labels, metric='precomputed')],
    which may raise (it validates the distance matrix and the labels). *)
Variable silhouette_score : ndarray -> list nat -> result npfloat.

(** The body of the loop of [compute_silhouette]; the state is
    [(clusters, scores)].  A score is the Python integer 0 for a merge of two
    leaves, and the library's float otherwise. *)
Definition silhouette_body (data : ndarray) (nb_genes : nat)
    (st : gmap nat Cluster * list pynum) (iz : nat * linkage_row)
  : result (gmap nat Cluster * list pynum) :=
  let '(clusters, scores) := st in
  let '(i, z) := iz in
  cl ← dict_get clusters (c1 z);
  cr ← dict_get clusters (c2 z);
  let clusters := <[(nb_genes + i)%nat := Node cl cr]> clusters in
  k1 ← dict_get clusters (c1 z);
  let c1_indices := indices k1 in
  k2 ← dict_get clusters (c2 z);
  let c2_indices := indices k2 in
  let labels :=
    repeat 0%nat (length c1_indices) ++ repeat 1%nat (length c2_indices) in
  if (length labels =? 2)%nat then Ok (clusters, scores ++ [PyInt 0])
  else
    node ← dict_get clusters (nb_genes + i)%nat;
    expr ← take_columns data (indices node);
    c ← pearson_correlation expr expr;
    let m := np_rsub_scalar (Fin 1%R) c in
    score ← silhouette_score m labels;
    Ok (clusters, scores ++ [NpFloat score]).

Definition compute_silhouette (data : ndarray) (l_matrix : list linkage_row)
  : result (list pynum) :=
  let nb_genes := ncols data in
  let clusters := leaf_clusters nb_genes in
  '(_, scores) ←
    for_each (silhouette_body data nb_genes) (enumerate l_matrix)
             (clusters, []);
  Ok scores.

End Silhouette.


(** The dictionary of clusters over [n] leaves: a leaf under each id below
    [n], an internal node under each id from [n] on. *)
Definition leaves_then_nodes (n : nat) (clusters : gmap nat Cluster) : Prop :=
  forall k c, clusters !! k = Some c ->
    if (k <? n)%nat then c = Leaf k else exists l r, c = Node l r.

(** Row [z] merges two leaves. *)
Definition merges_leaves (n : nat) (z : linkage_row) : bool :=
  (c1 z <? n)%nat && (c2 z <? n)%nat.

(** NaN, or a number in [[-1, 1]]. *)
Definition nan_or_unit (v : npfloat) : Prop :=
  v = NaN \/ exists r : R, v = Fin r /\ (-1 <= r <= 1)%R.

(** The state of an aggregation loop that some TF has entered, for
    real-valued vectors of any kind: the total weight [w] is positive, and
    the total sum is NaN or lies within [[-w, w]]. *)
Definition weighted_state (st : pynum * pynum) : Prop :=
  exists (w : R) (t : npfloat),
    (0 < w)%R /\ to_float st.1 = Fin w /\ st.2 = NpFloat t /\
    (t = NaN \/ exists r : R, t = Fin r /\ (- w <= r <= w)%R).

(** * Properties *)

(** ** Arithmetic on finite values *)

Section FiniteArithmetic.
Local Open Scope R_scope.

Lemma Rzero_0 : Rzero 0 = true.
Proof. unfold Rzero. destruct (Req_dec_T 0 0); [reflexivity | contradiction]. Qed.

Lemma Rzero_neq (r : R) : r <> 0 -> Rzero r = false.
Proof. intros H. unfold Rzero. destruct (Req_dec_T r 0); [contradiction | reflexivity]. Qed.

Lemma fdiv_Fin (a b : R) : b <> 0 -> fdiv (Fin a) (Fin b) = Fin (a / b).
Proof. intros H. simpl. now rewrite Rzero_neq. Qed.

Lemma fdiv_0_0 : fdiv (Fin 0) (Fin 0) = NaN.
Proof. simpl. now rewrite Rzero_0. Qed.

Lemma fsqrt_Fin (a : R) : 0 <= a -> fsqrt (Fin a) = Fin (sqrt a).
Proof. intros H. simpl. destruct (Rlt_dec a 0); [lra | reflexivity]. Qed.

Lemma fsub_Fin (a b : R) : fsub (Fin a) (Fin b) = Fin (a - b).
Proof. reflexivity. Qed.

Lemma fadd_comm (x y : npfloat) : fadd x y = fadd y x.
Proof. destruct x, y; simpl; try reflexivity. now rewrite Rplus_comm. Qed.

Lemma fmul_comm (x y : npfloat) : fmul x y = fmul y x.
Proof. destruct x, y; simpl; try reflexivity. now rewrite Rmult_comm. Qed.

Lemma INR_length_pos {A : Type} (l : list A) : l <> [] -> 0 < INR (length l).
Proof.
  destruct l as [|a l]; [congruence | intros _].
  apply lt_0_INR. simpl. lia.
Qed.

End FiniteArithmetic.

(** ** The weighted aggregators on an empty eligible set *)

Lemma for_each_phi_empty (weights_type : string)
    (xs zs : list (list npfloat)) (st : pynum * pynum) :
  Forall (fun cx => cx = []) xs ->
  for_each (phi_body weights_type) (zip xs zs) st = Ok st.
Proof.
  intros H. revert zs st.
  induction H as [|cx xs Hcx _ IH]; intros zs st; [reflexivity|].
  destruct zs as [|cz zs]; [reflexivity|].
  subst cx. destruct st as [ws ts]. simpl. apply IH.
Qed.

(** C9.  With no eligible TF both lists are empty; [weights_sum] and
    [total_sum] are still the Python integer 0, and the closing division makes
    both aggregators raise [ZeroDivisionError]: they return no number, NaN or
    other.  [phi_coefficient] does the same when every TF it is given has an
    empty TG-TG list. *)
Theorem aggregators_raise_on_empty_eligible_set (weights_type : string) :
  psi_coefficient [] [] weights_type = Raise ZeroDivisionError /\
  phi_coefficient [] [] weights_type = Raise ZeroDivisionError /\
  (forall xs zs : list (list npfloat),
      Forall (fun cx => cx = []) xs ->
      phi_coefficient xs zs weights_type = Raise ZeroDivisionError).
Proof.
  split; [reflexivity | split; [reflexivity |]].
  intros xs zs H. unfold phi_coefficient.
  rewrite for_each_phi_empty by assumption. reflexivity.
Qed.

(** ** The weight of a TF in [phi_coefficient] *)

Section PhiWeight.
Local Open Scope R_scope.

Lemma py_max_roots (x : R) :
  0 <= x ->
  py_max (np_roots_monic 1 (-2 * x)) = Ok (Fin ((-1 + sqrt (1 + 8 * x)) / 2)).
Proof.
  intros Hx. unfold np_roots_monic, py_max. simpl.
  replace (1 * 1 - 4 * (-2 * x)) with (1 + 8 * x) by ring.
  pose proof (sqrt_pos (1 + 8 * x)) as Hs.
  destruct (Rlt_dec _ _) as [Hlt|_]; [lra | reflexivity].
Qed.

Lemma pairs_INR (g L : nat) :
  (1 <= g)%nat -> (2 * L = g * (g - 1))%nat ->
  1 + 8 * INR L = (2 * INR g - 1) * (2 * INR g - 1).
Proof.
  intros Hg HL. apply (f_equal INR) in HL.
  rewrite !mult_INR, minus_INR in HL by lia. simpl in HL. lra.
Qed.

(** The weight of a TF whose condensed list holds the pairs of [g] genes. *)
Lemma phi_weight_nb_genes (g : nat) (cx : list npfloat) :
  (1 <= g)%nat ->
  (2 * length cx = g * (g - 1))%nat ->
  phi_weight nb_genes_type cx = Ok (NpFloat (Fin (INR g - 1))).
Proof.
  intros Hg HL.
  assert (Hg1 : 1 <= INR g) by (apply (le_INR 1); exact Hg).
  pose proof (pairs_INR g (length cx) Hg HL) as Hp.
  unfold phi_weight. simpl String.eqb. cbv iota.
  rewrite py_max_roots by apply pos_INR.
  rewrite Hp, sqrt_square by lra.
  simpl. do 3 f_equal. lra.
Qed.

(** C2.  With [weights_type = 'nb_genes'], a TF with [g >= 2] present
    targets has a condensed list of length [L = g(g-1)/2], and the weight used
    for it is the positive root of [w^2 + w - 2L = 0].  That root is [g - 1],
    one less than the number of genes the TF regulates. *)
Theorem phi_weight_is_positive_root (g : nat) (cx : list npfloat) :
  (2 <= g)%nat ->
  (2 * length cx = g * (g - 1))%nat ->
  exists w : R,
    phi_weight nb_genes_type cx = Ok (NpFloat (Fin w)) /\
    w * w + w - 2 * INR (length cx) = 0 /\ 0 < w /\
    w = INR g - 1 /\ w <> INR g.
Proof.
  intros Hg HL. exists (INR g - 1).
  assert (Hg1 : 2 <= INR g) by (apply (le_INR 2); exact Hg).
  pose proof (pairs_INR g (length cx) ltac:(lia) HL) as Hp.
  split; [apply phi_weight_nb_genes; [lia | exact HL]|].
  repeat split; nra.
Qed.

Lemma phi_weight_is_positive_root_witness :
  exists w : R,
    phi_weight nb_genes_type [Fin (1 / 2)] = Ok (NpFloat (Fin w)) /\
    w * w + w - 2 * INR (length [Fin (1 / 2)]) = 0 /\ 0 < w /\
    w = INR 2 - 1 /\ w <> INR 2.
Proof.
  apply (phi_weight_is_positive_root 2 [Fin (1 / 2)]); simpl; lia.
Defined.

End PhiWeight.

(** ** The condensed upper-diagonal list *)

Lemma fadd_0_r (x : npfloat) : fadd x (Fin 0%R) = x.
Proof. destruct x; simpl; try reflexivity. now rewrite Rplus_0_r. Qed.

Lemma filter_all_false {A : Type} (f : A -> bool) (l : list A) :
  (forall x, In x l -> f x = false) -> List.filter f l = [].
Proof.
  induction l as [|a l IH]; intros H; [reflexivity|]. simpl.
  rewrite (H a) by now left. apply IH. intros x Hx. apply H. now right.
Qed.

Lemma filter_all_true {A : Type} (f : A -> bool) (l : list A) :
  (forall x, In x l -> f x = true) -> List.filter f l = l.
Proof.
  induction l as [|a l IH]; intros H; [reflexivity|]. simpl.
  rewrite (H a) by now left. f_equal. apply IH. intros x Hx. apply H. now right.
Qed.

Lemma filter_concat {A : Type} (f : A -> bool) (ls : list (list A)) :
  List.filter f (concat ls) = concat (map (List.filter f) ls).
Proof.
  induction ls as [|l ls IH]; [reflexivity|].
  simpl. now rewrite List.filter_app, IH.
Qed.

(** What is left of row [i] once the marked entries are dropped. *)
Lemma upper_diag_row (m_ : ndarray) (i : nat) :
  let marked :=
    np_add (np_triu1 m_) (np_tril (np_add_scalar (np_zeros_like m_) NaN)) in
  List.filter notnan (row marked i) =
  List.filter notnan (map (item m_ i) (seq (S i) (ncols m_ - S i))).
Proof.
  intros marked. unfold row. simpl ncols.
  destruct (Nat.le_gt_cases (ncols m_) i) as [Hle|Hlt].
  - replace (ncols m_ - S i)%nat with 0%nat by lia. simpl.
    apply filter_all_false. intros x Hx.
    apply in_map_iff in Hx as (j & <- & Hj). apply in_seq in Hj.
    simpl. replace (i <? j)%nat with false by (symmetry; apply Nat.ltb_ge; lia).
    replace (j <=? i)%nat with true by (symmetry; apply Nat.leb_le; lia).
    reflexivity.
  - replace (seq 0 (ncols m_)) with (seq 0 (S i) ++ seq (S i) (ncols m_ - S i)).
    2:{ rewrite <- seq_app. f_equal. lia. }
    rewrite map_app, List.filter_app.
    rewrite filter_all_false.
    2:{ intros x Hx. apply in_map_iff in Hx as (j & <- & Hj). apply in_seq in Hj.
        simpl.
        replace (i <? j)%nat with false by (symmetry; apply Nat.ltb_ge; lia).
        replace (j <=? i)%nat with true by (symmetry; apply Nat.leb_le; lia).
        reflexivity. }
    simpl app. f_equal. apply map_ext_in. intros j Hj. apply in_seq in Hj.
    simpl.
    replace (i <? j)%nat with true by (symmetry; apply Nat.ltb_lt; lia).
    replace (j <=? i)%nat with false by (symmetry; apply Nat.leb_gt; lia).
    apply fadd_0_r.
Qed.

(** [upper_diag_list] returns the entries above the diagonal that are not
    NaN, in row-major order. *)
Lemma upper_diag_list_filter (m_ : ndarray) :
  upper_diag_list m_ = List.filter notnan (strict_upper m_).
Proof.
  unfold upper_diag_list, strict_upper, np_ravel.
  rewrite !filter_concat, !map_map. f_equal.
  apply map_ext. intros i. apply (upper_diag_row m_ i).
Qed.

Lemma strict_upper_length_upto (m : ndarray) (k : nat) :
  (k <= ncols m)%nat ->
  (2 * length (concat (map (fun i => map (item m i) (seq (S i) (ncols m - S i)))
                           (seq 0 k)))
   = k * (2 * ncols m - k - 1))%nat.
Proof.
  induction k as [|k IH]; intros Hk; [reflexivity|].
  rewrite seq_S, map_app, concat_app, length_app. simpl.
  rewrite Nat.add_0_r, length_app, length_map, length_seq. simpl.
  specialize (IH ltac:(lia)). nia.
Qed.

(** On a square matrix without NaN above its diagonal, [upper_diag_list]
    returns all [n(n-1)/2] entries above the diagonal, in row-major order. *)
Lemma upper_diag_list_square (m_ : ndarray) (n : nat) :
  nrows m_ = n -> ncols m_ = n ->
  (forall i j, (i < j < n)%nat -> isnan (item m_ i j) = false) ->
  upper_diag_list m_ = strict_upper m_ /\
  (2 * length (upper_diag_list m_) = n * (n - 1))%nat.
Proof.
  intros Hr Hc Hnan.
  assert (E : upper_diag_list m_ = strict_upper m_).
  { rewrite upper_diag_list_filter. apply filter_all_true.
    intros x Hx. unfold strict_upper in Hx.
    apply in_concat in Hx as (l & Hl & Hx).
    apply in_map_iff in Hl as (i & <- & Hi). apply in_seq in Hi.
    apply in_map_iff in Hx as (j & <- & Hj). apply in_seq in Hj.
    unfold notnan. rewrite Hnan; [reflexivity | lia]. }
  split; [exact E|]. rewrite E. unfold strict_upper. rewrite Hr.
  rewrite strict_upper_length_upto by lia. rewrite Hc. nia.
Qed.

(** C5.  The correlation matrix [[1, NaN], [NaN, NaN]] (what
    [pearson_correlation] gives for two genes, the second of zero variance)
    has one entry above its diagonal, yet [upper_diag_list] returns no value
    for it: an entry that is NaN is dropped together with the marked ones. *)
Theorem upper_diag_list_drops_nan :
  let m := of_rows [[Fin 1%R; NaN]; [NaN; NaN]] in
  nrows m = 2%nat /\ ncols m = 2%nat /\
  strict_upper m = [NaN] /\
  upper_diag_list m = [] /\
  length (upper_diag_list m) <> (2 * (2 - 1) / 2)%nat.
Proof.
  repeat split; try reflexivity. simpl. discriminate.
Qed.

(** ** numpy reductions on real-valued vectors *)

Section RealVectors.
Local Open Scope R_scope.

Lemma np_sum_Fin (l : list R) : np_sum (map Fin l) = Fin (Rsum l).
Proof.
  unfold np_sum. induction l as [|a l IH]; [reflexivity|].
  simpl. now rewrite IH.
Qed.

Lemma np_mean_Fin (l : list R) :
  l <> [] -> np_mean (map Fin l) = Fin (Rmean l).
Proof.
  intros H. unfold np_mean, of_nat. rewrite np_sum_Fin, length_map.
  rewrite fdiv_Fin; [reflexivity|].
  pose proof (INR_length_pos l H). lra.
Qed.

Lemma np_mean_nil : np_mean [] = NaN.
Proof. unfold np_mean. simpl. apply fdiv_0_0. Qed.

Lemma Rsum_nonneg (l : list R) : (forall v, In v l -> 0 <= v) -> 0 <= Rsum l.
Proof.
  induction l as [|a l IH]; intros H; simpl; [lra|].
  pose proof (H a (or_introl eq_refl)).
  pose proof (IH (fun v Hv => H v (or_intror Hv))). lra.
Qed.

Lemma Rsum_zero_all (l : list R) :
  (forall v, In v l -> 0 <= v) -> Rsum l = 0 -> forall v, In v l -> v = 0.
Proof.
  induction l as [|a l IH]; intros Hpos Hs v Hv; [destruct Hv|].
  simpl in Hs.
  pose proof (Hpos a (or_introl eq_refl)) as Ha.
  pose proof (Rsum_nonneg l (fun x Hx => Hpos x (or_intror Hx))) as Hl.
  destruct Hv as [<-|Hv]; [lra|].
  apply IH; [intros x Hx; apply Hpos; now right | lra | exact Hv].
Qed.

Lemma Rsum_scal (c : R) (l : list R) :
  Rsum (map (fun v => c * v) l) = c * Rsum l.
Proof. induction l as [|a l IH]; simpl; [lra | rewrite IH; lra]. Qed.

Lemma Rsum_squares_nonneg {A : Type} (f : A -> R) (l : list A) :
  0 <= Rsum (map (fun v => f v * f v) l).
Proof.
  apply Rsum_nonneg. intros v Hv. apply in_map_iff in Hv as (x & <- & _). nra.
Qed.

Lemma Rvar_nonneg (l : list R) : 0 <= Rvar l.
Proof.
  unfold Rvar, Rmean at 1. rewrite length_map.
  pose proof (Rsum_squares_nonneg (fun v => v - Rmean l) l) as Hs.
  destruct l as [|a l]; [simpl; lra|].
  pose proof (INR_length_pos (a :: l) ltac:(discriminate)) as Hn.
  apply Rmult_le_pos; [exact Hs|]. left. now apply Rinv_0_lt_compat.
Qed.

Lemma np_std_Fin (l : list R) :
  l <> [] -> np_std (map Fin l) = Fin (sqrt (Rvar l)).
Proof.
  intros H. unfold np_std. rewrite np_mean_Fin by assumption.
  rewrite map_map. simpl.
  change (map (fun x => Fin ((x + - Rmean l) * (x + - Rmean l))) l)
    with (map (fun x => Fin ((fun v => (v - Rmean l) * (v - Rmean l)) x)) l).
  rewrite <- (map_map (fun v => (v - Rmean l) * (v - Rmean l)) Fin).
  rewrite np_mean_Fin by (destruct l; [congruence | discriminate]).
  apply fsqrt_Fin. apply Rvar_nonneg.
Qed.

Lemma np_std_nil : np_std [] = NaN.
Proof. unfold np_std. simpl. now rewrite np_mean_nil. Qed.

(** A real-valued array with a usable deviation is not empty and has a
    positive variance. *)
Lemma nonzero_std_Fin (l : list R) :
  nonzero_std (map Fin l) <-> l <> [] /\ 0 < Rvar l.
Proof.
  unfold nonzero_std. destruct l as [|a l].
  - simpl map. rewrite np_std_nil. split; [tauto | intros [H _]; congruence].
  - rewrite np_std_Fin by discriminate.
    pose proof (Rvar_nonneg (a :: l)) as Hv. split.
    + intros Hs. split; [discriminate|].
      destruct Hv as [Hv|Hv]; [exact Hv|]. rewrite <- Hv, sqrt_0 in Hs. tauto.
    + intros [_ Hp] Hs. apply sqrt_eq_0 in Hs; lra.
Qed.

Lemma standardize_Fin (l : list R) :
  l <> [] -> 0 < Rvar l ->
  standardize (map Fin l) =
  map Fin (map (fun v => (v - Rmean l) / sqrt (Rvar l)) l).
Proof.
  intros Hl Hv. unfold standardize.
  rewrite np_mean_Fin, np_std_Fin by assumption.
  rewrite !map_map. apply map_ext. intros v.
  rewrite fsub_Fin, fdiv_Fin; [reflexivity|].
  pose proof (sqrt_lt_R0 _ Hv). lra.
Qed.

Lemma vdot_Fin (a b : list R) :
  vdot (map Fin a) (map Fin b) = Fin (Rsum (zip_with Rmult a b)).
Proof.
  unfold vdot. rewrite <- np_sum_Fin. f_equal.
  revert b. induction a as [|x a IH]; intros [|y b]; simpl; try reflexivity.
  now rewrite IH.
Qed.

(** The squares of a standardized vector add up to its length. *)
Lemma Rsum_standardized_squares (l : list R) :
  l <> [] -> 0 < Rvar l ->
  let z := map (fun v => (v - Rmean l) / sqrt (Rvar l)) l in
  Rsum (zip_with Rmult z z) = INR (length l).
Proof.
  intros Hl Hv z. subst z.
  pose proof (sqrt_lt_R0 _ Hv) as Hs.
  pose proof (sqrt_sqrt (Rvar l) ltac:(lra)) as Hss.
  pose proof (INR_length_pos l Hl) as Hn.
  assert (E : forall k : list R,
             Rsum (zip_with Rmult
                     (map (fun v => (v - Rmean l) / sqrt (Rvar l)) k)
                     (map (fun v => (v - Rmean l) / sqrt (Rvar l)) k))
             = / Rvar l * Rsum (map (fun v => (v - Rmean l) * (v - Rmean l)) k)).
  { assert (Hinv : / sqrt (Rvar l) * / sqrt (Rvar l) = / Rvar l).
    { rewrite <- Rinv_mult, Hss. reflexivity. }
    induction k as [|x k IH]; simpl; [lra|]. rewrite IH.
    unfold Rdiv.
    replace ((x - Rmean l) * / sqrt (Rvar l) * ((x - Rmean l) * / sqrt (Rvar l)))
      with ((x - Rmean l) * (x - Rmean l) * (/ sqrt (Rvar l) * / sqrt (Rvar l)))
      by ring.
    rewrite Hinv. ring. }
  rewrite E.
  assert (Hv2 : Rvar l =
                Rsum (map (fun v => (v - Rmean l) * (v - Rmean l)) l)
                / INR (length l)).
  { unfold Rvar, Rmean at 1. now rewrite length_map. }
  set (S2 := Rsum (map (fun v => (v - Rmean l) * (v - Rmean l)) l)) in *.
  rewrite Hv2 in Hv |- *.
  assert (S2 <> 0).
  { intros E0. rewrite E0 in Hv. unfold Rdiv in Hv. rewrite Rmult_0_l in Hv. lra. }
  field. split; lra.
Qed.

(** The Pearson coefficient of a real-valued vector with itself is 1. *)
Lemma pearson_1d_self (l : list R) :
  nonzero_std (map Fin l) ->
  pearson_correlation_1d (map Fin l) (map Fin l) = Ok (Fin 1).
Proof.
  intros H. apply nonzero_std_Fin in H as [Hl Hv].
  unfold pearson_correlation_1d. rewrite Nat.eqb_refl. simpl assert_. cbn [mbind result_bind].
  unfold np_dot. rewrite Nat.eqb_refl.
  rewrite standardize_Fin by assumption.
  rewrite vdot_Fin, Rsum_standardized_squares by assumption.
  cbn [mbind result_bind]. unfold of_nat. rewrite length_map.
  pose proof (INR_length_pos l Hl) as Hn.
  rewrite fdiv_Fin by lra. do 2 f_equal. field. lra.
Qed.

End RealVectors.

(** ** The correlation matrix *)

Section CorrelationMatrix.
Local Open Scope R_scope.

Lemma pearson_correlation_eq (x y : ndarray) :
  pearson_correlation x y =
  if (nrows x =? nrows y)%nat then Ok (pearson_matrix x y)
  else Raise AssertionError.
Proof.
  unfold pearson_correlation, assert_.
  destruct (nrows x =? nrows y)%nat; reflexivity.
Qed.

Lemma column_standardize2 (x : ndarray) (j : nat) :
  column (standardize2 x) j = standardize (column x j).
Proof. unfold column, standardize. simpl. now rewrite map_map. Qed.

Lemma pearson_matrix_item (x y : ndarray) (i j : nat) :
  item (pearson_matrix x y) i j =
  fdiv (vdot (standardize (column x i)) (standardize (column y j)))
       (of_nat (nrows x)).
Proof.
  unfold pearson_matrix. simpl item.
  rewrite <- !column_standardize2. reflexivity.
Qed.

Lemma zip_with_fmul_comm (a b : list npfloat) :
  zip_with fmul a b = zip_with fmul b a.
Proof.
  revert b. induction a as [|x a IH]; intros [|y b]; simpl; try reflexivity.
  now rewrite fmul_comm, IH.
Qed.

Lemma vdot_comm (a b : list npfloat) : vdot a b = vdot b a.
Proof. unfold vdot. now rewrite zip_with_fmul_comm. Qed.

Lemma finite_list (l : list npfloat) :
  (forall v, In v l -> isfinite v = true) -> exists rs, l = map Fin rs.
Proof.
  induction l as [|v l IH]; intros H; [now exists []|].
  destruct IH as [rs ->]; [intros w Hw; apply H; now right|].
  pose proof (H v (or_introl eq_refl)) as Hv.
  destruct v as [r| | |]; try discriminate. now exists (r :: rs).
Qed.

Lemma map_Fin_inj (a b : list R) : map Fin a = map Fin b -> a = b.
Proof.
  revert b. induction a as [|u a IH]; intros [|v b] H; simpl in H;
    try discriminate; [reflexivity|].
  injection H as -> H. f_equal. now apply IH.
Qed.

Lemma column_real (x : ndarray) (j : nat) :
  real_valued x -> (j < ncols x)%nat ->
  exists rs, column x j = map Fin rs /\ length rs = nrows x.
Proof.
  intros Hx Hj. destruct (finite_list (column x j)) as [rs Hrs].
  - intros v Hv. unfold column in Hv.
    apply in_map_iff in Hv as (s & <- & Hs). apply in_seq in Hs.
    apply Hx; [lia | exact Hj].
  - exists rs. split; [exact Hrs|].
    apply (f_equal (@length _)) in Hrs.
    unfold column in Hrs. now rewrite !length_map, length_seq in Hrs.
Qed.

Lemma Rsum_zip_square_diff (a b : list R) :
  length a = length b ->
  Rsum (zip_with (fun u v => (u - v) * (u - v)) a b) =
  Rsum (zip_with Rmult a a) - 2 * Rsum (zip_with Rmult a b)
  + Rsum (zip_with Rmult b b).
Proof.
  revert b. induction a as [|u a IH]; intros [|v b] H; simpl in *;
    try discriminate; [lra|].
  rewrite IH by lia. ring.
Qed.

Lemma Rsum_zip_square_sum (a b : list R) :
  length a = length b ->
  Rsum (zip_with (fun u v => (u + v) * (u + v)) a b) =
  Rsum (zip_with Rmult a a) + 2 * Rsum (zip_with Rmult a b)
  + Rsum (zip_with Rmult b b).
Proof.
  revert b. induction a as [|u a IH]; intros [|v b] H; simpl in *;
    try discriminate; [lra|].
  rewrite IH by lia. ring.
Qed.

Lemma Rsum_zip_nonneg (f : R -> R -> R) (a b : list R) :
  (forall u v, 0 <= f u v) -> 0 <= Rsum (zip_with f a b).
Proof.
  intros Hf. revert b. induction a as [|u a IH]; intros [|v b]; simpl; try lra.
  pose proof (Hf u v). pose proof (IH b). lra.
Qed.

(** Two vectors whose squares add up to [n] have a dot product within
    [[-n, n]]. *)
Lemma dot_bounded (a b : list R) (n : R) :
  length a = length b ->
  Rsum (zip_with Rmult a a) = n -> Rsum (zip_with Rmult b b) = n ->
  - n <= Rsum (zip_with Rmult a b) <= n.
Proof.
  intros Hl Ha Hb.
  pose proof (Rsum_zip_square_diff a b Hl) as Hd.
  pose proof (Rsum_zip_square_sum a b Hl) as Hs.
  assert (H1 : 0 <= Rsum (zip_with (fun u v => (u - v) * (u - v)) a b)).
  { apply Rsum_zip_nonneg. intros u v. apply Rle_0_sqr. }
  assert (H2 : 0 <= Rsum (zip_with (fun u v => (u + v) * (u + v)) a b)).
  { apply Rsum_zip_nonneg. intros u v. apply Rle_0_sqr. }
  lra.
Qed.

(** The standardized columns behind an entry of the correlation matrix of
    two real-valued matrices without zero-variance columns. *)
Lemma pearson_matrix_entry (x y : ndarray) (i j : nat) :
  real_valued x -> real_valued y ->
  no_zero_variance x -> no_zero_variance y ->
  nrows x = nrows y -> (i < ncols x)%nat -> (j < ncols y)%nat ->
  exists a b : list R,
    length a = nrows x /\ length b = nrows x /\ (0 < nrows x)%nat /\
    Rsum (zip_with Rmult a a) = INR (nrows x) /\
    Rsum (zip_with Rmult b b) = INR (nrows x) /\
    standardize (column x i) = map Fin a /\
    standardize (column y j) = map Fin b /\
    item (pearson_matrix x y) i j =
    Fin (Rsum (zip_with Rmult a b) / INR (nrows x)).
Proof.
  intros Hrx Hry Hvx Hvy Hn Hi Hj.
  destruct (column_real x i Hrx Hi) as (ri & Eci & Hli).
  destruct (column_real y j Hry Hj) as (rj & Ecj & Hlj).
  pose proof (Hvx i Hi) as Hvi. pose proof (Hvy j Hj) as Hvj.
  rewrite Eci in Hvi. rewrite Ecj in Hvj.
  apply nonzero_std_Fin in Hvi as [Hni Hvi].
  apply nonzero_std_Fin in Hvj as [Hnj Hvj].
  exists (map (fun v => (v - Rmean ri) / sqrt (Rvar ri)) ri),
         (map (fun v => (v - Rmean rj) / sqrt (Rvar rj)) rj).
  rewrite !length_map.
  pose proof (Rsum_standardized_squares ri Hni Hvi) as Hsi.
  pose proof (Rsum_standardized_squares rj Hnj Hvj) as Hsj.
  simpl in Hsi, Hsj. rewrite Hli in Hsi. rewrite Hlj, <- Hn in Hsj.
  assert (Hpos : (0 < nrows x)%nat).
  { rewrite <- Hli. destruct ri; [congruence | simpl; lia]. }
  rewrite Eci, Ecj, !standardize_Fin by assumption.
  repeat split; try assumption; try lia.
  rewrite pearson_matrix_item, Eci, Ecj.
  rewrite !standardize_Fin by assumption. rewrite vdot_Fin.
  unfold of_nat. apply fdiv_Fin. apply not_0_INR. lia.
Qed.

(** Such an entry is a number in [[-1, 1]]. *)
Lemma pearson_matrix_entry_bounded (x y : ndarray) (i j : nat) :
  real_valued x -> real_valued y ->
  no_zero_variance x -> no_zero_variance y ->
  nrows x = nrows y -> (i < ncols x)%nat -> (j < ncols y)%nat ->
  exists r, item (pearson_matrix x y) i j = Fin r /\ -1 <= r <= 1.
Proof.
  intros Hrx Hry Hvx Hvy Hn Hi Hj.
  destruct (pearson_matrix_entry x y i j Hrx Hry Hvx Hvy Hn Hi Hj)
    as (a & b & Hla & Hlb & Hpos & Ha & Hb & _ & _ & ->).
  eexists. split; [reflexivity|].
  pose proof (dot_bounded a b _ ltac:(congruence) Ha Hb) as Hd.
  assert (Hnn : 0 < INR (nrows x)) by (apply lt_0_INR; exact Hpos).
  split.
  - apply Rmult_le_reg_r with (INR (nrows x)); [exact Hnn|].
    unfold Rdiv. rewrite Rmult_assoc, Rinv_l by lra. lra.
  - apply Rmult_le_reg_r with (INR (nrows x)); [exact Hnn|].
    unfold Rdiv. rewrite Rmult_assoc, Rinv_l by lra. lra.
Qed.

(** The diagonal of the correlation matrix of a matrix with itself. *)
Lemma pearson_matrix_diagonal (x : ndarray) (i : nat) :
  real_valued x -> no_zero_variance x -> (i < ncols x)%nat ->
  item (pearson_matrix x x) i i = Fin 1.
Proof.
  intros Hr Hv Hi.
  destruct (pearson_matrix_entry x x i i Hr Hr Hv Hv eq_refl Hi Hi)
    as (a & b & _ & _ & Hpos & Ha & _ & Ea & Eb & ->).
  rewrite Ea in Eb. apply map_Fin_inj in Eb. subst b.
  rewrite Ha. f_equal. field. apply not_0_INR. lia.
Qed.

Lemma pearson_matrix_symmetric (x : ndarray) (i j : nat) :
  item (pearson_matrix x x) i j = item (pearson_matrix x x) j i.
Proof. rewrite !pearson_matrix_item. f_equal. apply vdot_comm. Qed.

(** C6.  For a real-valued matrix [X] without a zero-variance column,
    [pearson_correlation(X, X)] is a square matrix over the genes of [X]; it
    is symmetric, its diagonal entries are 1, and all its entries are numbers
    in [[-1, 1]]. *)
Theorem pearson_self_correlation_matrix (x : ndarray) :
  real_valued x -> no_zero_variance x ->
  exists c : ndarray,
    pearson_correlation x x = Ok c /\
    nrows c = ncols x /\ ncols c = ncols x /\
    (forall i j, item c i j = item c j i) /\
    (forall i, (i < ncols x)%nat -> item c i i = Fin 1) /\
    (forall i j, (i < ncols x)%nat -> (j < ncols x)%nat ->
       exists r, item c i j = Fin r /\ -1 <= r <= 1).
Proof.
  intros Hreal Hvar. exists (pearson_matrix x x).
  rewrite pearson_correlation_eq, Nat.eqb_refl.
  split; [reflexivity|]. split; [reflexivity|]. split; [reflexivity|].
  split; [|split].
  - apply pearson_matrix_symmetric.
  - intros i Hi. now apply pearson_matrix_diagonal.
  - intros i j Hi Hj. now apply pearson_matrix_entry_bounded.
Qed.

End CorrelationMatrix.

(** ** A small dataset *)

Section ExampleDataset.
Local Open Scope R_scope.

Lemma example_expr_real : real_valued example_expr.
Proof.
  intros s j Hs Hj. simpl in Hs, Hj.
  destruct s as [|[|s]]; [| |lia]; destruct j as [|[|[|j]]]; try lia; reflexivity.
Qed.

Lemma Rmean_pm (a : R) : Rmean [a; - a] = 0.
Proof. unfold Rmean. simpl. field. Qed.

Lemma Rvar_pm (a : R) : Rvar [a; - a] = a * a.
Proof. unfold Rvar. rewrite Rmean_pm. unfold Rmean. simpl. field. Qed.

Lemma nonzero_std_pm (a : R) : a <> 0 -> nonzero_std [Fin a; Fin (- a)].
Proof.
  intros Ha. apply (nonzero_std_Fin [a; - a]).
  split; [discriminate|]. rewrite Rvar_pm. nra.
Qed.

Lemma example_expr_variance : no_zero_variance example_expr.
Proof.
  intros j Hj. simpl in Hj.
  destruct j as [|[|[|j]]]; [| | |lia]; unfold column; simpl.
  - apply nonzero_std_pm. lra.
  - apply nonzero_std_pm. lra.
  - replace (Fin 1) with (Fin (- -1)) by (f_equal; lra).
    apply nonzero_std_pm. lra.
Qed.

Lemma pearson_self_correlation_matrix_witness :
  exists c : ndarray,
    pearson_correlation example_expr example_expr = Ok c /\
    nrows c = ncols example_expr /\ ncols c = ncols example_expr /\
    (forall i j, item c i j = item c j i) /\
    (forall i, (i < ncols example_expr)%nat -> item c i i = Fin 1) /\
    (forall i j, (i < ncols example_expr)%nat -> (j < ncols example_expr)%nat ->
       exists r, item c i j = Fin r /\ -1 <= r <= 1).
Proof.
  apply (pearson_self_correlation_matrix example_expr).
  - exact example_expr_real.
  - exact example_expr_variance.
Defined.

End ExampleDataset.

(** ** Loops *)

(** A property of the state that every successful pass of the body keeps
    holds after a successful loop. *)
Lemma for_each_invariant {A S : Type} (P : S -> Prop)
    (body : S -> A -> result S) (l : list A) (s s' : S) :
  (forall s a s', P s -> body s a = Ok s' -> P s') ->
  P s -> for_each body l s = Ok s' -> P s'.
Proof.
  intros Hbody. revert s. induction l as [|a l IH]; intros s Hs H; simpl in H.
  - now injection H as <-.
  - destruct (body s a) as [s1|e] eqn:E; [|discriminate].
    simpl in H. eapply IH; [|exact H]. eapply Hbody; eauto.
Qed.

(** ** Replaying a linkage matrix *)

Section Dendrogram.

Lemma set_item_finite (n : nat) (m m' : ndarray) (i j : nat) (d : R) :
  square_finite n m -> set_item m i j (Fin d) = Ok m' -> square_finite n m'.
Proof.
  intros (Hr & Hc & Hf) H. unfold set_item in H.
  destruct (_ && _); [|discriminate]. injection H as <-.
  repeat split; simpl; try assumption.
  intros a b. simpl. destruct (_ && _); [reflexivity | apply Hf].
Qed.

Lemma fill_pairs_finite (n : nat) (xs ys : list nat) (d : R) (m m' : ndarray) :
  square_finite n m -> fill_pairs xs ys (Fin d) m = Ok m' -> square_finite n m'.
Proof.
  intros Hm H. unfold fill_pairs in H.
  eapply (for_each_invariant (square_finite n)); [|exact Hm|exact H].
  clear. intros m x m' Hm H.
  eapply (for_each_invariant (square_finite n)); [|exact Hm|exact H].
  clear. intros m y m' Hm H. cbv beta in H.
  destruct (set_item m x y (Fin d)) as [m1|] eqn:E; [|discriminate].
  simpl in H. eapply set_item_finite; [|exact H]. eapply set_item_finite; eauto.
Qed.

Lemma dendrogram_body_finite (n : nat) (st st' : gmap nat Cluster * ndarray)
    (iz : nat * linkage_row) :
  square_finite n st.2 -> dendrogram_body n st iz = Ok st' ->
  square_finite n st'.2.
Proof.
  destruct st as [cl m], iz as [i z]. simpl. intros Hm H.
  unfold dendrogram_body in H.
  destruct (dict_get cl (c1 z)) as [k1|]; [|discriminate].
  destruct (dict_get cl (c2 z)) as [k2|]; [|discriminate].
  cbn [mbind result_bind] in H.
  destruct (dict_get _ (c1 z)) as [k1'|]; [|discriminate].
  destruct (dict_get _ (c2 z)) as [k2'|]; [|discriminate].
  cbn [mbind result_bind] in H.
  destruct (fill_pairs _ _ _ m) as [m1|] eqn:E; [|discriminate].
  injection H as <-. simpl. eapply fill_pairs_finite; eauto.
Qed.

(** The condensed dendrogram distances are numbers. *)
Lemma dendrogram_distance_real (l_matrix : list linkage_row) (d : list npfloat) :
  dendrogram_distance l_matrix true = Ok d -> exists rs, d = map Fin rs.
Proof.
  unfold dendrogram_distance. intros H.
  destruct (for_each _ _ _) as [[cl m]|] eqn:E; [|discriminate].
  injection H as <-.
  assert (Hm : square_finite (length l_matrix + 1) (cl, m).2).
  { eapply (for_each_invariant
              (fun st => square_finite (length l_matrix + 1) st.2));
      [|  |exact E].
    - intros s a s'. apply dendrogram_body_finite.
    - repeat split. }
  destruct Hm as (_ & _ & Hf). simpl in Hf.
  apply finite_list. intros v Hv.
  rewrite upper_diag_list_filter in Hv. apply List.filter_In in Hv as [Hv _].
  unfold strict_upper in Hv. apply in_concat in Hv as (l & Hl & Hv).
  apply in_map_iff in Hl as (i & <- & _).
  apply in_map_iff in Hv as (j & <- & _). apply Hf.
Qed.

End Dendrogram.

Section Cophenetic.
Local Open Scope R_scope.

(** A real-valued array that is not constant has a usable deviation. *)
Lemma nonconstant_nonzero_std (rs : list R) :
  ~ constant (map Fin rs) -> nonzero_std (map Fin rs).
Proof.
  intros Hnc. apply nonzero_std_Fin.
  assert (Hne : rs <> []).
  { intros ->. apply Hnc. exists NaN. intros v []. }
  split; [exact Hne|].
  destruct (Rvar_nonneg rs) as [Hpos|Hz]; [exact Hpos | exfalso].
  apply Hnc. exists (Fin (Rmean rs)). intros v Hv.
  apply in_map_iff in Hv as (r & <- & Hr). f_equal.
  pose proof (INR_length_pos rs Hne) as Hn.
  assert (Hs : Rsum (map (fun v => (v - Rmean rs) * (v - Rmean rs)) rs) = 0).
  { symmetry in Hz. unfold Rvar, Rmean at 1 in Hz. rewrite length_map in Hz.
    apply (f_equal (fun t => t * INR (length rs))) in Hz.
    unfold Rdiv in Hz. rewrite Rmult_assoc, Rinv_l, Rmult_1_r in Hz by lra.
    lra. }
  assert (Hsq : (r - Rmean rs) * (r - Rmean rs) = 0).
  { apply (Rsum_zero_all _ (fun v Hv => ltac:(
             apply in_map_iff in Hv as (x & <- & _); apply Rle_0_sqr)) Hs).
    apply in_map_iff. now exists r. }
  nra.
Qed.

(** The Pearson coefficient of the dendrogram distances with themselves. *)
Lemma compare_cophenetic_same (l_matrix : list linkage_row)
    (dists : list npfloat) :
  dendrogram_distance l_matrix true = Ok dists ->
  ~ constant dists ->
  compare_cophenetic l_matrix l_matrix = Ok (Fin 1).
Proof.
  intros Hd Hnc. unfold compare_cophenetic. rewrite Hd.
  cbn [mbind result_bind].
  destruct (dendrogram_distance_real _ _ Hd) as [rs ->].
  apply pearson_1d_self. now apply nonconstant_nonzero_std.
Qed.

(** C7.  When the condensed dendrogram distances of [L] are not all one
    value, [compare_cophenetic(L, L)] is 1. *)
Theorem compare_cophenetic_self (l_matrix : list linkage_row)
    (dists : list npfloat) :
  dendrogram_distance l_matrix true = Ok dists ->
  ~ constant dists ->
  compare_cophenetic l_matrix l_matrix = Ok (Fin 1).
Proof. exact (compare_cophenetic_same l_matrix dists). Qed.

End Cophenetic.

Section DendrogramTotal.

Lemma lookup_leaf_clusters_from (a n k : nat) :
  (list_to_map (map (fun i => (i, Leaf i)) (seq a n)) : gmap nat Cluster) !! k =
  if decide (a <= k < a + n)%nat then Some (Leaf k) else None.
Proof.
  revert a. induction n as [|n IH]; intros a; simpl.
  - rewrite lookup_empty. destruct (decide _); [lia | reflexivity].
  - rewrite lookup_insert. destruct (decide (a = k)) as [->|Hne].
    + destruct (decide _); [reflexivity | lia].
    + rewrite IH. repeat destruct (decide _); try reflexivity; lia.
Qed.

Lemma leaf_clusters_upto (n : nat) : clusters_upto n 0 (leaf_clusters n).
Proof.
  unfold leaf_clusters. split.
  - intros k Hk. rewrite lookup_leaf_clusters_from.
    destruct (decide _); [eauto | lia].
  - intros k c. rewrite lookup_leaf_clusters_from.
    destruct (decide _); [|discriminate]. intros [= <-].
    simpl. repeat constructor. lia.
Qed.

Lemma set_item_total (n : nat) (m : ndarray) (i j : nat) (d : R) :
  square_finite n m -> (i < n)%nat -> (j < n)%nat ->
  exists m', set_item m i j (Fin d) = Ok m' /\ square_finite n m'.
Proof.
  intros Hm Hi Hj. pose proof Hm as (Hr & Hc & _). unfold set_item.
  destruct (_ && _) eqn:E.
  - eexists. split; [reflexivity|].
    eapply set_item_finite; [exact Hm|]. unfold set_item. now rewrite E.
  - apply andb_false_iff in E as [E|E]; apply Nat.ltb_ge in E; lia.
Qed.

Lemma for_each_total {A S : Type} (P : S -> Prop) (Q : A -> Prop)
    (body : S -> A -> result S) (l : list A) (s : S) :
  (forall s a, P s -> Q a -> exists s', body s a = Ok s' /\ P s') ->
  P s -> Forall Q l ->
  exists s', for_each body l s = Ok s' /\ P s'.
Proof.
  intros Hbody Hs Hl. revert s Hs.
  induction Hl as [|a l Ha _ IH]; intros s Hs; simpl; [eauto|].
  destruct (Hbody s a Hs Ha) as (s1 & -> & Hs1). simpl. now apply IH.
Qed.

Lemma fill_pairs_total (n : nat) (xs ys : list nat) (d : R) (m : ndarray) :
  square_finite n m ->
  Forall (fun x => (x < n)%nat) xs -> Forall (fun y => (y < n)%nat) ys ->
  exists m', fill_pairs xs ys (Fin d) m = Ok m' /\ square_finite n m'.
Proof.
  intros Hm Hxs Hys. unfold fill_pairs.
  apply (for_each_total (square_finite n) (fun x => (x < n)%nat));
    [|exact Hm|exact Hxs].
  intros m1 x Hm1 Hx.
  apply (for_each_total (square_finite n) (fun y => (y < n)%nat));
    [|exact Hm1|exact Hys].
  intros m2 y Hm2 Hy.
  destruct (set_item_total n m2 x y d Hm2 Hx Hy) as (m3 & -> & Hm3).
  simpl. now apply set_item_total.
Qed.

Lemma dendrogram_body_total (n i : nat) (clusters : gmap nat Cluster)
    (m : ndarray) (z : linkage_row) :
  clusters_upto n i clusters -> square_finite n m ->
  (c1 z < n + i)%nat -> (c2 z < n + i)%nat ->
  exists clusters' m',
    dendrogram_body n (clusters, m) (i, z) = Ok (clusters', m') /\
    clusters_upto n (S i) clusters' /\ square_finite n m'.
Proof.
  intros [Hdom Hidx] Hm H1 H2. unfold dendrogram_body, dict_get.
  destruct (Hdom _ H1) as [k1 E1]. destruct (Hdom _ H2) as [k2 E2].
  rewrite E1, E2. cbn [mbind result_bind].
  rewrite !lookup_insert_ne by lia. rewrite E1, E2. cbn [mbind result_bind].
  destruct (fill_pairs_total n (indices k1) (indices k2) (dist z) m Hm
              (Hidx _ _ E1) (Hidx _ _ E2)) as (m' & -> & Hm').
  cbn [mbind result_bind]. eexists _, m'. split; [reflexivity|].
  split; [split | exact Hm'].
  - intros k Hk. destruct (decide (k = n + i)%nat) as [->|Hne].
    + rewrite lookup_insert_eq. eauto.
    + rewrite lookup_insert_ne by lia. apply Hdom. lia.
  - intros k c. rewrite lookup_insert. destruct (decide _).
    + intros [= <-]. simpl. apply Forall_app. split; eauto.
    + apply Hidx.
Qed.

Lemma dendrogram_loop_total (n : nat) (rows : list linkage_row) :
  forall (i : nat) (clusters : gmap nat Cluster) (m : ndarray),
    clusters_upto n i clusters -> square_finite n m ->
    (forall k z, rows !! k = Some z ->
                 (c1 z < n + i + k)%nat /\ (c2 z < n + i + k)%nat) ->
    exists st',
      for_each (dendrogram_body n) (zip (seq i (length rows)) rows) (clusters, m)
      = Ok st'.
Proof.
  induction rows as [|z rows IH]; intros i clusters m Hcl Hm Hrows.
  - simpl. eauto.
  - cbn [length seq zip_with for_each].
    destruct (Hrows 0%nat z eq_refl) as [H1 H2].
    destruct (dendrogram_body_total n i clusters m z Hcl Hm) as
      (cl' & m' & -> & Hcl' & Hm'); [lia | lia |].
    cbn [mbind result_bind]. apply IH; [exact Hcl' | exact Hm'|].
    intros k z' Hk. destruct (Hrows (S k) z' Hk). lia.
Qed.

(** The replay of a valid linkage matrix raises nothing. *)
Lemma dendrogram_distance_total (l_matrix : list linkage_row) :
  valid_linkage l_matrix ->
  exists dists, dendrogram_distance l_matrix true = Ok dists.
Proof.
  intros Hv. unfold dendrogram_distance, enumerate.
  destruct (dendrogram_loop_total (length l_matrix + 1) l_matrix 0
              (leaf_clusters (length l_matrix + 1))
              (np_zeros (length l_matrix + 1) (length l_matrix + 1)))
    as [[cl m] ->].
  - apply leaf_clusters_upto.
  - repeat split.
  - intros k z Hk. destruct (Hv k z Hk). lia.
  - simpl. eauto.
Qed.

End DendrogramTotal.

(** ** Eligible TFs *)

Section GeneSymbols.

Lemma symbol_in_In (g : string) (gene_symbols : list string) :
  symbol_in g gene_symbols = true <-> In g gene_symbols.
Proof.
  unfold symbol_in. rewrite existsb_exists. split.
  - intros (s & Hs & E). apply String.eqb_eq in E. now subst.
  - intros H. exists g. split; [exact H | apply String.eqb_refl].
Qed.

Lemma np_where_from_absent (k : nat) (gene_symbols : list string) (g : string) :
  ~ In g gene_symbols -> np_where_from k gene_symbols g = [].
Proof.
  revert k. induction gene_symbols as [|s rest IH]; intros k H; [reflexivity|].
  simpl. destruct (String.eqb s g) eqn:E.
  - apply String.eqb_eq in E. subst. exfalso. apply H. now left.
  - apply IH. intros Hin. apply H. now right.
Qed.

Lemma np_where_from_unique (k : nat) (gene_symbols : list string) (g : string) :
  List.NoDup gene_symbols -> In g gene_symbols ->
  exists i, np_where_from k gene_symbols g = [i] /\
            (k <= i < k + length gene_symbols)%nat.
Proof.
  intros Hnd. revert k.
  induction Hnd as [|s rest Hs Hnd IH]; intros k Hin; [destruct Hin|].
  simpl. destruct (String.eqb s g) eqn:E.
  - apply String.eqb_eq in E. subst s.
    rewrite np_where_from_absent by assumption. exists k. split; [reflexivity | lia].
  - destruct Hin as [->|Hin]; [now rewrite String.eqb_refl in E|].
    destruct (IH (S k) Hin) as (i & -> & Hi). exists i. split; [reflexivity | lia].
Qed.

Lemma np_where_unique (gene_symbols : list string) (g : string) :
  List.NoDup gene_symbols -> symbol_in g gene_symbols = true ->
  np_where gene_symbols g = [position gene_symbols g] /\
  (position gene_symbols g < length gene_symbols)%nat.
Proof.
  intros Hnd Hin. apply symbol_in_In in Hin.
  destruct (np_where_from_unique 0 gene_symbols g Hnd Hin) as (i & E & Hi).
  unfold position, np_where. rewrite E. simpl. split; [reflexivity | lia].
Qed.

Lemma np_array_ravel_singletons {A : Type} (f : A -> nat) (l : list A) :
  np_array_ravel (map (fun x => [f x]) l) = Ok (map f l).
Proof.
  destruct l as [|a l]; [reflexivity|]. unfold np_array_ravel. simpl map.
  cbv iota. rewrite (proj2 (forallb_forall _ _)).
  - f_equal. simpl. f_equal. induction l as [|b l IH]; [reflexivity|].
    simpl. now rewrite IH.
  - intros r Hr. apply in_map_iff in Hr as (x & <- & _). reflexivity.
Qed.

(** With unique gene symbols [tg_idxs] holds the column of every present
    target of the TF, once each, in the order of the map. *)
Lemma target_indices_unique (gene_symbols tgs : list string) :
  List.NoDup gene_symbols ->
  target_indices gene_symbols tgs = Ok (target_positions gene_symbols tgs).
Proof.
  intros Hnd. unfold target_indices, target_positions.
  rewrite <- np_array_ravel_singletons. f_equal.
  apply map_ext_in. intros g Hg.
  apply List.filter_In in Hg as [_ Hg].
  now apply np_where_unique.
Qed.

Lemma target_positions_in_range (gene_symbols tgs : list string) :
  List.NoDup gene_symbols ->
  Forall (fun j => (j < length gene_symbols)%nat)
         (target_positions gene_symbols tgs).
Proof.
  intros Hnd. apply Forall_forall. intros j Hj.
  apply list_elem_of_In in Hj.
  apply in_map_iff in Hj as (g & <- & Hg).
  apply List.filter_In in Hg as [_ Hg].
  now apply np_where_unique.
Qed.

Lemma take_columns_in_range (a : ndarray) (idxs : list nat) :
  Forall (fun j => (j < ncols a)%nat) idxs ->
  take_columns a idxs = Ok (columns a idxs).
Proof.
  intros H. unfold take_columns.
  rewrite (proj2 (forallb_forall _ _)); [reflexivity|].
  intros j Hj. apply Nat.ltb_lt. rewrite Forall_forall in H.
  apply H. now apply list_elem_of_In.
Qed.

End GeneSymbols.

(** ** The loops over the regulatory map *)

Section RegulatoryLoops.

Variable expr : ndarray.
Variable gene_symbols : list string.
Hypothesis symbols_unique : List.NoDup gene_symbols.
Hypothesis symbols_match : ncols expr = length gene_symbols.

Lemma eligible_alt (tf : string) (tgs : list string) :
  symbol_in tf gene_symbols
  && (0 <? length (target_positions gene_symbols tgs))%nat
  = eligible gene_symbols (tf, tgs).
Proof. unfold eligible, target_positions. now rewrite length_map. Qed.

Lemma target_columns_ok (a : ndarray) (tgs : list string) :
  ncols a = length gene_symbols ->
  take_columns a (target_positions gene_symbols tgs)
  = Ok (columns a (target_positions gene_symbols tgs)).
Proof.
  intros Ha. apply take_columns_in_range. rewrite Ha.
  now apply target_positions_in_range.
Qed.

Lemma tf_tg_corrs_body_spec (acc : list (list npfloat) * list (list npfloat))
    (entry : string * list string) :
  tf_tg_corrs_body expr gene_symbols acc entry =
  Ok (if eligible gene_symbols entry
      then (acc.1 ++ [tf_tg_vector expr gene_symbols entry],
            acc.2 ++ [tg_tg_list expr gene_symbols entry])
      else acc).
Proof using symbols_unique symbols_match.
  destruct acc as [a1 a2], entry as [tf tgs]. unfold tf_tg_corrs_body.
  rewrite target_indices_unique by assumption. cbn [mbind result_bind].
  rewrite eligible_alt.
  destruct (eligible gene_symbols (tf, tgs)) eqn:E; [|reflexivity].
  rewrite target_columns_ok by assumption. cbn [mbind result_bind].
  unfold correlations_list. rewrite pearson_correlation_eq.
  rewrite Nat.eqb_refl. cbn [mbind result_bind].
  apply andb_true_iff in E as [Etf _]. simpl in Etf.
  destruct (np_where_unique gene_symbols tf symbols_unique Etf) as [Ew Hpos].
  unfold np_argwhere_first. rewrite Ew. cbn [mbind result_bind].
  rewrite take_columns_in_range
    by (repeat constructor; rewrite symbols_match; exact Hpos).
  cbn [mbind result_bind].
  rewrite pearson_correlation_eq. simpl nrows. rewrite Nat.eqb_refl.
  reflexivity.
Qed.

Lemma tf_tg_corrs_loop (tf_tg : regulatory_map) :
  forall acc,
    for_each (tf_tg_corrs_body expr gene_symbols) tf_tg acc =
    Ok (acc.1 ++ map (tf_tg_vector expr gene_symbols)
                     (List.filter (eligible gene_symbols) tf_tg),
        acc.2 ++ map (tg_tg_list expr gene_symbols)
                     (List.filter (eligible gene_symbols) tf_tg)).
Proof using symbols_unique symbols_match.
  induction tf_tg as [|entry rest IH]; intros [a1 a2].
  - simpl. now rewrite !app_nil_r.
  - cbn [for_each]. rewrite tf_tg_corrs_body_spec. cbn [mbind result_bind].
    rewrite IH. simpl List.filter.
    destruct (eligible gene_symbols entry); simpl; [|reflexivity].
    now rewrite <- !app_assoc.
Qed.

Variable mannwhitneyu : list npfloat -> list npfloat -> result npfloat.
Variable multipletests : list npfloat -> result (list bool).

(** statsmodels returns one decision per p-value when there is one at
    least. *)
Hypothesis multipletests_shape :
  forall ps, ps <> [] ->
    exists reject, multipletests ps = Ok reject /\ length reject = length ps.
Hypothesis some_sample : (0 < nrows expr)%nat.

(** scipy returns a p-value for every sample. *)
Hypothesis mannwhitneyu_returns :
  forall x y, exists p, mannwhitneyu x y = Ok p.

(** The loop that collects the p-values of the samples. *)
Lemma p_values_loop (f g : nat -> list npfloat) (samples : list nat) :
  forall acc,
    for_each (fun p_values i =>
                p_value ← mannwhitneyu (f i) (g i);
                Ok (p_values ++ [p_value])) samples acc
    = Ok (acc ++ map (fun i => returned (mannwhitneyu (f i) (g i))) samples).
Proof using mannwhitneyu_returns.
  induction samples as [|i samples IH]; intros acc.
  - simpl. now rewrite app_nil_r.
  - cbn [for_each]. destruct (mannwhitneyu_returns (f i) (g i)) as [p Ep].
    rewrite Ep. cbn [mbind result_bind]. rewrite IH. simpl.
    now rewrite Ep, <- app_assoc.
Qed.

Lemma chip_rates_body_spec (st : list npfloat * list nat)
    (entry : string * list string) :
  chip_rates_body mannwhitneyu multipletests (standardize2 expr)
                  gene_symbols st entry =
  Ok (if eligible gene_symbols entry
      then (st.1 ++ [chip_rate mannwhitneyu multipletests expr gene_symbols entry],
            st.2 ++ [length (present_targets gene_symbols entry.2)])
      else st).
Proof using symbols_unique symbols_match multipletests_shape some_sample
  mannwhitneyu_returns.
  destruct st as [rates weights], entry as [tf tgs]. unfold chip_rates_body.
  rewrite target_indices_unique by assumption. cbn [mbind result_bind].
  rewrite eligible_alt.
  destruct (eligible gene_symbols (tf, tgs)) eqn:E; [|reflexivity].
  rewrite target_columns_ok by assumption. cbn [mbind result_bind].
  rewrite take_columns_in_range.
  2:{ apply Forall_forall. intros j Hj. apply list_elem_of_In in Hj.
      apply List.filter_In in Hj as [Hj _]. apply in_seq in Hj. simpl in *. lia. }
  cbn [mbind result_bind]. unfold chip_rate. simpl nrows. simpl ncols.
  rewrite (p_values_loop
             (row (columns (standardize2 expr)
                     (target_positions gene_symbols tgs)))
             (row (columns (standardize2 expr)
                     (List.filter
                        (fun j => negb (existsb (Nat.eqb j)
                                          (target_positions gene_symbols tgs)))
                        (seq 0 (ncols expr)))))).
  cbn [mbind result_bind app].
  match goal with |- context [multipletests ?ps] =>
    destruct (multipletests_shape ps) as (reject & Er & _) end.
  { destruct (nrows expr); [lia | discriminate]. }
  simpl snd. rewrite Er. cbn [mbind result_bind].
  unfold target_positions. rewrite length_map. reflexivity.
Qed.

Lemma chip_rates_loop (tf_tg : regulatory_map) :
  forall st,
    for_each (chip_rates_body mannwhitneyu multipletests (standardize2 expr)
                              gene_symbols) tf_tg st =
    Ok (st.1 ++ map (chip_rate mannwhitneyu multipletests expr gene_symbols)
                    (List.filter (eligible gene_symbols) tf_tg),
        st.2 ++ map (fun entry => length (present_targets gene_symbols entry.2))
                    (List.filter (eligible gene_symbols) tf_tg)).
Proof using symbols_unique symbols_match multipletests_shape some_sample
  mannwhitneyu_returns.
  induction tf_tg as [|entry rest IH]; intros [rates weights].
  - simpl. now rewrite !app_nil_r.
  - cbn [for_each]. rewrite chip_rates_body_spec. cbn [mbind result_bind].
    rewrite IH. simpl List.filter.
    destruct (eligible gene_symbols entry); simpl; [|reflexivity].
    now rewrite <- !app_assoc.
Qed.

End RegulatoryLoops.

(** ** The regulatory extractor *)

Lemma eligible_iff (gene_symbols : list string) (tf : string)
    (tgs : list string) :
  eligible gene_symbols (tf, tgs) = true <->
  In tf gene_symbols /\ exists tg, In tg tgs /\ In tg gene_symbols.
Proof.
  unfold eligible, present_targets. simpl.
  rewrite andb_true_iff, symbol_in_In, Nat.ltb_lt. split.
  - intros [Htf Hlen]. split; [exact Htf|].
    destruct (List.filter _ tgs) as [|tg rest] eqn:E; [simpl in Hlen; lia|].
    assert (Hin : In tg (List.filter (fun tg => symbol_in tg gene_symbols) tgs))
      by (rewrite E; now left).
    apply List.filter_In in Hin as [H1 H2]. apply symbol_in_In in H2. eauto.
  - intros [Htf (tg & H1 & H2)]. split; [exact Htf|].
    assert (Hin : In tg (List.filter (fun tg => symbol_in tg gene_symbols) tgs)).
    { apply List.filter_In. split; [exact H1 | now apply symbol_in_In]. }
    destruct (List.filter _ tgs); [destruct Hin | simpl; lia].
Qed.

Lemma example_symbols_unique : List.NoDup example_symbols.
Proof.
  unfold example_symbols.
  repeat (constructor; [simpl; intuition discriminate|]). constructor.
Qed.

(** C4.  [compute_tf_tg_corrs] has one entry per eligible TF, in the order of
    the map: the TFs that are gene symbols and have a target among the gene
    symbols.  A TF that is not eligible leaves no entry, so the result is the
    same with or without it. *)
Theorem compute_tf_tg_corrs_eligible (tf_tg_interactions : regulatory_map)
    (expr : ndarray) (gene_symbols : list string) (tf_tg : regulatory_map) :
  List.NoDup gene_symbols ->
  ncols expr = length gene_symbols ->
  let kept := List.filter (eligible gene_symbols) tf_tg in
  compute_tf_tg_corrs tf_tg_interactions expr gene_symbols (Some tf_tg) false
  = Ok (map (tf_tg_vector expr gene_symbols) kept,
        map (tg_tg_list expr gene_symbols) kept) /\
  (forall tf tgs, In (tf, tgs) kept <->
     In (tf, tgs) tf_tg /\ In tf gene_symbols /\
     exists tg, In tg tgs /\ In tg gene_symbols) /\
  (forall before entry after,
     tf_tg = before ++ entry :: after -> eligible gene_symbols entry = false ->
     compute_tf_tg_corrs tf_tg_interactions expr gene_symbols (Some tf_tg) false
     = compute_tf_tg_corrs tf_tg_interactions expr gene_symbols
         (Some (before ++ after)) false).
Proof.
  intros Hnd Hcols kept.
  assert (Hrun : forall l,
    compute_tf_tg_corrs tf_tg_interactions expr gene_symbols (Some l) false
    = Ok (map (tf_tg_vector expr gene_symbols)
              (List.filter (eligible gene_symbols) l),
          map (tg_tg_list expr gene_symbols)
              (List.filter (eligible gene_symbols) l))).
  { intros l. unfold compute_tf_tg_corrs.
    rewrite (tf_tg_corrs_loop expr gene_symbols Hnd Hcols). reflexivity. }
  split; [apply Hrun | split].
  - intros tf tgs. unfold kept. rewrite List.filter_In, eligible_iff. tauto.
  - intros before entry after -> Hne. rewrite !Hrun.
    rewrite !List.filter_app. simpl. now rewrite Hne.
Qed.

Lemma compute_tf_tg_corrs_eligible_witness :
  let kept := List.filter (eligible example_symbols) example_map in
  compute_tf_tg_corrs [] example_expr example_symbols (Some example_map) false
  = Ok (map (tf_tg_vector example_expr example_symbols) kept,
        map (tg_tg_list example_expr example_symbols) kept) /\
  (forall tf tgs, In (tf, tgs) kept <->
     In (tf, tgs) example_map /\ In tf example_symbols /\
     exists tg, In tg tgs /\ In tg example_symbols) /\
  (forall before entry after,
     example_map = before ++ entry :: after ->
     eligible example_symbols entry = false ->
     compute_tf_tg_corrs [] example_expr example_symbols (Some example_map) false
     = compute_tf_tg_corrs [] example_expr example_symbols
         (Some (before ++ after)) false).
Proof.
  apply (compute_tf_tg_corrs_eligible [] example_expr example_symbols example_map).
  - exact example_symbols_unique.
  - reflexivity.
Defined.

(** The map of the example keeps TF1 and drops TF2, whose only target is no
    gene symbol. *)
Example example_map_kept :
  List.filter (eligible example_symbols) example_map
  = [("TF1", ["G1"; "G2"])]%string.
Proof. reflexivity. Qed.

(** ** The activity detector *)

Section ActivityDetector.
Local Open Scope R_scope.

Variable tf_tg_interactions : regulatory_map.
Variable mannwhitneyu : list npfloat -> list npfloat -> result npfloat.
Variable multipletests : list npfloat -> result (list bool).

Lemma np_sum_bool_le (a : list bool) : (np_sum_bool a <= length a)%nat.
Proof. unfold np_sum_bool. apply List.filter_length_le. Qed.

(** With a sample at least, a chip rate is a fraction [k / nb_samples] of the
    samples. *)
Lemma chip_rate_value (expr : ndarray) (gene_symbols : list string)
    (entry : string * list string) :
  (forall ps, ps <> [] ->
     exists reject, multipletests ps = Ok reject /\ length reject = length ps) ->
  (0 < nrows expr)%nat ->
  exists k : nat,
    (k <= nrows expr)%nat /\
    chip_rate mannwhitneyu multipletests expr gene_symbols entry
    = Fin (INR k / INR (nrows expr)) /\
    0 <= INR k / INR (nrows expr) <= 1.
Proof.
  intros Hmt Hn. unfold chip_rate.
  match goal with |- context [multipletests ?ps] =>
    destruct (Hmt ps) as (reject & -> & Hlen) end.
  { destruct (nrows expr); [lia | discriminate]. }
  rewrite length_map, length_seq in Hlen.
  exists (np_sum_bool reject).
  pose proof (np_sum_bool_le reject) as Hle. rewrite Hlen in Hle.
  assert (Hpos : 0 < INR (nrows expr)) by (apply lt_0_INR; exact Hn).
  split; [exact Hle | split].
  - unfold of_nat. apply fdiv_Fin. lra.
  - pose proof (pos_INR (np_sum_bool reject)) as H0.
    apply le_INR in Hle. split.
    + apply Rmult_le_pos; [exact H0 | left; now apply Rinv_0_lt_compat].
    + apply Rmult_le_reg_r with (INR (nrows expr)); [exact Hpos|].
      unfold Rdiv. rewrite Rmult_assoc, Rinv_l by lra. lra.
Qed.

Lemma find_chip_rates_eq (expr : ndarray) (gene_symbols : list string)
    (tf_tg : regulatory_map) :
  List.NoDup gene_symbols -> ncols expr = length gene_symbols ->
  (forall ps, ps <> [] ->
     exists reject, multipletests ps = Ok reject /\ length reject = length ps) ->
  (0 < nrows expr)%nat ->
  (forall x y, exists p, mannwhitneyu x y = Ok p) ->
  find_chip_rates tf_tg_interactions mannwhitneyu multipletests
                  expr gene_symbols (Some tf_tg)
  = Ok (map (chip_rate mannwhitneyu multipletests expr gene_symbols)
            (List.filter (eligible gene_symbols) tf_tg),
        map (fun entry => length (present_targets gene_symbols entry.2))
            (List.filter (eligible gene_symbols) tf_tg)).
Proof.
  intros Hnd Hcols Hmt Hn Hmw. unfold find_chip_rates.
  now rewrite (chip_rates_loop expr gene_symbols Hnd Hcols
                 mannwhitneyu multipletests Hmt Hn Hmw).
Qed.


(** Whatever the expression values, the weights are the same: they are read
    off the gene symbols and the map. *)
Lemma chip_rates_weights_same (gene_symbols : list string) (ex ez : ndarray)
    (tf_tg : regulatory_map) :
  forall rx ry w rx' wx' ry' wy',
    for_each (chip_rates_body mannwhitneyu multipletests ex gene_symbols)
             tf_tg (rx, w) = Ok (rx', wx') ->
    for_each (chip_rates_body mannwhitneyu multipletests ez gene_symbols)
             tf_tg (ry, w) = Ok (ry', wy') ->
    wx' = wy'.
Proof.
  induction tf_tg as [|[tf tgs] rest IH]; intros rx ry w rx' wx' ry' wy' Hx Hz.
  - simpl in Hx, Hz. congruence.
  - cbn [for_each] in Hx, Hz. unfold chip_rates_body in Hx, Hz.
    destruct (target_indices gene_symbols tgs) as [idxs|]; [|discriminate].
    cbn [mbind result_bind] in Hx, Hz.
    destruct (symbol_in tf gene_symbols && (0 <? length idxs)%nat).
    + destruct (take_columns ex idxs); [|discriminate].
      destruct (take_columns ez idxs); [|discriminate].
      cbn [mbind result_bind] in Hx, Hz.
      destruct (take_columns ex _); [|discriminate].
      destruct (take_columns ez _); [|discriminate].
      cbn [mbind result_bind] in Hx, Hz.
      destruct (for_each _ (seq 0 (nrows ex)) []); [|discriminate].
      destruct (for_each _ (seq 0 (nrows ez)) []); [|discriminate].
      cbn [mbind result_bind] in Hx, Hz.
      destruct (multipletests _); [|discriminate].
      destruct (multipletests _); [|discriminate].
      cbn [mbind result_bind] in Hx, Hz. eauto.
    + cbn [mbind result_bind] in Hx, Hz. eauto.
Qed.

Lemma np_all_equal_refl (w : list nat) : np_all_equal w w = Ok true.
Proof.
  unfold np_all_equal. rewrite Nat.eqb_refl. f_equal.
  induction w as [|a w IH]; [reflexivity|].
  simpl. now rewrite Nat.eqb_refl.
Qed.

Lemma np_all_equal_differ (a b : list nat) :
  length a = length b -> a <> b -> np_all_equal a b = Ok false.
Proof.
  intros Hl Hne. unfold np_all_equal. rewrite Hl, Nat.eqb_refl. f_equal.
  apply not_true_is_false. intros H. apply Hne. clear Hne.
  revert b Hl H. induction a as [|x a IH]; intros [|y b] Hl H;
    try discriminate; [reflexivity|].
  simpl in H. apply andb_true_iff in H as [E H]. apply Nat.eqb_eq in E.
  f_equal; [exact E | apply IH; [simpl in Hl; lia | exact H]].
Qed.

(** C8.  [omega_coefficient] asserts that the two weight arrays agree, and
    weight arrays of one length that differ raise [AssertionError].  Both
    arrays are computed from the same gene symbols and the same map and do
    not depend on the expression values: whenever the two calls of
    [find_chip_rates] return, the weights are equal and the assertion
    passes. *)
Theorem omega_weights_assertion :
  (forall rates_x weights_x rates_y weights_y,
      length weights_x = length weights_y -> weights_x <> weights_y ->
      omega_of_rates rates_x weights_x rates_y weights_y = Raise AssertionError) /\
  (forall expr_x expr_z gene_symbols tf_tg rates_x weights_x rates_y weights_y,
      find_chip_rates tf_tg_interactions mannwhitneyu multipletests
                      expr_x gene_symbols tf_tg = Ok (rates_x, weights_x) ->
      find_chip_rates tf_tg_interactions mannwhitneyu multipletests
                      expr_z gene_symbols tf_tg = Ok (rates_y, weights_y) ->
      weights_x = weights_y /\
      (same ← np_all_equal weights_x weights_y; assert_ same) = Ok tt) /\
  (forall expr_x expr_z gene_symbols rates_x weights_x rates_y weights_y,
      find_chip_rates tf_tg_interactions mannwhitneyu multipletests
                      expr_x gene_symbols (Some tf_tg_interactions)
      = Ok (rates_x, weights_x) ->
      find_chip_rates tf_tg_interactions mannwhitneyu multipletests
                      expr_z gene_symbols (Some tf_tg_interactions)
      = Ok (rates_y, weights_y) ->
      omega_coefficient tf_tg_interactions mannwhitneyu multipletests
                        expr_x expr_z gene_symbols
      <> Raise AssertionError).
Proof.
  assert (Hsame : forall expr_x expr_z gene_symbols tf_tg
                         rates_x weights_x rates_y weights_y,
      find_chip_rates tf_tg_interactions mannwhitneyu multipletests
                      expr_x gene_symbols tf_tg = Ok (rates_x, weights_x) ->
      find_chip_rates tf_tg_interactions mannwhitneyu multipletests
                      expr_z gene_symbols tf_tg = Ok (rates_y, weights_y) ->
      weights_x = weights_y).
  { intros ex ez gs tf_tg rx wx ry wy Hx Hz. unfold find_chip_rates in Hx, Hz.
    eapply chip_rates_weights_same; eauto. }
  split; [|split].
  - intros rx wx ry wy Hl Hne. unfold omega_of_rates.
    now rewrite np_all_equal_differ.
  - intros ex ez gs tf_tg rx wx ry wy Hx Hz.
    pose proof (Hsame _ _ _ _ _ _ _ _ Hx Hz) as ->.
    split; [reflexivity|]. now rewrite np_all_equal_refl.
  - intros ex ez gs rx wx ry wy Hx Hz.
    pose proof (Hsame _ _ _ _ _ _ _ _ Hx Hz) as ->.
    unfold omega_coefficient. rewrite Hx, Hz. cbn [mbind result_bind].
    unfold omega_of_rates. rewrite np_all_equal_refl. cbn [mbind result_bind assert_].
    unfold weighted_mean, weighted_var, weighted_covar, np_dot, np_mul_vec.
    repeat (match goal with
            | |- context [if ?b then _ else _] => destruct b
            end; cbn [mbind result_bind]); discriminate.
Qed.

End ActivityDetector.

Lemma example_multipletests_shape (ps : list npfloat) :
  ps <> [] ->
  exists reject, example_multipletests ps = Ok reject /\ length reject = length ps.
Proof.
  intros H. destruct ps as [|p ps]; [congruence|].
  eexists. split; [reflexivity|]. now rewrite length_map.
Qed.



(** ** The dendrogram of the example *)

Lemma example_linkage_valid : valid_linkage example_linkage.
Proof.
  intros i z Hz. destruct i as [|[|i]]; simpl in Hz; [| |discriminate];
    injection Hz as <-; simpl; lia.
Qed.

Lemma example_dendrogram_distance :
  dendrogram_distance example_linkage true
  = Ok [Fin (0 + 0)%R; Fin (2 + 0)%R; Fin (2 + 0)%R].
Proof. reflexivity. Qed.

Lemma example_distances_not_constant (a b c : R) :
  a <> b -> ~ constant [Fin a; Fin b; Fin c].
Proof.
  intros Hab [v Hv].
  pose proof (Hv (Fin a) ltac:(simpl; auto)) as Ea.
  pose proof (Hv (Fin b) ltac:(simpl; auto)) as Eb.
  rewrite <- Eb in Ea. injection Ea as Ea. contradiction.
Qed.

Lemma compare_cophenetic_self_witness :
  compare_cophenetic example_linkage example_linkage = Ok (Fin 1%R).
Proof.
  apply (compare_cophenetic_self example_linkage
           [Fin (0 + 0)%R; Fin (2 + 0)%R; Fin (2 + 0)%R]).
  - exact example_dendrogram_distance.
  - apply example_distances_not_constant. lra.
Defined.

(** ** The TG-TG and TF-TG lists of one TF *)

Section PerTF.
Local Open Scope R_scope.

Variable expr : ndarray.
Variable gene_symbols : list string.
Hypothesis expr_real : real_valued expr.
Hypothesis expr_variance : no_zero_variance expr.
Hypothesis symbols_unique : List.NoDup gene_symbols.
Hypothesis symbols_match : ncols expr = length gene_symbols.

Lemma columns_real (idxs : list nat) :
  Forall (fun j => (j < ncols expr)%nat) idxs -> real_valued (columns expr idxs).
Proof using expr_real.
  intros H s k Hs Hk. simpl in *. apply expr_real; [exact Hs|].
  rewrite Forall_forall in H. apply H. apply list_elem_of_In. now apply nth_In.
Qed.

Lemma columns_variance (idxs : list nat) :
  Forall (fun j => (j < ncols expr)%nat) idxs ->
  no_zero_variance (columns expr idxs).
Proof using expr_variance.
  intros H k Hk. simpl in Hk.
  change (column (columns expr idxs) k) with (column expr (nth k idxs 0%nat)).
  apply expr_variance. rewrite Forall_forall in H. apply H.
  apply list_elem_of_In. now apply nth_In.
Qed.

Lemma target_positions_cols (tgs : list string) :
  Forall (fun j => (j < ncols expr)%nat) (target_positions gene_symbols tgs).
Proof using symbols_unique symbols_match.
  rewrite symbols_match. now apply target_positions_in_range.
Qed.

(** The TG-TG list of a TF with [g] present targets holds [g(g-1)/2]
    numbers. *)
Lemma tg_tg_list_real (entry : string * list string) :
  exists rs : list R,
    tg_tg_list expr gene_symbols entry = map Fin rs /\
    (2 * length rs
     = length (present_targets gene_symbols entry.2)
       * (length (present_targets gene_symbols entry.2) - 1))%nat.
Proof using expr_real expr_variance symbols_unique symbols_match.
  unfold tg_tg_list.
  set (E := columns expr (target_positions gene_symbols entry.2)).
  assert (HE : ncols E = length (present_targets gene_symbols entry.2)).
  { unfold E, target_positions. simpl. now rewrite length_map. }
  assert (HrE : real_valued E) by apply columns_real, target_positions_cols.
  assert (HvE : no_zero_variance E)
    by apply columns_variance, target_positions_cols.
  destruct (upper_diag_list_square (pearson_matrix E E) (ncols E))
    as [Eq Hlen]; [reflexivity | reflexivity | |].
  { intros i j Hij.
    destruct (pearson_matrix_entry_bounded E E i j) as (r & -> & _);
      auto; lia. }
  destruct (finite_list (upper_diag_list (pearson_matrix E E))) as [rs Hrs].
  { intros v Hv. rewrite Eq in Hv. unfold strict_upper in Hv.
    apply in_concat in Hv as (l & Hl & Hv).
    apply in_map_iff in Hl as (i & <- & Hi). apply in_seq in Hi.
    apply in_map_iff in Hv as (j & <- & Hj). apply in_seq in Hj.
    simpl in Hi, Hj.
    destruct (pearson_matrix_entry_bounded E E i j) as (r & -> & _);
      auto; simpl; lia. }
  exists rs. split; [exact Hrs|].
  rewrite Hrs, length_map, HE in Hlen. exact Hlen.
Qed.

(** The TF-TG vector of an eligible TF holds one number per present
    target. *)
Lemma tf_tg_vector_real (entry : string * list string) :
  eligible gene_symbols entry = true ->
  exists rs : list R,
    tf_tg_vector expr gene_symbols entry = map Fin rs /\
    length rs = length (present_targets gene_symbols entry.2).
Proof using expr_real expr_variance symbols_unique symbols_match.
  intros Hel. unfold tf_tg_vector.
  set (E := columns expr (target_positions gene_symbols entry.2)).
  set (T := columns expr [position gene_symbols entry.1]).
  assert (HE : ncols E = length (present_targets gene_symbols entry.2)).
  { unfold E, target_positions. simpl. now rewrite length_map. }
  assert (Htf : Forall (fun j => (j < ncols expr)%nat)
                       [position gene_symbols entry.1]).
  { repeat constructor. rewrite symbols_match.
    apply andb_true_iff in Hel as [Hel _].
    now apply np_where_unique. }
  assert (HrE : real_valued E) by apply columns_real, target_positions_cols.
  assert (HvE : no_zero_variance E)
    by apply columns_variance, target_positions_cols.
  assert (HrT : real_valued T) by now apply columns_real.
  assert (HvT : no_zero_variance T) by now apply columns_variance.
  destruct (finite_list (np_ravel (pearson_matrix T E))) as [rs Hrs].
  { intros v Hv. unfold np_ravel in Hv.
    apply in_concat in Hv as (l & Hl & Hv).
    apply in_map_iff in Hl as (i & <- & Hi). apply in_seq in Hi.
    unfold row in Hv.
    apply in_map_iff in Hv as (j & <- & Hj). apply in_seq in Hj.
    simpl in Hi, Hj.
    destruct (pearson_matrix_entry_bounded T E i j) as (r & -> & _);
      auto; simpl; lia. }
  exists rs. split; [exact Hrs|].
  apply (f_equal (@length _)) in Hrs. rewrite length_map in Hrs.
  rewrite <- Hrs, <- HE. unfold np_ravel. simpl.
  rewrite app_nil_r. unfold row. now rewrite length_map, length_seq.
Qed.

(** One present target: the list is empty. *)
Lemma tg_tg_list_one_target (entry : string * list string) :
  length (present_targets gene_symbols entry.2) = 1%nat ->
  tg_tg_list expr gene_symbols entry = [].
Proof using expr_real expr_variance symbols_unique symbols_match.
  intros H1. destruct (tg_tg_list_real entry) as (rs & -> & Hlen).
  rewrite H1 in Hlen. destruct rs; [reflexivity | simpl in Hlen; lia].
Qed.

(** Two present targets: the list holds their correlation. *)
Lemma tg_tg_list_two_targets (entry : string * list string) :
  length (present_targets gene_symbols entry.2) = 2%nat ->
  exists r : R, tg_tg_list expr gene_symbols entry = [Fin r].
Proof using expr_real expr_variance symbols_unique symbols_match.
  intros H2. destruct (tg_tg_list_real entry) as (rs & -> & Hlen).
  rewrite H2 in Hlen. destruct rs as [|r [|r' rs]]; simpl in Hlen; try lia.
  now exists r.
Qed.

End PerTF.

(** A TF with an empty TG-TG list leaves the state of the loop of
    [phi_coefficient] as it is. *)
Lemma phi_body_empty (weights_type : string) (st : pynum * pynum)
    (cz : list npfloat) :
  phi_body weights_type st ([], cz) = Ok st.
Proof. now destruct st. Qed.

(** A TF with a TG-TG list of one entry enters the sums with weight 1. *)
Lemma phi_body_single (weights_sum total_sum : pynum) (x z : npfloat) :
  exists cs : npfloat,
    phi_body nb_genes_type (weights_sum, total_sum) ([x], [z])
    = Ok (py_add weights_sum (NpFloat (Fin 1%R)),
          py_add total_sum (py_mul (NpFloat (Fin 1%R)) (NpFloat cs))).
Proof.
  unfold phi_body. simpl Nat.ltb. cbv iota.
  rewrite (phi_weight_nb_genes 2 [x]) by (simpl; lia).
  cbn [mbind result_bind]. unfold cosine_similarity, np_dot. simpl length.
  rewrite Nat.eqb_refl. cbn [mbind result_bind].
  replace (INR 2 - 1)%R with 1%R by (simpl; lra). eauto.
Qed.

(** ** TFs with one or two present targets *)

Lemma strict_upper_single (m : ndarray) :
  nrows m = 1%nat -> ncols m = 1%nat -> strict_upper m = [].
Proof. intros Hr Hc. unfold strict_upper. rewrite Hr, Hc. reflexivity. Qed.

Lemma tg_tg_list_single (expr : ndarray) (gene_symbols : list string)
    (entry : string * list string) :
  length (present_targets gene_symbols entry.2) = 1%nat ->
  tg_tg_list expr gene_symbols entry = [].
Proof.
  intros H1. unfold tg_tg_list. rewrite upper_diag_list_filter.
  rewrite strict_upper_single; [reflexivity | |];
    simpl; unfold target_positions; now rewrite length_map.
Qed.

Lemma lookup_map {A B : Type} (f : A -> B) (l : list A) (i : nat) :
  map f l !! i = option_map f (l !! i).
Proof.
  revert i. induction l as [|a l IH]; intros [|i]; simpl; try reflexivity.
  apply IH.
Qed.

(** C3.  A TF with exactly one present target has an empty TG-TG list, and
    the loop of [phi_coefficient] passes over it: the total weight and the
    total sum stay as they were.  A TF with exactly two present targets has a
    TG-TG list of one entry (in a real-valued matrix without zero-variance
    column) and enters both sums, with weight 1 for ['nb_genes']. *)
Theorem single_target_tf_is_skipped (tf_tg_interactions : regulatory_map)
    (expr : ndarray) (gene_symbols : list string) (tf_tg : regulatory_map) :
  List.NoDup gene_symbols ->
  ncols expr = length gene_symbols ->
  let kept := List.filter (eligible gene_symbols) tf_tg in
  exists tf_tg_corr tg_tg_corr : list (list npfloat),
    compute_tf_tg_corrs tf_tg_interactions expr gene_symbols (Some tf_tg) false
    = Ok (tf_tg_corr, tg_tg_corr) /\
    (forall i entry,
        kept !! i = Some entry ->
        length (present_targets gene_symbols entry.2) = 1%nat ->
        tg_tg_corr !! i = Some [] /\
        forall weights_type st cz, phi_body weights_type st ([], cz) = Ok st) /\
    (real_valued expr -> no_zero_variance expr ->
     forall i entry,
        kept !! i = Some entry ->
        length (present_targets gene_symbols entry.2) = 2%nat ->
        exists r : R,
          tg_tg_corr !! i = Some [Fin r] /\
          forall weights_sum total_sum z, exists cs,
            phi_body nb_genes_type (weights_sum, total_sum) ([Fin r], [z])
            = Ok (py_add weights_sum (NpFloat (Fin 1%R)),
                  py_add total_sum (py_mul (NpFloat (Fin 1%R)) (NpFloat cs)))).
Proof.
  intros Hnd Hcols kept. eexists _, _. split; [|split].
  - unfold compute_tf_tg_corrs.
    rewrite (tf_tg_corrs_loop expr gene_symbols Hnd Hcols). reflexivity.
  - intros i entry Hi H1. simpl. fold kept. rewrite lookup_map, Hi. simpl.
    rewrite tg_tg_list_single by assumption.
    split; [reflexivity | intros; apply phi_body_empty].
  - intros Hreal Hvar i entry Hi H2. simpl. fold kept. rewrite lookup_map, Hi.
    destruct (tg_tg_list_two_targets expr gene_symbols Hreal Hvar Hnd Hcols
                entry H2) as [r Er].
    exists r. simpl. rewrite Er. split; [reflexivity|].
    intros. apply phi_body_single.
Qed.

(** A map with both kinds of TF: TF1 has the two present targets G1 and G2,
    and G1 has the one present target G2.  The TG-TG list of G1 is empty and
    the loop passes over it; the TG-TG list of TF1 has one entry and enters
    the sums. *)
Lemma single_target_tf_is_skipped_witness :
  List.filter (eligible example_symbols) example_map2
  = [("TF1", ["G1"; "G2"]); ("G1", ["G2"])]%string /\
  length (present_targets example_symbols ["G2"]%string) = 1%nat /\
  length (present_targets example_symbols ["G1"; "G2"]%string) = 2%nat /\
  exists tf_tg_corr tg_tg_corr : list (list npfloat),
    compute_tf_tg_corrs [] example_expr example_symbols (Some example_map2) false
    = Ok (tf_tg_corr, tg_tg_corr) /\
    (tg_tg_corr !! 1%nat = Some [] /\
     forall weights_type st cz, phi_body weights_type st ([], cz) = Ok st) /\
    (exists r : R,
        tg_tg_corr !! 0%nat = Some [Fin r] /\
        forall weights_sum total_sum z, exists cs,
          phi_body nb_genes_type (weights_sum, total_sum) ([Fin r], [z])
          = Ok (py_add weights_sum (NpFloat (Fin 1%R)),
                py_add total_sum (py_mul (NpFloat (Fin 1%R)) (NpFloat cs)))).
Proof.
  split; [reflexivity|]. split; [reflexivity|]. split; [reflexivity|].
  destruct (single_target_tf_is_skipped [] example_expr example_symbols
              example_map2 example_symbols_unique eq_refl)
    as (tf_tg_corr & tg_tg_corr & E & Hone & Htwo).
  exists tf_tg_corr, tg_tg_corr. split; [exact E|]. split.
  - exact (Hone 1%nat ("G1", ["G2"])%string eq_refl eq_refl).
  - exact (Htwo example_expr_real example_expr_variance
                0%nat ("TF1", ["G1"; "G2"])%string eq_refl eq_refl).
Defined.

(** TF1 of the example has exactly two present targets.  Its TG-TG list is
    not empty, and [phi_coefficient] counts it: after the loop the total
    weight is 1, not 0. *)
Lemma two_target_tf_is_counted :
  length (present_targets example_symbols ["G1"; "G2"]%string) = 2%nat /\
  exists (v : list npfloat) (r : R),
    compute_tf_tg_corrs [] example_expr example_symbols
      (Some [("TF1", ["G1"; "G2"])]%string) false
    = Ok ([v], [[Fin r]]) /\
    [Fin r] <> [] /\
    exists total_sum,
      for_each (phi_body nb_genes_type) (zip [[Fin r]] [[Fin r]])
               (PyInt 0, PyInt 0)
      = Ok (NpFloat (Fin (0 + 1)%R), total_sum) /\
      NpFloat (Fin (0 + 1)%R) <> PyInt 0.
Proof.
  split; [reflexivity|].
  destruct (tg_tg_list_two_targets example_expr example_symbols
              example_expr_real example_expr_variance example_symbols_unique
              eq_refl ("TF1", ["G1"; "G2"])%string eq_refl) as [r Er].
  eexists _, r. split; [|split; [discriminate|]].
  - unfold compute_tf_tg_corrs.
    rewrite (tf_tg_corrs_loop example_expr example_symbols
               example_symbols_unique eq_refl).
    simpl List.filter. simpl map. rewrite Er. reflexivity.
  - cbn [zip_with for_each].
    destruct (phi_body_single (PyInt 0) (PyInt 0) (Fin r) (Fin r)) as [cs ->].
    cbn [mbind result_bind]. eexists. split; [|discriminate].
    simpl. unfold of_Z. simpl. reflexivity.
Qed.

(** ** Weighted aggregation of a dataset with itself *)

Section Aggregation.
Local Open Scope R_scope.

Lemma Rsum_zip_self (rs : list R) :
  Rsum (zip_with Rmult rs rs) = Rsum (map (fun r => r * r) rs).
Proof. induction rs as [|r rs IH]; simpl; [reflexivity | now rewrite IH]. Qed.

Lemma Rsum_squares_zero (rs : list R) :
  Rsum (zip_with Rmult rs rs) = 0 -> forall r, In r rs -> r = 0.
Proof.
  rewrite Rsum_zip_self. intros H r Hr.
  assert (Hsq : r * r = 0).
  { apply (Rsum_zero_all (map (fun r => r * r) rs)); [|exact H|].
    - intros v Hv. apply in_map_iff in Hv as (x & <- & _). apply Rle_0_sqr.
    - apply in_map_iff. now exists r. }
  nra.
Qed.

Lemma Rsum_self_nonneg (rs : list R) : 0 <= Rsum (zip_with Rmult rs rs).
Proof. rewrite Rsum_zip_self. apply (Rsum_squares_nonneg (fun r => r)). Qed.

Lemma np_norm_Fin (rs : list R) :
  np_norm (map Fin rs) = Fin (sqrt (Rsum (zip_with Rmult rs rs))).
Proof.
  unfold np_norm. rewrite map_map. simpl.
  rewrite <- (map_map (fun r => r * r) Fin), np_sum_Fin, Rsum_zip_self.
  apply fsqrt_Fin. rewrite <- Rsum_zip_self. apply Rsum_self_nonneg.
Qed.

(** The cosine similarity of a real-valued vector with itself is 1, or NaN
    when the vector is zero. *)
Lemma cosine_similarity_self (rs : list R) :
  exists c, cosine_similarity (map Fin rs) (map Fin rs) = Ok c /\
            one_or_nan c /\ (has_nonzero rs -> c = Fin 1).
Proof.
  unfold cosine_similarity, np_dot. rewrite Nat.eqb_refl.
  cbn [mbind result_bind]. rewrite vdot_Fin, np_norm_Fin.
  set (S := Rsum (zip_with Rmult rs rs)).
  assert (HS : 0 <= S) by apply Rsum_self_nonneg.
  simpl fmul. rewrite sqrt_sqrt by exact HS.
  destruct (Req_dec_T S 0) as [E0|Hne].
  - rewrite E0, fdiv_0_0. eexists. split; [reflexivity|].
    split; [now right|]. intros (r & Hr & Hnz). exfalso. apply Hnz.
    now apply (Rsum_squares_zero rs E0).
  - rewrite fdiv_Fin by exact Hne. eexists. split; [reflexivity|].
    assert (E : S / S = 1) by (field; exact Hne). rewrite E.
    split; [now left | reflexivity].
Qed.

Lemma to_float_py_add (a b : pynum) (x y : R) :
  to_float a = Fin x -> to_float b = Fin y ->
  to_float (py_add a b) = Fin (x + y).
Proof.
  destruct a as [za|fa], b as [zb|fb]; simpl; unfold of_Z;
    intros Ha Hb; try (injection Ha as <-); try (injection Hb as <-);
    subst; try reflexivity.
  now rewrite plus_IZR.
Qed.

(** One TF entering the sums with the positive weight [x] and a cosine that
    is 1 or NaN. *)
Lemma aggregate_step (exact : bool) (st : pynum * pynum) (weight : pynum)
    (x : R) (cs : npfloat) :
  running exact st -> to_float weight = Fin x -> 0 < x ->
  (cs = Fin 1 \/ (exact = false /\ cs = NaN)) ->
  started exact (py_add st.1 weight,
                 py_add st.2 (py_mul weight (NpFloat cs))).
Proof.
  intros Hst Hw Hx Hcs.
  assert (Hmul : py_mul weight (NpFloat cs) = NpFloat (fmul (Fin x) cs)).
  { destruct weight; unfold py_mul; now rewrite Hw. }
  rewrite Hmul.
  destruct Hst as [->|(w & t & Hwpos & Hws & Hts & Ht)].
  - exists (0 + x), (fadd (Fin 0) (fmul (Fin x) cs)). cbn [fst snd].
    split; [lra|]. split; [now apply to_float_py_add|]. split; [reflexivity|].
    destruct Hcs as [->|[He ->]]; [left | right; now split].
    simpl. f_equal. lra.
  - destruct st as [ws ts]. cbn [fst snd] in *. subst ts.
    exists (w + x), (fadd t (fmul (Fin x) cs)).
    split; [lra|]. split; [now apply to_float_py_add|]. split; [reflexivity|].
    destruct Ht as [->|[He ->]]; [|right; now split].
    destruct Hcs as [->|[He ->]]; [left | right; now split].
    simpl. f_equal. lra.
Qed.

(** The closing division of a loop that some TF has entered. *)
Lemma aggregate_result (exact : bool) (st : pynum * pynum) :
  started exact st ->
  exists v, py_truediv st.2 st.1 = Ok (NpFloat v) /\
            one_or_nan v /\ (exact = true -> v = Fin 1).
Proof.
  intros (w & t & Hw & Hws & Hts & Ht). destruct st as [ws ts].
  cbn [fst snd] in *. subst ts.
  assert (E : py_truediv (NpFloat t) ws = Ok (NpFloat (fdiv t (Fin w)))).
  { destruct ws; unfold py_truediv; now rewrite Hws. }
  rewrite E. eexists. split; [reflexivity|].
  destruct Ht as [->|[He ->]].
  - rewrite fdiv_Fin by lra. replace (w / w) with 1 by (field; lra).
    split; [now left | reflexivity].
  - split; [now right | congruence].
Qed.

End Aggregation.

Section SelfAggregation.
Local Open Scope R_scope.

Lemma cosine_flag (exact : bool) (rs : list R) :
  (exact = true -> has_nonzero rs) ->
  exists cs, cosine_similarity (map Fin rs) (map Fin rs) = Ok cs /\
             (cs = Fin 1 \/ (exact = false /\ cs = NaN)).
Proof.
  intros Hex. destruct (cosine_similarity_self rs) as (cs & E & Hcs & Hone).
  exists cs. split; [exact E|].
  destruct exact; [left; now apply Hone, Hex|].
  destruct Hcs as [->| ->]; [now left | right; now split].
Qed.

Lemma psi_body_self (exact : bool) (st : pynum * pynum)
    (c : list npfloat * list npfloat) :
  running exact st -> psi_pair exact c ->
  exists st', psi_body nb_genes_type st c = Ok st' /\ started exact st'.
Proof.
  intros Hst (Ecz & rs & Ecx & Hne & Hex).
  destruct st as [ws ts], c as [cx cz]. simpl in Ecz, Ecx. subst cz cx.
  unfold psi_body. simpl String.eqb. cbv iota.
  destruct (cosine_flag exact rs Hex) as (cs & -> & Hcs).
  cbn [mbind result_bind]. eexists. split; [reflexivity|].
  apply (aggregate_step exact (ws, ts) _ (INR (length rs)) cs Hst).
  - simpl. unfold of_Z. now rewrite length_map, <- INR_IZR_INZ.
  - now apply INR_length_pos.
  - exact Hcs.
Qed.

Lemma psi_loop_self (exact : bool) (l : list (list npfloat * list npfloat)) :
  Forall (psi_pair exact) l ->
  forall st, running exact st ->
    exists st', for_each (psi_body nb_genes_type) l st = Ok st' /\
                running exact st' /\ (l <> [] -> started exact st').
Proof.
  induction 1 as [|c l Hc _ IH]; intros st Hst.
  - exists st. split; [reflexivity|]. split; [exact Hst | congruence].
  - cbn [for_each].
    destruct (psi_body_self exact st c Hst Hc) as (st1 & -> & Hst1).
    cbn [mbind result_bind].
    destruct (IH st1 (or_intror Hst1)) as (st' & E & Hrun & Hstart).
    exists st'. split; [exact E|]. split; [exact Hrun|]. intros _.
    destruct l; [|apply Hstart; discriminate].
    simpl in E. injection E as <-. exact Hst1.
Qed.

Lemma phi_body_self (exact : bool) (st : pynum * pynum)
    (c : list npfloat * list npfloat) :
  running exact st -> phi_pair exact c ->
  exists st', phi_body nb_genes_type st c = Ok st' /\
              (c.1 = [] -> st' = st) /\ (c.1 <> [] -> started exact st').
Proof.
  intros Hst (Ecz & rs & g & Ecx & Hg & Hex).
  destruct st as [ws ts], c as [cx cz]. simpl in Ecz, Ecx. subst cz cx.
  destruct rs as [|r rs].
  - exists (ws, ts). simpl. repeat split; congruence.
  - unfold phi_body. simpl Nat.ltb. cbv iota.
    assert (Hg2 : (2 <= g)%nat).
    { destruct g as [|[|g]]; simpl in Hg; lia. }
    rewrite (phi_weight_nb_genes g (map Fin (r :: rs)))
      by (rewrite ?length_map; first [lia | exact Hg]).
    cbn [mbind result_bind].
    destruct (cosine_flag exact (r :: rs)) as (cs & -> & Hcs).
    { intros He. destruct (Hex He) as [|H]; [discriminate | exact H]. }
    cbn [mbind result_bind]. eexists. split; [reflexivity|].
    split; [discriminate | intros _].
    apply (aggregate_step exact (ws, ts) _ (INR g - 1) cs Hst);
      [reflexivity | | exact Hcs].
    apply (le_INR 2) in Hg2. simpl in Hg2. lra.
Qed.

Lemma phi_loop_self (exact : bool) (l : list (list npfloat * list npfloat)) :
  Forall (phi_pair exact) l ->
  forall st, running exact st ->
    exists st', for_each (phi_body nb_genes_type) l st = Ok st' /\
                running exact st' /\
                (started exact st \/ Exists (fun c => c.1 <> []) l ->
                 started exact st').
Proof.
  induction 1 as [|c l Hc _ IH]; intros st Hst.
  - exists st. split; [reflexivity|]. split; [exact Hst|].
    intros [H|H]; [exact H | inversion H].
  - cbn [for_each].
    destruct (phi_body_self exact st c Hst Hc) as (st1 & -> & Hsame & Hnew).
    cbn [mbind result_bind].
    assert (Hrun1 : running exact st1).
    { destruct (c.1) as [|x cx];
        [rewrite Hsame by reflexivity; exact Hst
        | right; apply Hnew; discriminate]. }
    destruct (IH st1 Hrun1) as (st' & E & Hrun & Hstart).
    exists st'. split; [exact E|]. split; [exact Hrun|].
    intros Hor. apply Hstart.
    destruct (c.1) as [|x cx] eqn:Ec.
    + rewrite Hsame by reflexivity.
      destruct Hor as [H|H]; [now left|].
      inversion H as [? ? Hh|? ? Ht]; subst; [congruence | now right].
    + left. apply Hnew. discriminate.
Qed.

End SelfAggregation.

(** ** The omega coefficient of a dataset with itself *)

Section SelfOmega.
Local Open Scope R_scope.

Context {A : Type}.
Variable fw : A -> nat.
Variable fr : A -> R.

Lemma weighted_dot_map (g : A -> R) (l : list A) :
  np_dot (map of_nat (map fw l)) (map (fun a => Fin (g a)) l)
  = Ok (Fin (Rsum (map (fun a => INR (fw a) * g a) l))).
Proof.
  unfold np_dot. rewrite !length_map, Nat.eqb_refl. f_equal.
  unfold vdot. rewrite <- np_sum_Fin. f_equal.
  induction l as [|a l IH]; [reflexivity|]. simpl. now rewrite IH.
Qed.

Lemma INR_sum_list (l : list A) :
  INR (sum_list (map fw l)) = Rsum (map (fun a => INR (fw a)) l).
Proof.
  induction l as [|a l IH]; [reflexivity|]. simpl sum_list. simpl map.
  simpl Rsum. now rewrite plus_INR, IH.
Qed.

Lemma total_weight_pos (l : list A) :
  l <> [] -> (forall a, In a l -> (0 < fw a)%nat) ->
  0 < Rsum (map (fun a => INR (fw a)) l).
Proof.
  intros Hne Hpos. destruct l as [|a l]; [congruence|]. simpl.
  assert (0 < INR (fw a)) by (apply lt_0_INR, Hpos; now left).
  assert (0 <= Rsum (map (fun a => INR (fw a)) l)).
  { apply Rsum_nonneg. intros v Hv. apply in_map_iff in Hv as (x & <- & _).
    apply pos_INR. }
  lra.
Qed.

Lemma weighted_squares_nonneg (mu : R) (l : list A) :
  0 <= Rsum (map (fun a => INR (fw a) * ((fr a + - mu) * (fr a + - mu))) l).
Proof.
  apply Rsum_nonneg. intros v Hv. apply in_map_iff in Hv as (x & <- & _).
  apply Rmult_le_pos; [apply pos_INR | apply Rle_0_sqr].
Qed.

Lemma weighted_squares_zero (mu : R) (l : list A) :
  (forall a, In a l -> (0 < fw a)%nat) ->
  Rsum (map (fun a => INR (fw a) * ((fr a + - mu) * (fr a + - mu))) l) = 0 ->
  forall a, In a l -> fr a = mu.
Proof.
  intros Hpos Hs a Ha.
  assert (Hz : INR (fw a) * ((fr a + - mu) * (fr a + - mu)) = 0).
  { apply (Rsum_zero_all _ (fun v Hv => ltac:(
        apply in_map_iff in Hv as (x & <- & _);
        apply Rmult_le_pos; [apply pos_INR | apply Rle_0_sqr])) Hs).
    apply in_map_iff. now exists a. }
  assert (Hw : 0 < INR (fw a)) by (apply lt_0_INR, Hpos, Ha).
  apply Rmult_integral in Hz as [Hz|Hz]; [lra|].
  apply Rmult_integral in Hz. lra.
Qed.

Lemma weighted_mean_map (l : list A) :
  0 < total_weight fw l ->
  weighted_mean (map (fun a => Fin (fr a)) l) (map fw l)
  = Ok (Fin (Rsum (map (fun a => INR (fw a) * fr a) l) / total_weight fw l)).
Proof.
  intros HW. unfold weighted_mean. rewrite weighted_dot_map.
  cbn [mbind result_bind]. unfold of_nat. rewrite INR_sum_list.
  fold (total_weight fw l). rewrite fdiv_Fin by lra. reflexivity.
Qed.

Lemma weighted_var_map (mu : R) (l : list A) :
  0 < total_weight fw l ->
  weighted_var (map (fun a => Fin (fr a)) l) (map fw l) (Fin mu)
  = Ok (Fin (weighted_squares fw fr mu l / total_weight fw l)).
Proof.
  intros HW. unfold weighted_var.
  rewrite (map_map (fun a => Fin (fr a))). cbn [fsub fneg fadd fmul].
  rewrite (weighted_dot_map (fun a => (fr a + - mu) * (fr a + - mu))).
  cbn [mbind result_bind]. unfold of_nat. rewrite INR_sum_list.
  fold (total_weight fw l). rewrite fdiv_Fin by lra. reflexivity.
Qed.

Lemma weighted_covar_map (mu : R) (l : list A) :
  0 < total_weight fw l ->
  weighted_covar (map (fun a => Fin (fr a)) l) (map (fun a => Fin (fr a)) l)
                 (map fw l) (Fin mu) (Fin mu)
  = Ok (Fin (weighted_squares fw fr mu l / total_weight fw l)).
Proof.
  intros HW. unfold weighted_covar, np_mul_vec.
  rewrite !length_map, Nat.eqb_refl.
  cbn [mbind result_bind]. rewrite !map_map. cbn [fsub fneg fadd].
  assert (Ezip : zip_with fmul (map (fun x => of_nat (fw x)) l)
                              (map (fun x => Fin (fr x + - mu)) l)
                 = map (fun a => Fin (INR (fw a) * (fr a + - mu))) l).
  { clear. induction l as [|a l IH]; [reflexivity|]. simpl. now rewrite IH. }
  rewrite Ezip. unfold np_dot. rewrite !length_map, Nat.eqb_refl.
  cbn [mbind result_bind].
  assert (Edot : vdot (map (fun a => Fin (INR (fw a) * (fr a + - mu))) l)
                      (map (fun x => Fin (fr x + - mu)) l)
                 = Fin (weighted_squares fw fr mu l)).
  { unfold vdot, weighted_squares. rewrite <- np_sum_Fin. f_equal. clear.
    induction l as [|a l IH]; [reflexivity|]. simpl. rewrite IH.
    do 2 f_equal. ring. }
  rewrite Edot. unfold of_nat. rewrite INR_sum_list.
  fold (total_weight fw l). rewrite fdiv_Fin by lra. reflexivity.
Qed.

(** The weighted Pearson correlation of the chip rates with themselves is 1,
    or NaN when their weighted variance is zero. *)
Lemma omega_of_rates_self (l : list A) :
  l <> [] -> (forall a, In a l -> (0 < fw a)%nat) ->
  let rates := map (fun a => Fin (fr a)) l in
  let weights := map fw l in
  exists v, omega_of_rates rates weights rates weights = Ok v /\
            one_or_nan v /\ (~ constant rates -> v = Fin 1).
Proof.
  intros Hne Hpos rates weights. subst rates weights.
  pose proof (total_weight_pos l Hne Hpos) as HW. fold (total_weight fw l) in HW.
  unfold omega_of_rates. rewrite np_all_equal_refl.
  cbn [mbind result_bind assert_].
  rewrite weighted_mean_map by exact HW. cbn [mbind result_bind].
  set (mu := Rsum (map (fun a => INR (fw a) * fr a) l) / total_weight fw l).
  rewrite weighted_var_map by exact HW. cbn [mbind result_bind].
  rewrite weighted_covar_map by exact HW. cbn [mbind result_bind].
  set (V := weighted_squares fw fr mu l / total_weight fw l).
  assert (HS2 : 0 <= weighted_squares fw fr mu l) by apply weighted_squares_nonneg.
  assert (HV : 0 <= V).
  { unfold V. apply Rmult_le_pos; [exact HS2|].
    left. now apply Rinv_0_lt_compat. }
  simpl fmul. rewrite fsqrt_Fin by nra. rewrite sqrt_square by exact HV.
  destruct (Req_dec_T V 0) as [E0|Hnz].
  - rewrite E0, fdiv_0_0. eexists. split; [reflexivity|].
    split; [now right|]. intros Hnc. exfalso. apply Hnc.
    exists (Fin mu). intros v Hv. apply in_map_iff in Hv as (a & <- & Ha).
    f_equal. apply (weighted_squares_zero mu l Hpos); [|exact Ha].
    fold (weighted_squares fw fr mu l). unfold V in E0.
    apply (f_equal (fun t => t * total_weight fw l)) in E0.
    unfold Rdiv in E0. rewrite Rmult_assoc, Rinv_l, Rmult_1_r in E0 by lra.
    lra.
  - rewrite fdiv_Fin by exact Hnz. eexists. split; [reflexivity|].
    replace (V / V) with 1 by (field; exact Hnz).
    split; [now left | reflexivity].
Qed.

End SelfOmega.

(** ** The gene distances of a dataset *)

Section Distances.
Local Open Scope R_scope.

(** The condensed correlations of a real-valued matrix without zero-variance
    column: one number per pair of genes. *)
Lemma upper_diag_pearson_real (x : ndarray) :
  real_valued x -> no_zero_variance x ->
  exists rs : list R,
    upper_diag_list (pearson_matrix x x) = map Fin rs /\
    upper_diag_list (pearson_matrix x x) = strict_upper (pearson_matrix x x) /\
    (2 * length rs = ncols x * (ncols x - 1))%nat.
Proof.
  intros Hr Hv.
  destruct (upper_diag_list_square (pearson_matrix x x) (ncols x))
    as [Eq Hlen]; [reflexivity | reflexivity | |].
  { intros i j Hij.
    destruct (pearson_matrix_entry_bounded x x i j) as (r & -> & _);
      auto; lia. }
  destruct (finite_list (upper_diag_list (pearson_matrix x x))) as [rs Hrs].
  { intros v Hv'. rewrite Eq in Hv'. unfold strict_upper in Hv'.
    apply in_concat in Hv' as (l & Hl & Hv').
    apply in_map_iff in Hl as (i & <- & Hi). apply in_seq in Hi.
    apply in_map_iff in Hv' as (j & <- & Hj). apply in_seq in Hj.
    simpl in Hi, Hj.
    destruct (pearson_matrix_entry_bounded x x i j) as (r & -> & _);
      auto; simpl; lia. }
  exists rs. split; [exact Hrs | split; [exact Eq|]].
  now rewrite Hrs, length_map in Hlen.
Qed.

Lemma distance_vector_real (x : ndarray) :
  real_valued x -> no_zero_variance x ->
  exists ds : list R, distance_vector x = map Fin ds.
Proof.
  intros Hr Hv. destruct (upper_diag_pearson_real x Hr Hv) as (rs & E & _).
  exists (map (fun r => 1 + - r) rs). unfold distance_vector.
  rewrite E, !map_map. reflexivity.
Qed.

Lemma correlations_list_self (x : ndarray) :
  correlations_list x x pearson_correlation
  = Ok (upper_diag_list (pearson_matrix x x)).
Proof.
  unfold correlations_list. now rewrite pearson_correlation_eq, Nat.eqb_refl.
Qed.

(** A column of zero-variance-free data has an entry: there is a sample. *)
Lemma some_sample_of_variance (x : ndarray) :
  no_zero_variance x -> (0 < ncols x)%nat -> (0 < nrows x)%nat.
Proof.
  intros Hv Hc. specialize (Hv 0%nat Hc). unfold nonzero_std, column in Hv.
  destruct (nrows x); [|lia]. simpl in Hv. now rewrite np_std_nil in Hv.
Qed.

End Distances.

(** ** The scores of a dataset against itself *)

Section SelfScores.
Local Open Scope R_scope.

Lemma zip_map_diag {A B : Type} (f : A -> B) (l : list A) :
  zip (map f l) (map f l) = map (fun a => (f a, f a)) l.
Proof. induction l as [|a l IH]; [reflexivity|]. simpl. now rewrite IH. Qed.

Lemma Forall_map_diag {A B : Type} (P : B * B -> Prop) (f : A -> B)
    (l : list A) :
  (forall a, In a l -> P (f a, f a)) ->
  Forall P (map (fun a => (f a, f a)) l).
Proof.
  intros H. apply Forall_forall. intros c Hc. apply list_elem_of_In in Hc.
  apply in_map_iff in Hc as (a & <- & Ha). now apply H.
Qed.

Lemma psi_coefficient_self {A : Type} (exact : bool)
    (f : A -> list npfloat) (l : list A) :
  l <> [] -> (forall a, In a l -> psi_pair exact (f a, f a)) ->
  exists v, psi_coefficient (map f l) (map f l) nb_genes_type = Ok (NpFloat v) /\
            one_or_nan v /\ (exact = true -> v = Fin 1).
Proof.
  intros Hne Hl. unfold psi_coefficient. rewrite zip_map_diag.
  destruct (psi_loop_self exact _ (Forall_map_diag _ f l Hl)
              (PyInt 0, PyInt 0) (or_introl eq_refl))
    as ([ws ts] & -> & _ & Hst).
  cbn [mbind result_bind].
  apply (aggregate_result exact (ws, ts)). apply Hst.
  destruct l; [congruence | discriminate].
Qed.

Lemma phi_coefficient_self {A : Type} (exact : bool)
    (f : A -> list npfloat) (l : list A) :
  (exists a, In a l /\ f a <> []) ->
  (forall a, In a l -> phi_pair exact (f a, f a)) ->
  exists v, phi_coefficient (map f l) (map f l) nb_genes_type = Ok (NpFloat v) /\
            one_or_nan v /\ (exact = true -> v = Fin 1).
Proof.
  intros (a & Ha & Hfa) Hl. unfold phi_coefficient. rewrite zip_map_diag.
  destruct (phi_loop_self exact _ (Forall_map_diag _ f l Hl)
              (PyInt 0, PyInt 0) (or_introl eq_refl))
    as ([ws ts] & -> & _ & Hst).
  cbn [mbind result_bind].
  apply (aggregate_result exact (ws, ts)). apply Hst. right.
  apply Exists_exists. exists (f a, f a). split; [|exact Hfa].
  apply list_elem_of_In, in_map_iff. now exists a.
Qed.

(** The squared difference of a coefficient with itself. *)
Lemma squared_difference_self (c : npfloat) :
  let d := fsub c c in
  (fmul d d = Fin 0 \/ fmul d d = NaN) /\
  (isfinite c = true -> fmul d d = Fin 0).
Proof.
  destruct c as [r| | |]; simpl; try (split; [now right | discriminate]).
  assert (E : (r + - r) * (r + - r) = 0) by ring. rewrite E.
  split; [now left | reflexivity].
Qed.

(** A real-valued array with an entry other than zero. *)
Lemma nonzero_vector_Fin (rs : list R) :
  nonzero_vector (map Fin rs) -> has_nonzero rs.
Proof.
  intros (x & Hx & Hnz). apply in_map_iff in Hx as (r & <- & Hr).
  exists r. split; [exact Hr | congruence].
Qed.

Variable tf_tg_interactions : regulatory_map.
Variable linkage_complete : list npfloat -> result (list linkage_row).
Variable cophenet : list linkage_row -> list npfloat -> npfloat.
Variable mannwhitneyu : list npfloat -> list npfloat -> result npfloat.
Variable multipletests : list npfloat -> result (list bool).

Variable expr : ndarray.
Variable gene_symbols : list string.
Hypothesis expr_real : real_valued expr.
Hypothesis expr_variance : no_zero_variance expr.
Hypothesis symbols_unique : List.NoDup gene_symbols.
Hypothesis symbols_match : ncols expr = length gene_symbols.

Lemma gamma_coefficients_self (l_matrix : list linkage_row)
    (tree_dists : list npfloat) :
  ~ constant (distance_vector expr) ->
  linkage_complete (distance_vector expr) = Ok l_matrix ->
  dendrogram_distance l_matrix true = Ok tree_dists ->
  ~ constant tree_dists ->
  gamma_coefficients linkage_complete cophenet expr expr
  = Ok (Fin 1, cophenet l_matrix (distance_vector expr),
        cophenet l_matrix (distance_vector expr), Fin 1).
Proof using expr_real expr_variance.
  intros Hnc Hlink Hdend Hnct. unfold gamma_coefficients, hierarchical_clustering.
  rewrite !correlations_list_self. cbn [mbind result_bind].
  fold (distance_vector expr).
  destruct (distance_vector_real expr expr_real expr_variance) as [ds Eds].
  rewrite Eds in Hnc.
  rewrite Eds at 1 2. rewrite (pearson_1d_self ds)
    by now apply nonconstant_nonzero_std.
  cbn [mbind result_bind]. rewrite Hlink. cbn [mbind result_bind].
  rewrite (compare_cophenetic_same l_matrix tree_dists Hdend Hnct).
  reflexivity.
Qed.

Lemma compute_tf_tg_corrs_self :
  compute_tf_tg_corrs tf_tg_interactions expr gene_symbols None false
  = Ok (map (tf_tg_vector expr gene_symbols)
            (List.filter (eligible gene_symbols) tf_tg_interactions),
        map (tg_tg_list expr gene_symbols)
            (List.filter (eligible gene_symbols) tf_tg_interactions)).
Proof using symbols_unique symbols_match.
  unfold compute_tf_tg_corrs.
  now rewrite (tf_tg_corrs_loop expr gene_symbols symbols_unique symbols_match).
Qed.

Lemma psi_pair_kept (exact : bool) (entry : string * list string) :
  eligible gene_symbols entry = true ->
  (exact = true -> nonzero_vector (tf_tg_vector expr gene_symbols entry)) ->
  psi_pair exact (tf_tg_vector expr gene_symbols entry,
                  tf_tg_vector expr gene_symbols entry).
Proof using expr_real expr_variance symbols_unique symbols_match.
  intros Hel Hex. split; [reflexivity|].
  destruct (tf_tg_vector_real expr gene_symbols expr_real expr_variance
              symbols_unique symbols_match entry Hel) as (rs & E & Hlen).
  exists rs. simpl. split; [exact E|]. split.
  - intros ->. simpl in Hlen. apply andb_true_iff in Hel as [_ Hel].
    apply Nat.ltb_lt in Hel. lia.
  - intros He. apply nonzero_vector_Fin. rewrite <- E. now apply Hex.
Qed.

Lemma phi_pair_kept (exact : bool) (entry : string * list string) :
  (exact = true -> tg_tg_list expr gene_symbols entry = [] \/
                   nonzero_vector (tg_tg_list expr gene_symbols entry)) ->
  phi_pair exact (tg_tg_list expr gene_symbols entry,
                  tg_tg_list expr gene_symbols entry).
Proof using expr_real expr_variance symbols_unique symbols_match.
  intros Hex. split; [reflexivity|].
  destruct (tg_tg_list_real expr gene_symbols expr_real expr_variance
              symbols_unique symbols_match entry) as (rs & E & Hlen).
  exists rs, (length (present_targets gene_symbols entry.2)). simpl.
  split; [exact E|]. split; [exact Hlen|].
  intros He. destruct (Hex He) as [H|H].
  - left. rewrite E in H. now destruct rs.
  - right. apply nonzero_vector_Fin. now rewrite <- E.
Qed.

Lemma tg_tg_list_nonempty (entry : string * list string) :
  (2 <= length (present_targets gene_symbols entry.2))%nat ->
  tg_tg_list expr gene_symbols entry <> [].
Proof using expr_real expr_variance symbols_unique symbols_match.
  intros H2.
  destruct (tg_tg_list_real expr gene_symbols expr_real expr_variance
              symbols_unique symbols_match entry) as (rs & -> & Hlen).
  destruct rs; [simpl in Hlen; nia | discriminate].
Qed.

End SelfScores.

Section SelfOmegaScore.
Local Open Scope R_scope.

Variable tf_tg_interactions : regulatory_map.
Variable mannwhitneyu : list npfloat -> list npfloat -> result npfloat.
Variable multipletests : list npfloat -> result (list bool).
Variable expr : ndarray.
Variable gene_symbols : list string.

Lemma eligible_weight_pos (entry : string * list string) :
  eligible gene_symbols entry = true ->
  (0 < length (present_targets gene_symbols entry.2))%nat.
Proof.
  intros H. apply andb_true_iff in H as [_ H]. now apply Nat.ltb_lt in H.
Qed.

Lemma eligible_symbols_nonempty (entry : string * list string) :
  eligible gene_symbols entry = true -> (0 < length gene_symbols)%nat.
Proof.
  intros H. apply andb_true_iff in H as [H _]. apply symbol_in_In in H.
  destruct gene_symbols; [destruct H | simpl; lia].
Qed.

Lemma omega_coefficient_self :
  no_zero_variance expr ->
  List.NoDup gene_symbols -> ncols expr = length gene_symbols ->
  (forall ps, ps <> [] ->
     exists reject, multipletests ps = Ok reject /\ length reject = length ps) ->
  (forall x y, exists p, mannwhitneyu x y = Ok p) ->
  let kept := List.filter (eligible gene_symbols) tf_tg_interactions in
  kept <> [] ->
  exists v,
    omega_coefficient tf_tg_interactions mannwhitneyu multipletests
                      expr expr gene_symbols = Ok v /\
    one_or_nan v /\
    (~ constant (map (chip_rate mannwhitneyu multipletests expr gene_symbols)
                     kept) -> v = Fin 1).
Proof.
  intros Hvar Hnd Hcols Hmt Hmw kept Hne.
  assert (Hn : (0 < nrows expr)%nat).
  { apply some_sample_of_variance; [exact Hvar|]. rewrite Hcols.
    destruct kept as [|e k] eqn:Ek; [congruence|].
    assert (He : In e (List.filter (eligible gene_symbols) tf_tg_interactions))
      by (fold kept; rewrite Ek; now left).
    apply List.filter_In in He as [_ He].
    now apply (eligible_symbols_nonempty e). }
  unfold omega_coefficient.
  rewrite (find_chip_rates_eq tf_tg_interactions mannwhitneyu multipletests
             expr gene_symbols tf_tg_interactions Hnd Hcols Hmt Hn Hmw).
  fold kept. cbn [mbind result_bind].
  assert (Erates :
    map (chip_rate mannwhitneyu multipletests expr gene_symbols) kept
    = map (fun e => Fin (real_part
             (chip_rate mannwhitneyu multipletests expr gene_symbols e))) kept).
  { apply map_ext. intros e.
    destruct (chip_rate_value mannwhitneyu multipletests expr gene_symbols e
                Hmt Hn) as (k & _ & -> & _). reflexivity. }
  rewrite Erates.
  apply (omega_of_rates_self
           (fun e => length (present_targets gene_symbols e.2))
           (fun e => real_part
              (chip_rate mannwhitneyu multipletests expr gene_symbols e))
           kept Hne).
  intros e He. apply List.filter_In in He as [_ He].
  now apply eligible_weight_pos.
Qed.

End SelfOmegaScore.

(** The scores of a dataset against itself, entry by entry. *)
Lemma compute_scores_same
    (tf_tg_interactions : regulatory_map)
    (linkage_complete : list npfloat -> result (list linkage_row))
    (cophenet : list linkage_row -> list npfloat -> npfloat)
    (mannwhitneyu : list npfloat -> list npfloat -> result npfloat)
    (multipletests : list npfloat -> result (list bool))
    (expr : ndarray) (gene_symbols : list string)
    (l_matrix : list linkage_row) (tree_dists : list npfloat) :
  real_valued expr -> no_zero_variance expr ->
  List.NoDup gene_symbols -> ncols expr = length gene_symbols ->
  ~ constant (distance_vector expr) ->
  linkage_complete (distance_vector expr) = Ok l_matrix ->
  dendrogram_distance l_matrix true = Ok tree_dists ->
  ~ constant tree_dists ->
  (forall ps, ps <> [] ->
     exists reject, multipletests ps = Ok reject /\ length reject = length ps) ->
  (forall x y, exists p, mannwhitneyu x y = Ok p) ->
  let kept := List.filter (eligible gene_symbols) tf_tg_interactions in
  (exists entry, In entry kept /\
                 (2 <= length (present_targets gene_symbols entry.2))%nat) ->
  exists s_sdcc s_tftg s_tgtg s_tfac : npfloat,
    compute_scores tf_tg_interactions linkage_complete cophenet mannwhitneyu
                   multipletests expr expr gene_symbols
    = Ok [Fin 1%R; Fin 1%R; s_sdcc; s_tftg; s_tgtg; s_tfac] /\
    (s_sdcc = Fin 0%R \/ s_sdcc = NaN) /\
    one_or_nan s_tftg /\ one_or_nan s_tgtg /\ one_or_nan s_tfac /\
    (isfinite (cophenet l_matrix (distance_vector expr)) = true ->
     s_sdcc = Fin 0%R) /\
    ((forall entry, In entry kept ->
        nonzero_vector (tf_tg_vector expr gene_symbols entry)) ->
     s_tftg = Fin 1%R) /\
    ((forall entry, In entry kept ->
        tg_tg_list expr gene_symbols entry = [] \/
        nonzero_vector (tg_tg_list expr gene_symbols entry)) ->
     s_tgtg = Fin 1%R) /\
    (~ constant (map (chip_rate mannwhitneyu multipletests expr gene_symbols)
                     kept) ->
     s_tfac = Fin 1%R).
Proof.
  intros Hreal Hvar Hnd Hcols Hnc Hlink Hdend Hnct Hmt Hmw kept (e2 & He2 & H2).
  assert (Hne : kept <> []) by (intros E; rewrite E in He2; destruct He2).
  assert (Hel : forall entry, In entry kept ->
                              eligible gene_symbols entry = true).
  { intros entry H. now apply List.filter_In in H as [_ H]. }
  (* psi *)
  destruct (psi_coefficient_self false (tf_tg_vector expr gene_symbols) kept Hne)
    as (psi & Epsi & Hpsi & _).
  { intros a Ha. apply psi_pair_kept; auto. discriminate. }
  (* phi *)
  assert (Hex2 : exists a, In a kept /\ tg_tg_list expr gene_symbols a <> []).
  { exists e2. split; [exact He2|]. now apply tg_tg_list_nonempty. }
  destruct (phi_coefficient_self false (tg_tg_list expr gene_symbols) kept Hex2)
    as (phi & Ephi & Hphi & _).
  { intros a Ha. apply phi_pair_kept; auto. discriminate. }
  (* omega *)
  destruct (omega_coefficient_self tf_tg_interactions mannwhitneyu
              multipletests expr gene_symbols Hvar Hnd Hcols Hmt Hmw Hne)
    as (omega & Eomega & Homega & Hexact).
  fold kept in Hexact.
  destruct (squared_difference_self (cophenet l_matrix (distance_vector expr)))
    as [Hs Hs0].
  eexists _, psi, phi, omega. split.
  - unfold compute_scores.
    rewrite (gamma_coefficients_self linkage_complete cophenet expr
               Hreal Hvar l_matrix tree_dists Hnc Hlink Hdend Hnct).
    cbn [mbind result_bind].
    rewrite (compute_tf_tg_corrs_self tf_tg_interactions expr gene_symbols
               Hnd Hcols).
    cbn [mbind result_bind]. fold kept. rewrite Epsi. cbn [mbind result_bind].
    rewrite Ephi. cbn [mbind result_bind]. rewrite Eomega.
    cbn [mbind result_bind]. reflexivity.
  - split; [exact Hs|]. split; [exact Hpsi|]. split; [exact Hphi|].
    split; [exact Homega|]. split; [exact Hs0|]. split; [|split].
    + intros Hall.
      destruct (psi_coefficient_self true (tf_tg_vector expr gene_symbols)
                  kept Hne) as (v & Ev & _ & Hv).
      { intros a Ha. apply psi_pair_kept; auto. }
      rewrite Epsi in Ev. injection Ev as ->. now apply Hv.
    + intros Hall.
      destruct (phi_coefficient_self true (tg_tg_list expr gene_symbols)
                  kept Hex2) as (v & Ev & _ & Hv).
      { intros a Ha. apply phi_pair_kept; auto. }
      rewrite Ephi in Ev. injection Ev as ->. now apply Hv.
    + exact Hexact.
Qed.

(** C1.  For a real-valued matrix [X] without zero-variance column whose gene
    distances and dendrogram distances are not constant, a map in which some
    eligible TF has two present targets at least, and library calls that
    return, [compute_scores(X, X, symbols)] returns six values: the first two
    are 1,
    the third is 0 or NaN, the last three are 1 or NaN.  The third is 0 when
    the cophenetic coefficient is a number; psi is 1 when no TF-TG vector is
    zero, phi when no TG-TG list is zero, omega when the chip rates are not
    all one value. *)
Theorem compute_scores_self
    (tf_tg_interactions : regulatory_map)
    (linkage_complete : list npfloat -> result (list linkage_row))
    (cophenet : list linkage_row -> list npfloat -> npfloat)
    (mannwhitneyu : list npfloat -> list npfloat -> result npfloat)
    (multipletests : list npfloat -> result (list bool))
    (expr : ndarray) (gene_symbols : list string)
    (l_matrix : list linkage_row) (tree_dists : list npfloat) :
  real_valued expr -> no_zero_variance expr ->
  List.NoDup gene_symbols -> ncols expr = length gene_symbols ->
  ~ constant (distance_vector expr) ->
  linkage_complete (distance_vector expr) = Ok l_matrix ->
  dendrogram_distance l_matrix true = Ok tree_dists ->
  ~ constant tree_dists ->
  (forall ps, ps <> [] ->
     exists reject, multipletests ps = Ok reject /\ length reject = length ps) ->
  (forall x y, exists p, mannwhitneyu x y = Ok p) ->
  let kept := List.filter (eligible gene_symbols) tf_tg_interactions in
  (exists entry, In entry kept /\
                 (2 <= length (present_targets gene_symbols entry.2))%nat) ->
  exists s_sdcc s_tftg s_tgtg s_tfac : npfloat,
    compute_scores tf_tg_interactions linkage_complete cophenet mannwhitneyu
                   multipletests expr expr gene_symbols
    = Ok [Fin 1%R; Fin 1%R; s_sdcc; s_tftg; s_tgtg; s_tfac] /\
    (s_sdcc = Fin 0%R \/ s_sdcc = NaN) /\
    one_or_nan s_tftg /\ one_or_nan s_tgtg /\ one_or_nan s_tfac /\
    (isfinite (cophenet l_matrix (distance_vector expr)) = true ->
     s_sdcc = Fin 0%R) /\
    ((forall entry, In entry kept ->
        nonzero_vector (tf_tg_vector expr gene_symbols entry)) ->
     s_tftg = Fin 1%R) /\
    ((forall entry, In entry kept ->
        tg_tg_list expr gene_symbols entry = [] \/
        nonzero_vector (tg_tg_list expr gene_symbols entry)) ->
     s_tgtg = Fin 1%R) /\
    (~ constant (map (chip_rate mannwhitneyu multipletests expr gene_symbols)
                     kept) ->
     s_tfac = Fin 1%R).
Proof.
  exact (compute_scores_same tf_tg_interactions linkage_complete cophenet
           mannwhitneyu multipletests expr gene_symbols l_matrix tree_dists).
Qed.

(** ** The scores of the example *)

Section ExampleScores.
Local Open Scope R_scope.

Lemma Rmean_up : Rmean [1; -1] = 0.
Proof. unfold Rmean. simpl. field. Qed.

Lemma Rvar_up : Rvar [1; -1] = 1.
Proof. unfold Rvar. rewrite Rmean_up. unfold Rmean. simpl. field. Qed.

Lemma standardize_up : standardize [Fin 1; Fin (-1)] = [Fin 1; Fin (-1)].
Proof.
  change [Fin 1; Fin (-1)] with (map Fin [1; -1]) at 1.
  rewrite standardize_Fin; [|discriminate|rewrite Rvar_up; lra].
  rewrite Rmean_up, Rvar_up, sqrt_1. simpl.
  repeat f_equal; field.
Qed.

Lemma Rmean_mp : Rmean [-1; 1] = 0.
Proof. unfold Rmean. simpl. field. Qed.

Lemma Rvar_mp : Rvar [-1; 1] = 1.
Proof. unfold Rvar. rewrite Rmean_mp. unfold Rmean. simpl. field. Qed.

Lemma standardize_down : standardize [Fin (-1); Fin 1] = [Fin (-1); Fin 1].
Proof.
  change [Fin (-1); Fin 1] with (map Fin [-1; 1]) at 1.
  rewrite standardize_Fin; [|discriminate|rewrite Rvar_mp; lra].
  rewrite Rmean_mp, Rvar_mp, sqrt_1. simpl.
  repeat f_equal; field.
Qed.

Lemma example_columns :
  column example_expr 0 = [Fin 1; Fin (-1)] /\
  column example_expr 1 = [Fin 1; Fin (-1)] /\
  column example_expr 2 = [Fin (-1); Fin 1].
Proof. repeat split. Qed.

(** The three correlations of the example: the TF with its two targets, and
    the targets with each other. *)
Lemma example_correlations :
  upper_diag_list (pearson_matrix example_expr example_expr)
  = [Fin 1; Fin (-1); Fin (-1)].
Proof.
  destruct (upper_diag_pearson_real example_expr example_expr_real
              example_expr_variance) as (_ & _ & -> & _).
  unfold strict_upper. simpl nrows. simpl ncols. simpl seq. simpl map.
  change (row (np_transpose (standardize2 example_expr)) 0)
    with (column (standardize2 example_expr) 0).
  change (row (np_transpose (standardize2 example_expr)) 1)
    with (column (standardize2 example_expr) 1).
  rewrite !column_standardize2.
  destruct example_columns as (-> & -> & ->).
  rewrite standardize_up, standardize_down.
  unfold vdot, of_nat. simpl zip_with. simpl np_sum. simpl nrows. simpl concat.
  rewrite (Rzero_neq (1 + 1)) by lra.
  repeat f_equal; field.
Qed.

Lemma example_distances :
  distance_vector example_expr
  = [Fin (1 + - 1); Fin (1 + - -1); Fin (1 + - -1)].
Proof. unfold distance_vector. now rewrite example_correlations. Qed.

Lemma example_distances_vary : ~ constant (distance_vector example_expr).
Proof.
  rewrite example_distances. apply example_distances_not_constant. lra.
Qed.

Lemma compute_scores_self_witness :
  let kept := List.filter (eligible example_symbols) example_map in
  exists s_sdcc s_tftg s_tgtg s_tfac : npfloat,
    compute_scores example_map example_linkage_complete example_cophenet
                   example_mannwhitneyu example_multipletests
                   example_expr example_expr example_symbols
    = Ok [Fin 1; Fin 1; s_sdcc; s_tftg; s_tgtg; s_tfac] /\
    (s_sdcc = Fin 0 \/ s_sdcc = NaN) /\
    one_or_nan s_tftg /\ one_or_nan s_tgtg /\ one_or_nan s_tfac /\
    (isfinite (example_cophenet example_linkage (distance_vector example_expr))
     = true -> s_sdcc = Fin 0) /\
    ((forall entry, In entry kept ->
        nonzero_vector (tf_tg_vector example_expr example_symbols entry)) ->
     s_tftg = Fin 1) /\
    ((forall entry, In entry kept ->
        tg_tg_list example_expr example_symbols entry = [] \/
        nonzero_vector (tg_tg_list example_expr example_symbols entry)) ->
     s_tgtg = Fin 1) /\
    (~ constant (map (chip_rate example_mannwhitneyu example_multipletests
                                example_expr example_symbols) kept) ->
     s_tfac = Fin 1).
Proof.
  apply (compute_scores_self example_map example_linkage_complete
           example_cophenet example_mannwhitneyu example_multipletests
           example_expr example_symbols example_linkage
           [Fin (0 + 0); Fin (2 + 0); Fin (2 + 0)]).
  - exact example_expr_real.
  - exact example_expr_variance.
  - exact example_symbols_unique.
  - reflexivity.
  - exact example_distances_vary.
  - reflexivity.
  - exact example_dendrogram_distance.
  - apply example_distances_not_constant. lra.
  - exact example_multipletests_shape.
  - intros x y. now exists (Fin 1).
  - exists ("TF1", ["G1"; "G2"])%string. split; [now left | simpl; lia].
Defined.

(** With a map that has no eligible TF for these symbols the call returns no
    vector: if the gamma coefficients are computed at all, [psi_coefficient]
    divides by a zero total weight. *)
Lemma compute_scores_without_eligible_tf :
  real_valued example_expr /\ no_zero_variance example_expr /\
  ~ constant (distance_vector example_expr) /\
  List.filter (eligible example_symbols) foreign_map = [] /\
  forall linkage_complete cophenet mannwhitneyu multipletests,
    (exists e,
        gamma_coefficients linkage_complete cophenet example_expr example_expr
        = Raise e /\
        compute_scores foreign_map linkage_complete cophenet mannwhitneyu
                       multipletests example_expr example_expr example_symbols
        = Raise e) \/
    compute_scores foreign_map linkage_complete cophenet mannwhitneyu
                   multipletests example_expr example_expr example_symbols
    = Raise ZeroDivisionError.
Proof.
  split; [exact example_expr_real|]. split; [exact example_expr_variance|].
  split; [exact example_distances_vary|]. split; [reflexivity|].
  intros lk co mw mt. unfold compute_scores.
  destruct (gamma_coefficients lk co example_expr example_expr)
    as [[[[g1 g2] g3] g4]|e]; [right | left; eauto].
  cbn [mbind result_bind].
  rewrite (compute_tf_tg_corrs_self foreign_map example_expr example_symbols
             example_symbols_unique eq_refl).
  reflexivity.
Qed.

End ExampleScores.

(** ** A second map for the example *)

Section ExampleScores2.
Local Open Scope R_scope.

Lemma example_multipletests2_shape (ps : list npfloat) :
  ps <> [] ->
  exists reject, example_multipletests2 ps = Ok reject /\ length reject = length ps.
Proof.
  intros H. destruct ps as [|p ps]; [congruence|].
  eexists. split; [reflexivity|]. now rewrite length_map.
Qed.

Lemma example_entry (u v : list npfloat) (a b c d : R) :
  standardize u = [Fin a; Fin b] -> standardize v = [Fin c; Fin d] ->
  fdiv (vdot (standardize u) (standardize v)) (of_nat 2)
  = Fin ((a * c + (b * d + 0)) / (1 + 1)).
Proof.
  intros -> ->. unfold vdot, of_nat. simpl.
  now rewrite (Rzero_neq (1 + 1)) by lra.
Qed.

Lemma np_ravel_row (m : ndarray) :
  nrows m = 1%nat -> np_ravel m = row m 0.
Proof. intros H. unfold np_ravel. rewrite H. simpl. apply app_nil_r. Qed.

Lemma example_tf_tg_TF1 :
  tf_tg_vector example_expr example_symbols ("TF1", ["G1"; "G2"])%string
  = [Fin 1; Fin (-1)].
Proof.
  unfold tf_tg_vector. rewrite np_ravel_row by reflexivity.
  unfold row. simpl ncols. simpl seq. cbn [map].
  rewrite !pearson_matrix_item.
  change (column (columns example_expr
            [position example_symbols ("TF1", ["G1"; "G2"])%string.1]) 0)
    with [Fin 1; Fin (-1)].
  change (column (columns example_expr
            (target_positions example_symbols
               ("TF1", ["G1"; "G2"])%string.2)) 0)
    with [Fin 1; Fin (-1)].
  change (column (columns example_expr
            (target_positions example_symbols
               ("TF1", ["G1"; "G2"])%string.2)) 1)
    with [Fin (-1); Fin 1].
  simpl nrows.
  rewrite (example_entry _ _ _ _ _ _ standardize_up standardize_up).
  rewrite (example_entry _ _ _ _ _ _ standardize_up standardize_down).
  repeat f_equal; field.
Qed.

Lemma example_tf_tg_G1 :
  tf_tg_vector example_expr example_symbols ("G1", ["G2"])%string
  = [Fin (-1)].
Proof.
  unfold tf_tg_vector. rewrite np_ravel_row by reflexivity.
  unfold row. simpl ncols. simpl seq. cbn [map].
  rewrite !pearson_matrix_item.
  change (column (columns example_expr
            [position example_symbols ("G1", ["G2"])%string.1]) 0)
    with [Fin 1; Fin (-1)].
  change (column (columns example_expr
            (target_positions example_symbols ("G1", ["G2"])%string.2)) 0)
    with [Fin (-1); Fin 1].
  simpl nrows.
  rewrite (example_entry _ _ _ _ _ _ standardize_up standardize_down).
  repeat f_equal; field.
Qed.

Lemma strict_upper_pair (m : ndarray) :
  nrows m = 2%nat -> ncols m = 2%nat -> strict_upper m = [item m 0 1].
Proof. intros Hr Hc. unfold strict_upper. now rewrite Hr, Hc. Qed.

Lemma example_tg_tg_TF1 :
  tg_tg_list example_expr example_symbols ("TF1", ["G1"; "G2"])%string
  = [Fin (-1)].
Proof.
  unfold tg_tg_list.
  destruct (upper_diag_pearson_real
              (columns example_expr
                 (target_positions example_symbols
                    ("TF1", ["G1"; "G2"])%string.2)))
    as (_ & _ & -> & _).
  - apply columns_real; [exact example_expr_real|].
    repeat constructor; simpl; lia.
  - apply columns_variance; [exact example_expr_variance|].
    repeat constructor; simpl; lia.
  - rewrite strict_upper_pair by reflexivity.
    rewrite !pearson_matrix_item.
    change (column (columns example_expr
              (target_positions example_symbols
                 ("TF1", ["G1"; "G2"])%string.2)) 0)
      with [Fin 1; Fin (-1)].
    change (column (columns example_expr
              (target_positions example_symbols
                 ("TF1", ["G1"; "G2"])%string.2)) 1)
      with [Fin (-1); Fin 1].
    simpl nrows.
    rewrite (example_entry _ _ _ _ _ _ standardize_up standardize_down).
    repeat f_equal; field.
Qed.

Lemma nonzero_vector_head (r : R) (v : list npfloat) :
  r <> 0 -> nonzero_vector (Fin r :: v).
Proof. intros H. exists (Fin r). split; [now left | congruence]. Qed.

Lemma example_rate_TF1 :
  chip_rate example_mannwhitneyu2 example_multipletests2
            example_expr example_symbols ("TF1", ["G1"; "G2"])%string
  = Fin (INR 2 / INR 2).
Proof.
  unfold chip_rate. simpl nrows. simpl seq. cbn [map].
  unfold example_mannwhitneyu2, row. rewrite !length_map, !length_seq.
  simpl. rewrite Rzero_0. simpl. unfold np_sum_bool. simpl.
  rewrite (Rzero_neq (1 + 1)) by lra. reflexivity.
Qed.

Lemma example_rate_G1 :
  chip_rate example_mannwhitneyu2 example_multipletests2
            example_expr example_symbols ("G1", ["G2"])%string
  = Fin (INR 0 / INR 2).
Proof.
  unfold chip_rate. simpl nrows. simpl seq. cbn [map].
  unfold example_mannwhitneyu2, row. rewrite !length_map, !length_seq.
  simpl. rewrite (Rzero_neq 1) by lra. simpl. unfold np_sum_bool. simpl.
  rewrite (Rzero_neq (1 + 1)) by lra. reflexivity.
Qed.

(** With the second map and these stand-ins every score of the example
    against itself is the exact one. *)
Example compute_scores_example :
  compute_scores example_map2 example_linkage_complete example_cophenet
                 example_mannwhitneyu2 example_multipletests2
                 example_expr example_expr example_symbols
  = Ok [Fin 1; Fin 1; Fin 0; Fin 1; Fin 1; Fin 1].
Proof.
  destruct (compute_scores_same example_map2 example_linkage_complete
              example_cophenet example_mannwhitneyu2 example_multipletests2
              example_expr example_symbols example_linkage
              [Fin (0 + 0); Fin (2 + 0); Fin (2 + 0)])
    as (s1 & s2 & s3 & s4 & E & _ & _ & _ & _ & H1 & H2 & H3 & H4).
  - exact example_expr_real.
  - exact example_expr_variance.
  - exact example_symbols_unique.
  - reflexivity.
  - exact example_distances_vary.
  - reflexivity.
  - exact example_dendrogram_distance.
  - apply example_distances_not_constant. lra.
  - exact example_multipletests2_shape.
  - intros x y. unfold example_mannwhitneyu2. eauto.
  - exists ("TF1", ["G1"; "G2"])%string. split; [now left | simpl; lia].
  - rewrite E. rewrite H1, H2, H3, H4; try reflexivity.
    + simpl List.filter. cbn [map].
      rewrite example_rate_TF1, example_rate_G1.
      intros [c Hc].
      pose proof (Hc _ (or_introl eq_refl)) as Ea.
      pose proof (Hc _ (or_intror (or_introl eq_refl))) as Eb.
      rewrite <- Eb in Ea. injection Ea as Ea. simpl in Ea. lra.
    + intros entry [<-|[<-|[]]].
      * right. rewrite example_tg_tg_TF1. apply nonzero_vector_head. lra.
      * left. now apply tg_tg_list_single.
    + intros entry [<-|[<-|[]]].
      * rewrite example_tf_tg_TF1. apply nonzero_vector_head. lra.
      * rewrite example_tf_tg_G1. apply nonzero_vector_head. lra.
Qed.

End ExampleScores2.

(** * Further properties of the scoring engine *)

(** ** The correlation of two matrices *)

Section CorrelationEdges.
Local Open Scope R_scope.

Lemma Rvar_zero_constant (rs : list R) :
  rs <> [] -> Rvar rs = 0 -> forall r, In r rs -> r = Rmean rs.
Proof.
  intros Hne Hz r Hr.
  pose proof (INR_length_pos rs Hne) as Hn.
  assert (Hs : Rsum (map (fun v => (v - Rmean rs) * (v - Rmean rs)) rs) = 0).
  { unfold Rvar, Rmean at 1 in Hz. rewrite length_map in Hz.
    apply (f_equal (fun t => t * INR (length rs))) in Hz.
    unfold Rdiv in Hz. rewrite Rmult_assoc, Rinv_l, Rmult_1_r in Hz by lra.
    lra. }
  assert (Hsq : (r - Rmean rs) * (r - Rmean rs) = 0).
  { apply (Rsum_zero_all _ (fun v Hv => ltac:(
             apply in_map_iff in Hv as (x & <- & _); apply Rle_0_sqr)) Hs).
    apply in_map_iff. now exists r. }
  nra.
Qed.

(** A real-valued array whose deviation is exactly zero is standardized to
    NaN in every entry: each one is [0 / 0]. *)
Lemma standardize_zero_std (rs : list R) :
  np_std (map Fin rs) = Fin 0 ->
  rs <> [] /\ standardize (map Fin rs) = map (fun _ => NaN) rs.
Proof.
  intros Hstd.
  assert (Hne : rs <> []).
  { intros ->. simpl in Hstd. rewrite np_std_nil in Hstd. discriminate. }
  split; [exact Hne|].
  assert (Hz : Rvar rs = 0).
  { rewrite np_std_Fin in Hstd by exact Hne. injection Hstd as Hs.
    apply sqrt_eq_0 in Hs; [exact Hs | apply Rvar_nonneg]. }
  unfold standardize. rewrite Hstd, np_mean_Fin by exact Hne.
  rewrite map_map. apply map_ext_in. intros r Hr.
  rewrite (Rvar_zero_constant rs Hne Hz r Hr). simpl.
  replace (Rmean rs + - Rmean rs) with 0 by ring.
  now rewrite Rzero_0.
Qed.

Lemma fmul_nan_r (x : npfloat) : fmul x NaN = NaN.
Proof. now destruct x. Qed.

Lemma fadd_nan_r (x : npfloat) : fadd x NaN = NaN.
Proof. now destruct x. Qed.

Lemma np_sum_has_nan (l : list npfloat) : In NaN l -> np_sum l = NaN.
Proof.
  induction l as [|a l IH]; intros H; [destruct H|].
  unfold np_sum in *. simpl. destruct H as [->|H]; [reflexivity|].
  rewrite IH by exact H. apply fadd_nan_r.
Qed.

Lemma vdot_nan_r {A : Type} (u : list npfloat) (l : list A) :
  length u = length l -> l <> [] -> vdot u (map (fun _ => NaN) l) = NaN.
Proof.
  intros Hlen Hne. unfold vdot. apply np_sum_has_nan.
  destruct u as [|a u], l as [|b l]; simpl in *; try congruence.
  left. apply fmul_nan_r.
Qed.

(** X3.  For two real-valued matrices over the same samples, without
    zero-variance column, every entry of [pearson_correlation(x, y)] is a
    number in [[-1, 1]], and [pearson_correlation(y, x)] is its transpose. *)
Theorem pearson_cross_correlation (x y : ndarray) :
  real_valued x -> real_valued y ->
  no_zero_variance x -> no_zero_variance y ->
  nrows x = nrows y ->
  exists c c' : ndarray,
    pearson_correlation x y = Ok c /\ pearson_correlation y x = Ok c' /\
    nrows c = ncols x /\ ncols c = ncols y /\
    (forall i j, (i < ncols x)%nat -> (j < ncols y)%nat ->
       exists r, item c i j = Fin r /\ -1 <= r <= 1) /\
    (forall i j, item c' j i = item c i j).
Proof.
  intros Hrx Hry Hvx Hvy Hn.
  exists (pearson_matrix x y), (pearson_matrix y x).
  rewrite !pearson_correlation_eq, Hn, Nat.eqb_refl.
  repeat split.
  - intros i j Hi Hj. now apply pearson_matrix_entry_bounded.
  - intros i j. rewrite !pearson_matrix_item, Hn. f_equal. apply vdot_comm.
Qed.

Lemma pearson_cross_correlation_witness :
  exists c c' : ndarray,
    pearson_correlation example_expr example_expr = Ok c /\
    pearson_correlation example_expr example_expr = Ok c' /\
    nrows c = ncols example_expr /\ ncols c = ncols example_expr /\
    (forall i j, (i < ncols example_expr)%nat -> (j < ncols example_expr)%nat ->
       exists r, item c i j = Fin r /\ -1 <= r <= 1) /\
    (forall i j, item c' j i = item c i j).
Proof.
  apply (pearson_cross_correlation example_expr example_expr).
  - exact example_expr_real.
  - exact example_expr_real.
  - exact example_expr_variance.
  - exact example_expr_variance.
  - reflexivity.
Defined.

End CorrelationEdges.

(** ** Cosine similarity: range, symmetry and degenerate inputs *)

Section CosineRange.
Local Open Scope R_scope.

Lemma Rsum_zip_square_comb (s t : R) (a b : list R) :
  length a = length b ->
  Rsum (zip_with (fun u v => (s * u - t * v) * (s * u - t * v)) a b) =
  s * s * Rsum (zip_with Rmult a a) - 2 * s * t * Rsum (zip_with Rmult a b)
  + t * t * Rsum (zip_with Rmult b b).
Proof.
  revert b. induction a as [|u a IH]; intros [|v b] H; simpl in *;
    try discriminate; [lra|].
  rewrite IH by lia. ring.
Qed.

(** The Cauchy-Schwarz inequality, in the form the cosine needs. *)
Lemma dot_over_norms_bounded (a b : list R) :
  length a = length b ->
  0 < Rsum (zip_with Rmult a a) -> 0 < Rsum (zip_with Rmult b b) ->
  -1 <= Rsum (zip_with Rmult a b)
        / (sqrt (Rsum (zip_with Rmult a a)) * sqrt (Rsum (zip_with Rmult b b)))
     <= 1.
Proof.
  intros Hl Ha Hb.
  set (Saa := Rsum (zip_with Rmult a a)) in *.
  set (Sbb := Rsum (zip_with Rmult b b)) in *.
  set (Sab := Rsum (zip_with Rmult a b)).
  pose proof (sqrt_lt_R0 _ Ha) as Hsa. pose proof (sqrt_lt_R0 _ Hb) as Hsb.
  pose proof (sqrt_sqrt Saa (Rlt_le _ _ Ha)) as Eaa.
  pose proof (sqrt_sqrt Sbb (Rlt_le _ _ Hb)) as Ebb.
  set (p := sqrt Saa) in *. set (q := sqrt Sbb) in *.
  assert (Hpq : 0 < p * q) by (apply Rmult_lt_0_compat; assumption).
  assert (H1 : 0 <= q * q * Saa - 2 * q * p * Sab + p * p * Sbb).
  { unfold Saa, Sab, Sbb. rewrite <- (Rsum_zip_square_comb q p a b Hl).
    apply Rsum_zip_nonneg. intros u v. apply Rle_0_sqr. }
  assert (H2 : 0 <= q * q * Saa - 2 * q * (- p) * Sab + (- p) * (- p) * Sbb).
  { unfold Saa, Sab, Sbb. rewrite <- (Rsum_zip_square_comb q (- p) a b Hl).
    apply Rsum_zip_nonneg. intros u v. apply Rle_0_sqr. }
  rewrite Ebb, <- Eaa in H1, H2.
  assert (B1 : Sab <= p * q).
  { apply Rmult_le_reg_l with (r := 2 * (p * q)); [lra|]. nra. }
  assert (B2 : - (p * q) <= Sab).
  { apply Rmult_le_reg_l with (r := 2 * (p * q)); [lra|]. nra. }
  split.
  - apply Rmult_le_reg_r with (r := p * q); [exact Hpq|].
    unfold Rdiv. rewrite Rmult_assoc, Rinv_l by lra. lra.
  - apply Rmult_le_reg_r with (r := p * q); [exact Hpq|].
    unfold Rdiv. rewrite Rmult_assoc, Rinv_l by lra. lra.
Qed.

Lemma has_nonzero_squares (rs : list R) :
  has_nonzero rs -> 0 < Rsum (zip_with Rmult rs rs).
Proof.
  intros (r & Hr & Hnz).
  destruct (Rle_lt_or_eq_dec _ _ (Rsum_self_nonneg rs)) as [Hlt|Heq];
    [exact Hlt|].
  exfalso. apply Hnz. now apply (Rsum_squares_zero rs (eq_sym Heq)).
Qed.

Lemma zip_with_Rmult_comm (a b : list R) :
  zip_with Rmult a b = zip_with Rmult b a.
Proof.
  revert b. induction a as [|u a IH]; intros [|v b]; simpl; try reflexivity.
  now rewrite IH, Rmult_comm.
Qed.

Lemma cosine_similarity_Fin (a b : list R) :
  length a = length b ->
  cosine_similarity (map Fin a) (map Fin b)
  = Ok (fdiv (Fin (Rsum (zip_with Rmult a b)))
             (Fin (sqrt (Rsum (zip_with Rmult a a))
                   * sqrt (Rsum (zip_with Rmult b b))))).
Proof.
  intros Hl. unfold cosine_similarity, np_dot. rewrite !length_map, Hl.
  rewrite Nat.eqb_refl. cbn [mbind result_bind].
  now rewrite vdot_Fin, !np_norm_Fin.
Qed.

(** X4.  The cosine similarity of two real-valued vectors of the same
    length, neither of them zero, is a number in [[-1, 1]], and it does not
    depend on the order of the two arguments. *)
Theorem cosine_similarity_range (a b : list R) :
  length a = length b -> has_nonzero a -> has_nonzero b ->
  exists r : R,
    cosine_similarity (map Fin a) (map Fin b) = Ok (Fin r) /\
    cosine_similarity (map Fin b) (map Fin a) = Ok (Fin r) /\
    -1 <= r <= 1.
Proof.
  intros Hl Ha Hb.
  apply has_nonzero_squares in Ha. apply has_nonzero_squares in Hb.
  pose proof (sqrt_lt_R0 _ Ha) as Hsa. pose proof (sqrt_lt_R0 _ Hb) as Hsb.
  exists (Rsum (zip_with Rmult a b)
          / (sqrt (Rsum (zip_with Rmult a a))
             * sqrt (Rsum (zip_with Rmult b b)))).
  rewrite !cosine_similarity_Fin by congruence.
  rewrite !fdiv_Fin by nra.
  split; [reflexivity|]. split.
  - rewrite (zip_with_Rmult_comm b a). do 3 f_equal. apply Rmult_comm.
  - now apply dot_over_norms_bounded.
Qed.

Lemma cosine_similarity_range_witness :
  exists r : R,
    cosine_similarity (map Fin [1; 2]) (map Fin [3; 0]) = Ok (Fin r) /\
    cosine_similarity (map Fin [3; 0]) (map Fin [1; 2]) = Ok (Fin r) /\
    -1 <= r <= 1.
Proof.
  apply (cosine_similarity_range [1; 2] [3; 0]).
  - reflexivity.
  - exists 1. split; [now left | lra].
  - exists 3. split; [now left | lra].
Defined.

Lemma Rsum_zip_zero_l (a b : list R) :
  (forall r, In r a -> r = 0) -> Rsum (zip_with Rmult a b) = 0.
Proof.
  revert b. induction a as [|u a IH]; intros [|v b] H; simpl; try reflexivity.
  rewrite IH by (intros r Hr; apply H; now right).
  rewrite (H u) by now left. ring.
Qed.

(** X5.  [cosine_similarity] has no guard of its own: vectors of different
    lengths make [np.dot] raise [ValueError], and only they do; a zero vector
    against any real-valued vector of the same length gives NaN, from
    [0 / 0], whichever side it is on. *)
Theorem cosine_similarity_degenerate (x y : list npfloat) (a b : list R) :
  (cosine_similarity x y = Raise ValueError <-> length x <> length y) /\
  (length a = length b -> (forall r, In r a -> r = 0) ->
   cosine_similarity (map Fin a) (map Fin b) = Ok NaN /\
   cosine_similarity (map Fin b) (map Fin a) = Ok NaN).
Proof.
  split.
  - unfold cosine_similarity, np_dot.
    destruct (Nat.eqb_spec (length x) (length y)) as [E|E];
      cbn [mbind result_bind]; split; intros; congruence.
  - intros Hl Hz.
    rewrite !cosine_similarity_Fin by congruence.
    rewrite (zip_with_Rmult_comm b a).
    rewrite !Rsum_zip_zero_l by exact Hz.
    rewrite sqrt_0, Rmult_0_l, Rmult_0_r. split; f_equal; apply fdiv_0_0.
Qed.

End CosineRange.

(** ** The condensed list of a matrix *)

Section CondensedList.
Local Open Scope R_scope.

Lemma strict_upper_In (m : ndarray) (v : npfloat) :
  In v (strict_upper m) <->
  exists i j, (i < nrows m)%nat /\ (i < j < ncols m)%nat /\ v = item m i j.
Proof.
  unfold strict_upper. rewrite in_concat. split.
  - intros (l & Hl & Hv).
    apply in_map_iff in Hl as (i & <- & Hi). apply in_seq in Hi.
    apply in_map_iff in Hv as (j & <- & Hj). apply in_seq in Hj.
    exists i, j. repeat split; lia.
  - intros (i & j & Hi & Hj & ->).
    exists (map (item m i) (seq (S i) (ncols m - S i))). split.
    + apply in_map_iff. exists i. split; [reflexivity|]. apply in_seq. lia.
    + apply in_map_iff. exists j. split; [reflexivity|]. apply in_seq. lia.
Qed.

Lemma strict_upper_ext (m m' : ndarray) :
  nrows m' = nrows m -> ncols m' = ncols m ->
  (forall i j, (i < nrows m)%nat -> (i < j < ncols m)%nat ->
               item m' i j = item m i j) ->
  strict_upper m' = strict_upper m.
Proof.
  intros Hr Hc H. unfold strict_upper. rewrite Hr, Hc. f_equal.
  apply map_ext_in. intros i Hi. apply in_seq in Hi.
  apply map_ext_in. intros j Hj. apply in_seq in Hj. apply H; lia.
Qed.

Lemma filter_length_le {A : Type} (f : A -> bool) (l : list A) :
  (length (List.filter f l) <= length l)%nat.
Proof.
  induction l as [|a l IH]; simpl; [lia|]. destruct (f a); simpl; lia.
Qed.

(** X6.  On an [n] by [n] matrix, [upper_diag_list] returns the entries
    above the diagonal that are not NaN, row by row: at most
    [n(n-1)/2] values, none of them NaN, and exactly the [n(n-1)/2] entries
    above the diagonal when none of those is NaN.  The diagonal and the
    entries below it have no effect on the result. *)
Theorem upper_diag_list_condensed (m_ : ndarray) (n : nat) :
  nrows m_ = n -> ncols m_ = n ->
  upper_diag_list m_ = List.filter notnan (strict_upper m_) /\
  (forall v, In v (upper_diag_list m_) -> isnan v = false) /\
  (2 * length (upper_diag_list m_) <= n * (n - 1))%nat /\
  ((forall i j, (i < j < n)%nat -> isnan (item m_ i j) = false) ->
   upper_diag_list m_ = strict_upper m_ /\
   (2 * length (upper_diag_list m_) = n * (n - 1))%nat) /\
  (forall m' : ndarray,
     nrows m' = n -> ncols m' = n ->
     (forall i j, (i < j < n)%nat -> item m' i j = item m_ i j) ->
     upper_diag_list m' = upper_diag_list m_).
Proof.
  intros Hr Hc. split; [apply upper_diag_list_filter|].
  split; [|split; [|split]].
  - intros v Hv. rewrite upper_diag_list_filter in Hv.
    apply List.filter_In in Hv as [_ Hv]. unfold notnan in Hv.
    now destruct (isnan v).
  - rewrite upper_diag_list_filter.
    pose proof (filter_length_le notnan (strict_upper m_)) as Hle.
    assert (E : (2 * length (strict_upper m_) = n * (n - 1))%nat).
    { unfold strict_upper. rewrite Hr.
      rewrite strict_upper_length_upto by lia. rewrite Hc. nia. }
    lia.
  - now apply upper_diag_list_square.
  - intros m' Hr' Hc' Hagree. rewrite !upper_diag_list_filter. f_equal.
    apply strict_upper_ext; try congruence.
    intros i j Hi Hj. apply Hagree. lia.
Qed.

Lemma upper_diag_list_condensed_witness :
  upper_diag_list (of_rows [[Fin 1; Fin 2]; [Fin 3; Fin 4]])
  = List.filter notnan (strict_upper (of_rows [[Fin 1; Fin 2]; [Fin 3; Fin 4]])) /\
  (forall v, In v (upper_diag_list (of_rows [[Fin 1; Fin 2]; [Fin 3; Fin 4]])) ->
             isnan v = false) /\
  (2 * length (upper_diag_list (of_rows [[Fin 1; Fin 2]; [Fin 3; Fin 4]]))
   <= 2 * (2 - 1))%nat /\
  ((forall i j, (i < j < 2)%nat ->
      isnan (item (of_rows [[Fin 1; Fin 2]; [Fin 3; Fin 4]]) i j) = false) ->
   upper_diag_list (of_rows [[Fin 1; Fin 2]; [Fin 3; Fin 4]])
   = strict_upper (of_rows [[Fin 1; Fin 2]; [Fin 3; Fin 4]]) /\
   (2 * length (upper_diag_list (of_rows [[Fin 1; Fin 2]; [Fin 3; Fin 4]]))
    = 2 * (2 - 1))%nat) /\
  (forall m' : ndarray,
     nrows m' = 2%nat -> ncols m' = 2%nat ->
     (forall i j, (i < j < 2)%nat ->
        item m' i j = item (of_rows [[Fin 1; Fin 2]; [Fin 3; Fin 4]]) i j) ->
     upper_diag_list m'
     = upper_diag_list (of_rows [[Fin 1; Fin 2]; [Fin 3; Fin 4]])).
Proof.
  apply (upper_diag_list_condensed
           (of_rows [[Fin 1; Fin 2]; [Fin 3; Fin 4]]) 2); reflexivity.
Defined.

(** X7.  For two real-valued matrices over the same samples, without
    zero-variance column, [correlations_list] returns the correlations of the
    pairs (gene [i] of [x], gene [j] of [y]) with [i < j] only, each a number
    in [[-1, 1]]: a pair with [j <= i] is not among them.  With as many genes
    in [x] as in [y] these are [n(n-1)/2] values. *)
Theorem correlations_list_pairs (x y : ndarray) :
  real_valued x -> real_valued y ->
  no_zero_variance x -> no_zero_variance y ->
  nrows x = nrows y ->
  exists d : list npfloat,
    correlations_list x y pearson_correlation = Ok d /\
    d = strict_upper (pearson_matrix x y) /\
    (forall v, In v d <->
       exists i j, (i < ncols x)%nat /\ (i < j < ncols y)%nat /\
                   v = item (pearson_matrix x y) i j) /\
    (forall v, In v d -> exists r, v = Fin r /\ -1 <= r <= 1) /\
    (ncols x = ncols y -> (2 * length d = ncols x * (ncols x - 1))%nat).
Proof.
  intros Hrx Hry Hvx Hvy Hn.
  assert (Hb : forall v, In v (strict_upper (pearson_matrix x y)) ->
                         exists r, v = Fin r /\ -1 <= r <= 1).
  { intros v Hv. apply strict_upper_In in Hv as (i & j & Hi & Hj & ->).
    simpl in Hi, Hj.
    destruct (pearson_matrix_entry_bounded x y i j) as (r & E & Hr);
      try assumption; try lia. now exists r. }
  assert (E : upper_diag_list (pearson_matrix x y)
              = strict_upper (pearson_matrix x y)).
  { rewrite upper_diag_list_filter. apply filter_all_true.
    intros v Hv. destruct (Hb v Hv) as (r & -> & _). reflexivity. }
  exists (strict_upper (pearson_matrix x y)).
  unfold correlations_list. rewrite pearson_correlation_eq, Hn, Nat.eqb_refl.
  cbn [mbind result_bind]. rewrite E.
  split; [reflexivity|]. split; [reflexivity|].
  split; [|split; [exact Hb|]].
  - intros v. exact (strict_upper_In (pearson_matrix x y) v).
  - intros Hc. unfold strict_upper.
    change (nrows (pearson_matrix x y)) with (ncols x).
    rewrite strict_upper_length_upto
      by (change (ncols (pearson_matrix x y)) with (ncols y); lia).
    change (ncols (pearson_matrix x y)) with (ncols y). rewrite <- Hc. nia.
Qed.

Lemma correlations_list_pairs_witness :
  exists d : list npfloat,
    correlations_list example_expr example_expr pearson_correlation = Ok d /\
    d = strict_upper (pearson_matrix example_expr example_expr) /\
    (forall v, In v d <->
       exists i j, (i < ncols example_expr)%nat /\
                   (i < j < ncols example_expr)%nat /\
                   v = item (pearson_matrix example_expr example_expr) i j) /\
    (forall v, In v d -> exists r, v = Fin r /\ -1 <= r <= 1) /\
    (ncols example_expr = ncols example_expr ->
     (2 * length d = ncols example_expr * (ncols example_expr - 1))%nat).
Proof.
  apply (correlations_list_pairs example_expr example_expr).
  - exact example_expr_real.
  - exact example_expr_real.
  - exact example_expr_variance.
  - exact example_expr_variance.
  - reflexivity.
Defined.

End CondensedList.

(** ** Replaying any linkage matrix: what is raised, what is written *)

Section DendrogramCases.
Local Open Scope nat_scope.

Lemma leaf_clusters_exact (n k : nat) : n <= k -> leaf_clusters n !! k = None.
Proof.
  intros H. unfold leaf_clusters. rewrite lookup_leaf_clusters_from.
  destruct (decide _); [lia | reflexivity].
Qed.

(** One row of the replay: it goes through when both ids name clusters that
    exist, and raises [KeyError] otherwise. *)
Lemma dendrogram_body_cases (n i : nat) (clusters : gmap nat Cluster)
    (m : ndarray) (z : linkage_row) :
  clusters_upto n i clusters ->
  (forall k, n + i <= k -> clusters !! k = None) ->
  square_finite n m ->
  (c1 z < n + i /\ c2 z < n + i ->
   exists clusters' m',
     dendrogram_body n (clusters, m) (i, z) = Ok (clusters', m') /\
     clusters_upto n (S i) clusters' /\
     (forall k, n + S i <= k -> clusters' !! k = None) /\
     square_finite n m') /\
  (~ (c1 z < n + i /\ c2 z < n + i) ->
   dendrogram_body n (clusters, m) (i, z) = Raise KeyError).
Proof.
  intros Hup Hex Hm. split.
  - intros [H1 H2]. pose proof Hup as [Hdom Hidx].
    unfold dendrogram_body, dict_get.
    destruct (Hdom _ H1) as [k1 E1]. destruct (Hdom _ H2) as [k2 E2].
    rewrite E1, E2. cbn [mbind result_bind].
    rewrite !lookup_insert_ne by lia. rewrite E1, E2. cbn [mbind result_bind].
    destruct (fill_pairs_total n (indices k1) (indices k2) (dist z) m Hm
                (Hidx _ _ E1) (Hidx _ _ E2)) as (m' & -> & Hm').
    cbn [mbind result_bind]. eexists _, m'. split; [reflexivity|].
    split; [split | split; [|exact Hm']].
    + intros k Hk. destruct (decide (k = n + i)) as [->|Hne].
      * rewrite lookup_insert_eq. eauto.
      * rewrite lookup_insert_ne by lia. apply Hdom. lia.
    + intros k c. rewrite lookup_insert. destruct (decide _).
      * intros [= <-]. simpl. apply Forall_app. split; eauto.
      * apply Hidx.
    + intros k Hk. rewrite lookup_insert_ne by lia. apply Hex. lia.
  - intros Hbad. unfold dendrogram_body, dict_get.
    destruct (lt_dec (c1 z) (n + i)) as [H1|H1].
    + destruct (proj1 Hup _ H1) as [k1 ->].
      rewrite (Hex (c2 z)) by lia. reflexivity.
    + rewrite (Hex (c1 z)) by lia. reflexivity.
Qed.

(** The loop over the rows returns when every row names existing clusters,
    and raises [KeyError] at the first row that does not. *)
Lemma dendrogram_loop_cases (n : nat) (rows : list linkage_row) :
  forall (i : nat) (clusters : gmap nat Cluster) (m : ndarray),
    clusters_upto n i clusters ->
    (forall k, n + i <= k -> clusters !! k = None) ->
    square_finite n m ->
    ((forall k z, rows !! k = Some z -> c1 z < n + i + k /\ c2 z < n + i + k) /\
     exists st',
       for_each (dendrogram_body n) (zip (seq i (length rows)) rows)
                (clusters, m) = Ok st' /\ square_finite n st'.2) \/
    (~ (forall k z, rows !! k = Some z ->
                    c1 z < n + i + k /\ c2 z < n + i + k) /\
     for_each (dendrogram_body n) (zip (seq i (length rows)) rows)
              (clusters, m) = Raise KeyError).
Proof.
  induction rows as [|z rows IH]; intros i clusters m Hup Hex Hm.
  - left. split; [intros k z Hk; destruct k; discriminate|].
    simpl. eauto.
  - cbn [length seq zip_with for_each].
    destruct (dendrogram_body_cases n i clusters m z Hup Hex Hm) as [Hgo Hko].
    destruct (lt_dec (c1 z) (n + i)) as [H1|H1];
      [destruct (lt_dec (c2 z) (n + i)) as [H2|H2]|].
    + destruct (Hgo (conj H1 H2)) as (cl' & m' & -> & Hup' & Hex' & Hm').
      cbn [mbind result_bind].
      destruct (IH (S i) cl' m' Hup' Hex' Hm') as [[Hv Hok]|[Hv Hko']].
      * left. split; [|exact Hok].
        intros [|k] z' Hk; [injection Hk as <-; lia|].
        destruct (Hv k z' Hk). lia.
      * right. split; [|exact Hko'].
        intros Hall. apply Hv. intros k z' Hk.
        destruct (Hall (S k) z' Hk). lia.
    + right. split; [|now rewrite Hko by lia].
      intros Hall. destruct (Hall 0 z eq_refl). lia.
    + right. split; [|now rewrite Hko by lia].
      intros Hall. destruct (Hall 0 z eq_refl). lia.
Qed.

Lemma dendrogram_replay_cases (l_matrix : list linkage_row) :
  (valid_linkage l_matrix /\
   exists st',
     for_each (dendrogram_body (length l_matrix + 1)) (enumerate l_matrix)
              (leaf_clusters (length l_matrix + 1),
               np_zeros (length l_matrix + 1) (length l_matrix + 1)) = Ok st' /\
     square_finite (length l_matrix + 1) st'.2) \/
  (~ valid_linkage l_matrix /\
   for_each (dendrogram_body (length l_matrix + 1)) (enumerate l_matrix)
            (leaf_clusters (length l_matrix + 1),
             np_zeros (length l_matrix + 1) (length l_matrix + 1))
   = Raise KeyError).
Proof.
  unfold enumerate.
  destruct (dendrogram_loop_cases (length l_matrix + 1) l_matrix 0
              (leaf_clusters (length l_matrix + 1))
              (np_zeros (length l_matrix + 1) (length l_matrix + 1)))
    as [[Hv Hok]|[Hv Hko]].
  - apply leaf_clusters_upto.
  - intros k Hk. apply leaf_clusters_exact. lia.
  - repeat split.
  - left. split; [|exact Hok].
    intros k z Hk. destruct (Hv k z Hk). lia.
  - right. split; [|exact Hko].
    intros Hall. apply Hv. intros k z Hk. destruct (Hall k z Hk). lia.
Qed.

Lemma dendrogram_distance_cases (l_matrix : list linkage_row)
    (condensed : bool) :
  (valid_linkage l_matrix /\
   exists r, dendrogram_distance l_matrix condensed = Ok r) \/
  (~ valid_linkage l_matrix /\
   dendrogram_distance l_matrix condensed = Raise KeyError).
Proof.
  unfold dendrogram_distance.
  destruct (dendrogram_replay_cases l_matrix)
    as [[Hv ([cl m] & -> & _)]|[Hv ->]].
  - left. split; [exact Hv|]. cbn [mbind result_bind].
    destruct condensed; eauto.
  - right. split; [exact Hv | reflexivity].
Qed.

(** X8.  [dendrogram_distance] returns exactly when every row of the linkage
    matrix names clusters that exist when the row is reached (leaves, or
    nodes of earlier rows); any other matrix makes it raise [KeyError], from
    the dictionary of clusters.  The writes into the distance matrix are
    always within bounds. *)
Theorem dendrogram_distance_key_error (l_matrix : list linkage_row)
    (condensed : bool) :
  ((exists r, dendrogram_distance l_matrix condensed = Ok r)
   <-> valid_linkage l_matrix) /\
  (dendrogram_distance l_matrix condensed = Raise KeyError
   <-> ~ valid_linkage l_matrix) /\
  dendrogram_distance l_matrix condensed <> Raise IndexError.
Proof.
  destruct (dendrogram_distance_cases l_matrix condensed)
    as [[Hv [r Hr]]|[Hv Hko]].
  - rewrite Hr. split; [|split].
    + split; [intros _; exact Hv | intros _; eauto].
    + split; [discriminate | intros Hn; contradiction].
    + discriminate.
  - rewrite Hko. split; [|split].
    + split; [intros [r Hr]; discriminate | intros Hv'; contradiction].
    + split; [intros _; exact Hv | reflexivity].
    + discriminate.
Qed.

End DendrogramCases.

(** ** The distance matrix of a dendrogram *)

Section DendrogramMatrix.
Local Open Scope nat_scope.

Lemma for_each_invariant_in {A S : Type} (P : S -> Prop)
    (body : S -> A -> result S) (l : list A) (s s' : S) :
  (forall s a s', In a l -> P s -> body s a = Ok s' -> P s') ->
  P s -> for_each body l s = Ok s' -> P s'.
Proof.
  revert s. induction l as [|a l IH]; intros s Hbody Hs H; simpl in H.
  - now injection H as <-.
  - destruct (body s a) as [s1|e] eqn:E; [|discriminate].
    simpl in H. eapply IH; [| |exact H].
    + intros t b t' Hb. apply Hbody. now right.
    + eapply Hbody; eauto. now left.
Qed.

(** The two writes [m[x, y] = d; m[y, x] = d]. *)
Lemma set_pair_item (m m1 m2 : ndarray) (x y : nat) (d : npfloat) :
  set_item m x y d = Ok m1 -> set_item m1 y x d = Ok m2 ->
  forall a b,
    item m2 a b =
    if ((a =? y) && (b =? x)) || ((a =? x) && (b =? y)) then d
    else item m a b.
Proof.
  unfold set_item. intros H1 H2.
  destruct (_ && _) in H1; [|discriminate]. injection H1 as <-.
  simpl in H2. destruct (_ && _) in H2; [|discriminate]. injection H2 as <-.
  intros a b. simpl.
  destruct ((a =? y) && (b =? x)); [reflexivity|].
  destruct ((a =? x) && (b =? y)); reflexivity.
Qed.

Lemma fill_pairs_invariant (P : ndarray -> Prop) (xs ys : list nat)
    (d : npfloat) (m m' : ndarray) :
  (forall m x y m1 m2, P m -> set_item m x y d = Ok m1 ->
                       set_item m1 y x d = Ok m2 -> P m2) ->
  P m -> fill_pairs xs ys d m = Ok m' -> P m'.
Proof.
  intros Hset Hm H. unfold fill_pairs in H.
  eapply (for_each_invariant P); [|exact Hm|exact H].
  clear m m' Hm H. intros m x m' Hm H.
  eapply (for_each_invariant P); [|exact Hm|exact H].
  clear m m' Hm H. intros m y m' Hm H. cbv beta in H.
  destruct (set_item m x y d) as [m1|] eqn:E; [|discriminate].
  simpl in H. eapply Hset; eauto.
Qed.

Lemma dendrogram_body_invariant (P : ndarray -> Prop) (n : nat)
    (st st' : gmap nat Cluster * ndarray) (iz : nat * linkage_row) :
  (forall m x y m1 m2, P m -> set_item m x y (Fin (dist iz.2)) = Ok m1 ->
                       set_item m1 y x (Fin (dist iz.2)) = Ok m2 -> P m2) ->
  P st.2 -> dendrogram_body n st iz = Ok st' -> P st'.2.
Proof.
  destruct st as [cl m], iz as [i z]. simpl. intros Hset Hm H.
  unfold dendrogram_body in H.
  destruct (dict_get cl (c1 z)) as [k1|]; [|discriminate].
  destruct (dict_get cl (c2 z)) as [k2|]; [|discriminate].
  cbn [mbind result_bind] in H.
  destruct (dict_get _ (c1 z)) as [k1'|]; [|discriminate].
  destruct (dict_get _ (c2 z)) as [k2'|]; [|discriminate].
  cbn [mbind result_bind] in H.
  destruct (fill_pairs _ _ _ m) as [m1|] eqn:E; [|discriminate].
  injection H as <-. simpl. eapply fill_pairs_invariant; eauto.
Qed.

Lemma in_zip_with_pair_r {A B : Type} (a : list A) (l : list B) (p : A * B) :
  In p (zip a l) -> In p.2 l.
Proof.
  revert l. induction a as [|x a IH]; intros [|y l] H; simpl in *;
    try contradiction.
  destruct H as [<-|H]; [now left | right; now apply IH].
Qed.

(** What the replay of a valid linkage matrix writes. *)
Lemma dendrogram_matrix (l_matrix : list linkage_row) :
  valid_linkage l_matrix ->
  exists m : ndarray,
    dendrogram_distance l_matrix false = Ok m /\
    dendrogram_distance l_matrix true = Ok (strict_upper m) /\
    nrows m = length l_matrix + 1 /\ ncols m = length l_matrix + 1 /\
    (forall a b, item m a b = item m b a) /\
    (forall a b, item m a b = Fin 0%R \/
                 exists z, In z l_matrix /\ item m a b = Fin (dist z)) /\
    2 * length (strict_upper m) = (length l_matrix + 1) * length l_matrix.
Proof.
  intros Hv. unfold dendrogram_distance.
  destruct (dendrogram_replay_cases l_matrix)
    as [[_ ([cl m] & E & Hsq)]|[Hn _]]; [|contradiction].
  rewrite E. cbn [mbind result_bind]. simpl in Hsq.
  destruct Hsq as (Hr & Hc & Hf).
  exists m.
  assert (Hsym : forall a b, item m a b = item m b a).
  { change ((fun st : gmap nat Cluster * ndarray =>
               forall a b, item st.2 a b = item st.2 b a) (cl, m)).
    eapply for_each_invariant; [| |exact E]; [|reflexivity].
    intros s iz s'.
    apply (dendrogram_body_invariant
             (fun m => forall a b, item m a b = item m b a)).
    intros m0 x y m1 m2 Hm0 H1 H2 a b.
    rewrite !(set_pair_item m0 m1 m2 x y _ H1 H2), Hm0.
    destruct (a =? y) eqn:Ay, (b =? x) eqn:Bx, (a =? x) eqn:Ax,
             (b =? y) eqn:By; reflexivity. }
  assert (Hval : forall a b, item m a b = Fin 0%R \/
                   exists z, In z l_matrix /\ item m a b = Fin (dist z)).
  { change ((fun st : gmap nat Cluster * ndarray =>
               forall a b, item st.2 a b = Fin 0%R \/
                 exists z, In z l_matrix /\ item st.2 a b = Fin (dist z))
              (cl, m)).
    eapply for_each_invariant_in; [| |exact E]; [|now left].
    intros s iz s' Hin.
    apply (dendrogram_body_invariant
             (fun m => forall a b, item m a b = Fin 0%R \/
                 exists z, In z l_matrix /\ item m a b = Fin (dist z))).
    intros m0 x y m1 m2 Hm0 H1 H2 a b.
    rewrite (set_pair_item m0 m1 m2 x y _ H1 H2).
    destruct (_ || _); [|apply Hm0].
    right. exists iz.2. split; [|reflexivity].
    unfold enumerate in Hin. now apply in_zip_with_pair_r in Hin. }
  assert (Hup : upper_diag_list m = strict_upper m).
  { apply (upper_diag_list_square m (length l_matrix + 1) Hr Hc).
    intros i j _. specialize (Hf i j). now destruct (item m i j). }
  rewrite Hup. repeat split; try assumption.
  unfold strict_upper. rewrite Hr, strict_upper_length_upto by lia.
  rewrite Hc. nia.
Qed.

(** X9.  For a valid linkage matrix of [n - 1] rows, [dendrogram_distance]
    fills an [n] by [n] matrix that is symmetric and whose entries are 0 or
    the merge height of some row; the condensed result is the part above
    its diagonal, [n(n-1)/2] numbers. *)
Theorem dendrogram_distance_matrix (l_matrix : list linkage_row) :
  valid_linkage l_matrix ->
  exists m : ndarray,
    dendrogram_distance l_matrix false = Ok m /\
    dendrogram_distance l_matrix true = Ok (strict_upper m) /\
    nrows m = length l_matrix + 1 /\ ncols m = length l_matrix + 1 /\
    (forall a b, item m a b = item m b a) /\
    (forall a b, item m a b = Fin 0%R \/
                 exists z, In z l_matrix /\ item m a b = Fin (dist z)) /\
    2 * length (strict_upper m) = (length l_matrix + 1) * length l_matrix.
Proof. exact (dendrogram_matrix l_matrix). Qed.

Lemma dendrogram_distance_matrix_witness :
  exists m : ndarray,
    dendrogram_distance example_linkage false = Ok m /\
    dendrogram_distance example_linkage true = Ok (strict_upper m) /\
    nrows m = length example_linkage + 1 /\
    ncols m = length example_linkage + 1 /\
    (forall a b, item m a b = item m b a) /\
    (forall a b, item m a b = Fin 0%R \/
                 exists z, In z example_linkage /\ item m a b = Fin (dist z)) /\
    2 * length (strict_upper m)
    = (length example_linkage + 1) * length example_linkage.
Proof.
  apply (dendrogram_distance_matrix example_linkage).
  exact example_linkage_valid.
Defined.

End DendrogramMatrix.

(** ** The coefficient of two vectors, and of two dendrograms *)

Section VectorCoefficient.
Local Open Scope R_scope.

Lemma Rsum_constant (c : R) (rs : list R) :
  (forall r, In r rs -> r = c) -> Rsum rs = INR (length rs) * c.
Proof.
  induction rs as [|r rs IH]; intros H; [simpl; ring|].
  change (Rsum (r :: rs)) with (r + Rsum rs).
  change (length (r :: rs)) with (S (length rs)). rewrite S_INR.
  rewrite IH by (intros v Hv; apply H; now right).
  rewrite (H r) at 1 by now left. ring.
Qed.

Lemma constant_Rvar (rs : list R) :
  constant (map Fin rs) -> rs = [] \/ Rvar rs = 0.
Proof.
  intros [c Hc]. destruct rs as [|r0 rs]; [now left | right].
  set (l := r0 :: rs) in *.
  assert (Hne : l <> []) by discriminate.
  pose proof (INR_length_pos l Hne) as Hn.
  assert (Hall : forall r, In r l -> r = r0).
  { intros r Hr.
    assert (E1 : Fin r = c) by (apply Hc, in_map_iff; now exists r).
    assert (E2 : Fin r0 = c) by (apply Hc, in_map_iff; exists r0; split;
                                 [reflexivity | now left]).
    congruence. }
  assert (Hmean : Rmean l = r0).
  { unfold Rmean. rewrite (Rsum_constant r0 l Hall). field. lra. }
  unfold Rvar. rewrite Hmean. unfold Rmean. rewrite length_map.
  rewrite (Rsum_constant 0).
  - unfold Rdiv. ring.
  - intros v Hv. apply in_map_iff in Hv as (r & <- & Hr).
    rewrite (Hall r Hr). ring.
Qed.

Lemma fdiv_nan_l (x : npfloat) : fdiv NaN x = NaN.
Proof. now destruct x. Qed.

Lemma np_std_zero (rs : list R) :
  rs <> [] -> Rvar rs = 0 -> np_std (map Fin rs) = Fin 0.
Proof. intros Hne Hz. now rewrite np_std_Fin, Hz, sqrt_0. Qed.

Lemma length_standardize (a : list npfloat) :
  length (standardize a) = length a.
Proof. unfold standardize. apply length_map. Qed.

Lemma pearson_1d_comm (x y : list npfloat) :
  pearson_correlation_1d x y = pearson_correlation_1d y x.
Proof.
  unfold pearson_correlation_1d, np_dot. rewrite !length_standardize.
  rewrite (Nat.eqb_sym (length y) (length x)).
  destruct (Nat.eqb_spec (length x) (length y)) as [E|E]; [|reflexivity].
  cbn [assert_ mbind result_bind]. now rewrite vdot_comm, E.
Qed.

(** The coefficient of two real-valued vectors of one length. *)
Lemma pearson_1d_real (a b : list R) :
  length a = length b ->
  (a <> [] -> 0 < Rvar a -> 0 < Rvar b ->
   exists r, pearson_correlation_1d (map Fin a) (map Fin b) = Ok (Fin r) /\
             -1 <= r <= 1) /\
  (a = [] \/ Rvar a = 0 \/ Rvar b = 0 ->
   pearson_correlation_1d (map Fin a) (map Fin b) = Ok NaN).
Proof.
  intros Hl.
  assert (Hrun : pearson_correlation_1d (map Fin a) (map Fin b)
                 = Ok (fdiv (vdot (standardize (map Fin a))
                                  (standardize (map Fin b)))
                            (of_nat (length a)))).
  { unfold pearson_correlation_1d, np_dot.
    rewrite !length_standardize, !length_map, Hl, Nat.eqb_refl.
    reflexivity. }
  rewrite Hrun. split.
  - intros Hne Ha Hb.
    assert (Hnb : b <> []) by (intros ->; destruct a; simpl in Hl; congruence).
    rewrite !standardize_Fin, vdot_Fin by assumption.
    pose proof (INR_length_pos a Hne) as Hn.
    unfold of_nat. rewrite fdiv_Fin by lra.
    eexists. split; [reflexivity|].
    pose proof (Rsum_standardized_squares a Hne Ha) as Sa.
    pose proof (Rsum_standardized_squares b Hnb Hb) as Sb.
    cbv zeta in Sa, Sb. rewrite <- Hl in Sb.
    assert (Hlen : length (map (fun v => (v - Rmean a) / sqrt (Rvar a)) a)
                   = length (map (fun v => (v - Rmean b) / sqrt (Rvar b)) b))
      by (rewrite !length_map; exact Hl).
    pose proof (dot_bounded _ _ _ Hlen Sa Sb) as Hd.
    split.
    + apply Rmult_le_reg_r with (INR (length a)); [exact Hn|].
      unfold Rdiv. rewrite Rmult_assoc, Rinv_l by lra. lra.
    + apply Rmult_le_reg_r with (INR (length a)); [exact Hn|].
      unfold Rdiv. rewrite Rmult_assoc, Rinv_l by lra. lra.
  - intros [->|H].
    + destruct b; [|discriminate]. simpl. unfold vdot, np_sum, of_nat. simpl.
      f_equal. apply fdiv_0_0.
    + destruct a as [|a0 a]; [destruct b; [|discriminate]; simpl;
        unfold vdot, np_sum, of_nat; simpl; f_equal; apply fdiv_0_0|].
      assert (Hne : a0 :: a <> []) by discriminate.
      assert (Hnb : b <> []) by (intros ->; discriminate).
      f_equal. destruct H as [Hz|Hz].
      * destruct (standardize_zero_std (a0 :: a)
                    (np_std_zero _ Hne Hz)) as [_ ->].
        rewrite vdot_comm, vdot_nan_r; [apply fdiv_nan_l| |exact Hne].
        rewrite length_standardize, length_map. congruence.
      * destruct (standardize_zero_std b (np_std_zero _ Hnb Hz)) as [_ ->].
        rewrite vdot_nan_r; [apply fdiv_nan_l| |exact Hnb].
        rewrite length_standardize, length_map. congruence.
Qed.

Lemma singleton_Rvar (x : R) : Rvar [x] = 0.
Proof.
  destruct (constant_Rvar [x]) as [E|E]; [|discriminate | exact E].
  exists (Fin x). intros v [<-|[]]. reflexivity.
Qed.

Lemma pearson_1d_cases (a b : list R) :
  length a = length b ->
  exists c : npfloat,
    pearson_correlation_1d (map Fin a) (map Fin b) = Ok c /\
    pearson_correlation_1d (map Fin b) (map Fin a) = Ok c /\
    (c = NaN \/ exists r, c = Fin r /\ -1 <= r <= 1) /\
    (~ constant (map Fin a) -> ~ constant (map Fin b) ->
     exists r, c = Fin r /\ -1 <= r <= 1) /\
    ((length a <= 1)%nat -> c = NaN).
Proof.
  intros Hl. destruct (pearson_1d_real a b Hl) as [Hnum Hnan].
  rewrite (pearson_1d_comm (map Fin b)).
  assert (Hcase : (a = [] \/ Rvar a = 0 \/ Rvar b = 0) \/
                  (a <> [] /\ 0 < Rvar a /\ 0 < Rvar b)).
  { destruct a as [|a0 a]; [now left; left|].
    destruct (Req_dec_T (Rvar (a0 :: a)) 0) as [Hz|Ha];
      [now left; right; left|].
    destruct (Req_dec_T (Rvar b) 0) as [Hz|Hb]; [now left; right; right|].
    pose proof (Rvar_nonneg (a0 :: a)). pose proof (Rvar_nonneg b).
    right. split; [discriminate | lra]. }
  destruct Hcase as [H|(Hne & Ha & Hb)].
  - exists NaN. rewrite (Hnan H).
    split; [reflexivity|]. split; [reflexivity|]. split; [now left|].
    split; [|reflexivity].
    intros Hca Hcb. exfalso.
    apply nonconstant_nonzero_std, nonzero_std_Fin in Hca as [Hna Hpa].
    apply nonconstant_nonzero_std, nonzero_std_Fin in Hcb as [_ Hpb].
    destruct H as [H|[H|H]]; [congruence | lra | lra].
  - destruct (Hnum Hne Ha Hb) as (r & Er & Hr). exists (Fin r). rewrite Er.
    split; [reflexivity|]. split; [reflexivity|].
    split; [right; now exists r|]. split; [intros _ _; now exists r|].
    intros Hle. exfalso. destruct a as [|x [|y a]]; simpl in Hle.
    + congruence.
    + rewrite singleton_Rvar in Ha. lra.
    + lia.
Qed.

(** X10.  The coefficient [pearson_correlation] gives for two real-valued
    vectors of one length does not depend on their order, and it is NaN or a
    number in [[-1, 1]]: a number when neither vector is constant, and NaN
    for vectors of at most one entry, whose deviation is zero. *)
Theorem pearson_vector_coefficient (a b : list R) :
  length a = length b ->
  exists c : npfloat,
    pearson_correlation_1d (map Fin a) (map Fin b) = Ok c /\
    pearson_correlation_1d (map Fin b) (map Fin a) = Ok c /\
    (c = NaN \/ exists r, c = Fin r /\ -1 <= r <= 1) /\
    (~ constant (map Fin a) -> ~ constant (map Fin b) ->
     exists r, c = Fin r /\ -1 <= r <= 1) /\
    ((length a <= 1)%nat -> c = NaN).
Proof. exact (pearson_1d_cases a b). Qed.

(** Two vectors of three entries that vary, and two of one entry. *)
Lemma pearson_vector_coefficient_witness :
  (exists r : R,
     pearson_correlation_1d (map Fin [1; 2; 4]) (map Fin [3; 5; 5])
     = Ok (Fin r) /\
     pearson_correlation_1d (map Fin [3; 5; 5]) (map Fin [1; 2; 4])
     = Ok (Fin r) /\
     -1 <= r <= 1) /\
  pearson_correlation_1d (map Fin [7]) (map Fin [9]) = Ok NaN.
Proof.
  split.
  - destruct (pearson_vector_coefficient [1; 2; 4] [3; 5; 5] eq_refl)
      as (c & E1 & E2 & _ & Hnum & _).
    destruct Hnum as (r & Ec & Hr).
    + apply (example_distances_not_constant 1 2 4). lra.
    + apply (example_distances_not_constant 3 5 5). lra.
    + exists r. rewrite E1, E2, Ec. auto.
  - destruct (pearson_vector_coefficient [7] [9] eq_refl)
      as (c & E1 & _ & _ & _ & Hshort).
    rewrite E1, Hshort; [reflexivity | simpl; lia].
Defined.

Lemma condensed_length_inj (n1 n2 k1 k2 : nat) :
  (2 * k1 = (n1 + 1) * n1)%nat -> (2 * k2 = (n2 + 1) * n2)%nat ->
  k1 = k2 -> n1 = n2.
Proof. intros H1 H2 ->. nia. Qed.

Lemma dendrogram_condensed (l_matrix : list linkage_row) :
  valid_linkage l_matrix ->
  exists rs : list R,
    dendrogram_distance l_matrix true = Ok (map Fin rs) /\
    (2 * length rs = (length l_matrix + 1) * length l_matrix)%nat.
Proof.
  intros Hv.
  destruct (dendrogram_matrix l_matrix Hv) as (m & _ & E & _ & _ & _ & _ & Hlen).
  destruct (dendrogram_distance_real l_matrix _ E) as [rs Hrs].
  exists rs. rewrite E, Hrs. split; [reflexivity|].
  rewrite Hrs, length_map in Hlen. exact Hlen.
Qed.

Lemma compare_cophenetic_comm (l1 l2 : list linkage_row) :
  compare_cophenetic l1 l2 = compare_cophenetic l2 l1.
Proof.
  unfold compare_cophenetic.
  destruct (dendrogram_distance_cases l1 true) as [[_ [d1 ->]]|[_ ->]];
    destruct (dendrogram_distance_cases l2 true) as [[_ [d2 ->]]|[_ ->]];
    cbn [mbind result_bind]; try reflexivity.
  apply pearson_1d_comm.
Qed.

(** X11.  [compare_cophenetic] does not depend on the order of the two
    linkage matrices.  It returns exactly when both are valid and have the
    same number of rows: valid matrices of different sizes fail the
    assertion of [pearson_correlation], and an invalid one raises
    [KeyError]. *)
Theorem compare_cophenetic_errors (l1 l2 : list linkage_row) :
  compare_cophenetic l1 l2 = compare_cophenetic l2 l1 /\
  ((exists c, compare_cophenetic l1 l2 = Ok c) <->
   valid_linkage l1 /\ valid_linkage l2 /\ length l1 = length l2) /\
  (valid_linkage l1 -> valid_linkage l2 -> length l1 <> length l2 ->
   compare_cophenetic l1 l2 = Raise AssertionError) /\
  (~ valid_linkage l1 \/ ~ valid_linkage l2 ->
   compare_cophenetic l1 l2 = Raise KeyError).
Proof.
  split; [apply compare_cophenetic_comm|].
  assert (Hbad : ~ valid_linkage l1 \/ ~ valid_linkage l2 ->
                 compare_cophenetic l1 l2 = Raise KeyError).
  { unfold compare_cophenetic. intros Hn.
    destruct (dendrogram_distance_cases l1 true) as [[Hv1 [d1 ->]]|[_ ->]];
      [|reflexivity].
    destruct (dendrogram_distance_cases l2 true) as [[Hv2 [d2 ->]]|[_ ->]];
      [tauto | reflexivity]. }
  assert (Hgood : valid_linkage l1 -> valid_linkage l2 ->
            (length l1 = length l2 ->
             exists c, compare_cophenetic l1 l2 = Ok c) /\
            (length l1 <> length l2 ->
             compare_cophenetic l1 l2 = Raise AssertionError)).
  { intros Hv1 Hv2. unfold compare_cophenetic.
    destruct (dendrogram_condensed l1 Hv1) as (r1 & -> & H1).
    destruct (dendrogram_condensed l2 Hv2) as (r2 & -> & H2).
    cbn [mbind result_bind]. split.
    - intros Hl.
      destruct (pearson_1d_cases r1 r2) as (c & -> & _); [nia | eauto].
    - intros Hl. unfold pearson_correlation_1d. rewrite !length_map.
      destruct (Nat.eqb_spec (length r1) (length r2)) as [E|E]; [|reflexivity].
      exfalso. apply Hl. exact (condensed_length_inj _ _ _ _ H1 H2 E). }
  split; [|split].
  - split.
    + intros [c Hc].
      destruct (dendrogram_distance_cases l1 true) as [[Hv1 _]|[Hn1 _]];
        [|rewrite Hbad in Hc by tauto; discriminate].
      destruct (dendrogram_distance_cases l2 true) as [[Hv2 _]|[Hn2 _]];
        [|rewrite Hbad in Hc by tauto; discriminate].
      split; [exact Hv1|]. split; [exact Hv2|].
      destruct (Nat.eq_dec (length l1) (length l2)) as [E|E]; [exact E|].
      rewrite (proj2 (Hgood Hv1 Hv2) E) in Hc. discriminate.
    + intros (Hv1 & Hv2 & Hl). now apply Hgood.
  - intros Hv1 Hv2. apply Hgood; assumption.
  - exact Hbad.
Qed.

(** X12.  For two valid linkage matrices of the same size
    [compare_cophenetic] returns NaN or a number in [[-1, 1]]: a number when
    the condensed distances of neither dendrogram are all one value, and NaN
    for matrices of at most one row (dendrograms of one or two genes), whose
    condensed distances have at most one entry. *)
Theorem compare_cophenetic_range (l1 l2 : list linkage_row) :
  valid_linkage l1 -> valid_linkage l2 -> length l1 = length l2 ->
  exists (d1 d2 : list npfloat) (c : npfloat),
    dendrogram_distance l1 true = Ok d1 /\
    dendrogram_distance l2 true = Ok d2 /\
    compare_cophenetic l1 l2 = Ok c /\
    (c = NaN \/ exists r, c = Fin r /\ -1 <= r <= 1) /\
    (~ constant d1 -> ~ constant d2 -> exists r, c = Fin r /\ -1 <= r <= 1) /\
    ((length l1 <= 1)%nat -> c = NaN).
Proof.
  intros Hv1 Hv2 Hl. unfold compare_cophenetic.
  destruct (dendrogram_condensed l1 Hv1) as (r1 & -> & H1).
  destruct (dendrogram_condensed l2 Hv2) as (r2 & -> & H2).
  cbn [mbind result_bind].
  destruct (pearson_1d_cases r1 r2) as (c & -> & _ & Hor & Hnum & Hshort);
    [nia|].
  exists (map Fin r1), (map Fin r2), c.
  repeat split; try assumption.
  intros Hle. apply Hshort. nia.
Qed.

(** The dendrogram of the example against itself, and two dendrograms of two
    genes. *)
Lemma compare_cophenetic_range_witness :
  (exists r : R,
     compare_cophenetic example_linkage example_linkage = Ok (Fin r) /\
     -1 <= r <= 1) /\
  compare_cophenetic [mk_row 0 1 1 2] [mk_row 1 0 3 2] = Ok NaN.
Proof.
  split.
  - destruct (compare_cophenetic_range example_linkage example_linkage
                example_linkage_valid example_linkage_valid eq_refl)
      as (d1 & d2 & c & E1 & E2 & Ec & _ & Hnum & _).
    rewrite example_dendrogram_distance in E1, E2.
    injection E1 as <-. injection E2 as <-.
    destruct Hnum as (r & -> & Hr).
    + apply example_distances_not_constant. lra.
    + apply example_distances_not_constant. lra.
    + exists r. split; [exact Ec | exact Hr].
  - destruct (compare_cophenetic_range [mk_row 0 1 1 2] [mk_row 1 0 3 2])
      as (d1 & d2 & c & _ & _ & Ec & _ & _ & Hshort).
    + intros [|[|i]] z H; simpl in H; try discriminate.
      injection H as <-. simpl. lia.
    + intros [|[|i]] z H; simpl in H; try discriminate.
      injection H as <-. simpl. lia.
    + reflexivity.
    + rewrite Ec, Hshort; [reflexivity | simpl; lia].
Defined.

End VectorCoefficient.

(** ** The range of the two weighted aggregators *)

Section AggregatorRange.
Local Open Scope R_scope.

(** One TF entering the sums with a positive weight and a cosine in
    [[-1, 1]]. *)
Lemma within_weight_step (st : pynum * pynum) (weight : pynum) (x c : R) :
  st = (PyInt 0, PyInt 0) \/ within_weight st ->
  to_float weight = Fin x -> 0 < x -> -1 <= c <= 1 ->
  within_weight (py_add st.1 weight,
                 py_add st.2 (py_mul weight (NpFloat (Fin c)))).
Proof.
  intros Hst Hw Hx Hc.
  assert (Hmul : py_mul weight (NpFloat (Fin c)) = NpFloat (Fin (x * c))).
  { destruct weight; unfold py_mul; now rewrite Hw. }
  rewrite Hmul.
  destruct Hst as [->|(w & t & Hwpos & Hws & Hts & Ht)].
  - exists (0 + x), (0 + x * c). cbn [fst snd].
    split; [lra|]. split; [now apply to_float_py_add|].
    split; [reflexivity | nra].
  - destruct st as [ws ts]. cbn [fst snd] in *. subst ts.
    exists (w + x), (t + x * c).
    split; [lra|]. split; [now apply to_float_py_add|].
    split; [reflexivity | nra].
Qed.

Lemma within_weight_result (st : pynum * pynum) :
  within_weight st ->
  exists r, py_truediv st.2 st.1 = Ok (NpFloat (Fin r)) /\ -1 <= r <= 1.
Proof.
  intros (w & t & Hw & Hws & Hts & Ht). destruct st as [ws ts].
  cbn [fst snd] in *. subst ts.
  assert (E : py_truediv (NpFloat (Fin t)) ws
              = Ok (NpFloat (fdiv (Fin t) (Fin w)))).
  { destruct ws; unfold py_truediv; now rewrite Hws. }
  rewrite E, fdiv_Fin by lra. eexists. split; [reflexivity|].
  split.
  - apply Rmult_le_reg_r with w; [exact Hw|].
    unfold Rdiv. rewrite Rmult_assoc, Rinv_l by lra. lra.
  - apply Rmult_le_reg_r with w; [exact Hw|].
    unfold Rdiv. rewrite Rmult_assoc, Rinv_l by lra. lra.
Qed.

Lemma comparable_cosine (a b : list R) :
  comparable a b ->
  exists c, cosine_similarity (map Fin a) (map Fin b) = Ok (Fin c) /\
            -1 <= c <= 1.
Proof.
  intros (Hl & Ha & Hb).
  apply has_nonzero_squares in Ha. apply has_nonzero_squares in Hb.
  pose proof (sqrt_lt_R0 _ Ha) as Hsa. pose proof (sqrt_lt_R0 _ Hb) as Hsb.
  rewrite cosine_similarity_Fin by exact Hl. rewrite fdiv_Fin by nra.
  eexists. split; [reflexivity|]. now apply dot_over_norms_bounded.
Qed.

Lemma has_nonzero_nonempty (a : list R) : has_nonzero a -> a <> [].
Proof. intros (r & Hr & _) ->. destruct Hr. Qed.

Lemma psi_body_within (weights_type : string) (st : pynum * pynum)
    (a b : list R) :
  st = (PyInt 0, PyInt 0) \/ within_weight st -> comparable a b ->
  exists st', psi_body weights_type st (map Fin a, map Fin b) = Ok st' /\
              within_weight st'.
Proof.
  intros Hst Hab. destruct (comparable_cosine a b Hab) as (c & Ec & Hc).
  destruct st as [ws ts]. unfold psi_body. rewrite Ec.
  cbn [mbind result_bind]. eexists. split; [reflexivity|].
  destruct Hab as (_ & Ha & _). apply has_nonzero_nonempty in Ha.
  destruct (String.eqb weights_type nb_genes_type).
  - apply (within_weight_step (ws, ts) _ (INR (length a)) c Hst).
    + simpl. unfold of_Z. now rewrite length_map, <- INR_IZR_INZ.
    + now apply INR_length_pos.
    + exact Hc.
  - apply (within_weight_step (ws, ts) _ 1 c Hst);
      [reflexivity | lra | exact Hc].
Qed.

Lemma psi_loop_within (weights_type : string) (xs zs : list (list R)) :
  Forall2 comparable xs zs ->
  forall st, st = (PyInt 0, PyInt 0) \/ within_weight st ->
    exists st',
      for_each (psi_body weights_type)
               (zip (map (map Fin) xs) (map (map Fin) zs)) st = Ok st' /\
      (within_weight st \/ xs <> [] -> within_weight st').
Proof.
  induction 1 as [|a b xs zs Hab _ IH]; intros st Hst.
  - exists st. split; [reflexivity|]. intros [H|H]; [exact H | congruence].
  - cbn [map zip_with for_each].
    destruct (psi_body_within weights_type st a b Hst Hab) as (st1 & -> & H1).
    cbn [mbind result_bind].
    destruct (IH st1 (or_intror H1)) as (st' & E & Hin).
    exists st'. split; [exact E|]. intros _. apply Hin. now left.
Qed.

Lemma phi_weight_positive (weights_type : string) (cx : list npfloat) :
  cx <> [] ->
  exists (weight : pynum) (x : R),
    phi_weight weights_type cx = Ok weight /\ to_float weight = Fin x /\ 0 < x.
Proof.
  intros Hne. unfold phi_weight.
  destruct (String.eqb weights_type nb_genes_type).
  - rewrite py_max_roots by apply pos_INR. cbn [mbind result_bind].
    eexists _, _. split; [reflexivity|]. split; [reflexivity|].
    pose proof (INR_length_pos cx Hne) as Hn.
    assert (1 < sqrt (1 + 8 * INR (length cx))).
    { rewrite <- sqrt_1 at 1. apply sqrt_lt_1_alt. lra. }
    lra.
  - exists (PyInt 1), 1. repeat split. lra.
Qed.

Lemma phi_body_within (weights_type : string) (st : pynum * pynum)
    (a b : list R) :
  st = (PyInt 0, PyInt 0) \/ within_weight st -> phi_comparable a b ->
  exists st', phi_body weights_type st (map Fin a, map Fin b) = Ok st' /\
              (a = [] -> st' = st) /\ (a <> [] -> within_weight st').
Proof.
  intros Hst Hab. destruct st as [ws ts].
  destruct a as [|a0 a].
  - exists (ws, ts). repeat split; congruence.
  - destruct Hab as [Hab|Hab]; [discriminate|].
    destruct (comparable_cosine _ _ Hab) as (c & Ec & Hc).
    destruct (phi_weight_positive weights_type (map Fin (a0 :: a)))
      as (weight & x & Ew & Hw & Hx); [discriminate|].
    unfold phi_body. simpl Nat.ltb. cbv iota. rewrite Ew.
    cbn [mbind result_bind]. rewrite Ec. cbn [mbind result_bind].
    eexists. split; [reflexivity|]. split; [discriminate | intros _].
    now apply (within_weight_step (ws, ts) weight x c Hst).
Qed.

Lemma phi_loop_within (weights_type : string) (xs zs : list (list R)) :
  Forall2 phi_comparable xs zs ->
  forall st, st = (PyInt 0, PyInt 0) \/ within_weight st ->
    exists st',
      for_each (phi_body weights_type)
               (zip (map (map Fin) xs) (map (map Fin) zs)) st = Ok st' /\
      (within_weight st \/ Exists (fun a => a <> []) xs -> within_weight st').
Proof.
  induction 1 as [|a b xs zs Hab _ IH]; intros st Hst.
  - exists st. split; [reflexivity|].
    intros [H|H]; [exact H | inversion H].
  - cbn [map zip_with for_each].
    destruct (phi_body_within weights_type st a b Hst Hab)
      as (st1 & -> & Hsame & Hnew).
    cbn [mbind result_bind].
    assert (Hrun1 : st1 = (PyInt 0, PyInt 0) \/ within_weight st1).
    { destruct a as [|a0 a];
        [rewrite Hsame by reflexivity; exact Hst
        | right; apply Hnew; discriminate]. }
    destruct (IH st1 Hrun1) as (st' & E & Hin).
    exists st'. split; [exact E|].
    intros Hor. apply Hin.
    destruct a as [|a0 a].
    + rewrite Hsame by reflexivity.
      destruct Hor as [H|H]; [now left|].
      inversion H as [? ? Hh|? ? Ht]; subst; [congruence | now right].
    + left. apply Hnew. discriminate.
Qed.

(** X13.  For either kind of weights, [psi_coefficient] of two non-empty
    lists of real-valued TF-TG vectors, pair by pair of one length and not
    zero, is a number in [[-1, 1]]: a weighted mean of cosines with positive
    weights. *)
Theorem psi_coefficient_range (weights_type : string)
    (xs zs : list (list R)) :
  xs <> [] -> Forall2 comparable xs zs ->
  exists r : R,
    psi_coefficient (map (map Fin) xs) (map (map Fin) zs) weights_type
    = Ok (NpFloat (Fin r)) /\ -1 <= r <= 1.
Proof.
  intros Hne Hl. unfold psi_coefficient.
  destruct (psi_loop_within weights_type xs zs Hl (PyInt 0, PyInt 0)
              (or_introl eq_refl)) as ([ws ts] & -> & Hst).
  cbn [mbind result_bind].
  apply (within_weight_result (ws, ts)). apply Hst. now right.
Qed.

Lemma psi_coefficient_range_witness :
  exists r : R,
    psi_coefficient (map (map Fin) [[1; 2]; [3]]) (map (map Fin) [[2; 1]; [-1]])
                    nb_genes_type
    = Ok (NpFloat (Fin r)) /\ -1 <= r <= 1.
Proof.
  apply (psi_coefficient_range nb_genes_type [[1; 2]; [3]] [[2; 1]; [-1]]).
  - discriminate.
  - repeat constructor.
    + exists 1. split; [now left | lra].
    + exists 2. split; [now left | lra].
    + exists 3. split; [now left | lra].
    + exists (-1). split; [now left | lra].
Defined.

(** X14.  For either kind of weights, [phi_coefficient] of two lists of
    real-valued TG-TG lists is a number in [[-1, 1]] as soon as one list of
    the first argument is not empty, when each pair is skipped (first list
    empty) or holds two non-zero lists of one length. *)
Theorem phi_coefficient_range (weights_type : string)
    (xs zs : list (list R)) :
  Exists (fun a => a <> []) xs -> Forall2 phi_comparable xs zs ->
  exists r : R,
    phi_coefficient (map (map Fin) xs) (map (map Fin) zs) weights_type
    = Ok (NpFloat (Fin r)) /\ -1 <= r <= 1.
Proof.
  intros Hne Hl. unfold phi_coefficient.
  destruct (phi_loop_within weights_type xs zs Hl (PyInt 0, PyInt 0)
              (or_introl eq_refl)) as ([ws ts] & -> & Hst).
  cbn [mbind result_bind].
  apply (within_weight_result (ws, ts)). apply Hst. now right.
Qed.

Lemma phi_coefficient_range_witness :
  exists r : R,
    phi_coefficient (map (map Fin) [[]; [1; 2; 3]])
                    (map (map Fin) [[]; [0; 1; -1]]) nb_genes_type
    = Ok (NpFloat (Fin r)) /\ -1 <= r <= 1.
Proof.
  apply (phi_coefficient_range nb_genes_type [[]; [1; 2; 3]] [[]; [0; 1; -1]]).
  - right. left. discriminate.
  - constructor; [now left|]. constructor; [|constructor].
    right. split; [reflexivity|]. split.
    + exists 1. split; [now left | lra].
    + exists 1. split; [right; now left | lra].
Defined.

End AggregatorRange.

(** ** Lists of different lengths *)

Section SurplusEntries.

Lemma zip_app_surplus_l {A B : Type} (xs extra : list A) (zs : list B) :
  length xs = length zs -> zip (xs ++ extra) zs = zip xs zs.
Proof.
  revert zs. induction xs as [|x xs IH]; intros [|z zs] H; simpl in *;
    try discriminate.
  - now destruct extra.
  - f_equal. apply IH. lia.
Qed.

Lemma zip_app_surplus_r {A B : Type} (xs : list A) (zs extra : list B) :
  length xs = length zs -> zip xs (zs ++ extra) = zip xs zs.
Proof.
  revert zs. induction xs as [|x xs IH]; intros [|z zs] H; simpl in *;
    try discriminate; [reflexivity|].
  f_equal. apply IH. lia.
Qed.

(** X15.  Neither aggregator checks that its two lists name the same TFs:
    the loop runs over [zip], so the entries one list has beyond the length
    of the other are ignored, whatever they hold. *)
Theorem aggregators_ignore_surplus (weights_type : string)
    (xs zs extra : list (list npfloat)) :
  length xs = length zs ->
  psi_coefficient (xs ++ extra) zs weights_type
  = psi_coefficient xs zs weights_type /\
  psi_coefficient xs (zs ++ extra) weights_type
  = psi_coefficient xs zs weights_type /\
  phi_coefficient (xs ++ extra) zs weights_type
  = phi_coefficient xs zs weights_type /\
  phi_coefficient xs (zs ++ extra) weights_type
  = phi_coefficient xs zs weights_type.
Proof.
  intros Hl. unfold psi_coefficient, phi_coefficient.
  now rewrite zip_app_surplus_l, zip_app_surplus_r by exact Hl.
Qed.

Lemma aggregators_ignore_surplus_witness :
  psi_coefficient ([[Fin 1%R]] ++ [[NaN; NaN]]) [[Fin 1%R]] nb_genes_type
  = psi_coefficient [[Fin 1%R]] [[Fin 1%R]] nb_genes_type /\
  psi_coefficient [[Fin 1%R]] ([[Fin 1%R]] ++ [[NaN; NaN]]) nb_genes_type
  = psi_coefficient [[Fin 1%R]] [[Fin 1%R]] nb_genes_type /\
  phi_coefficient ([[Fin 1%R]] ++ [[NaN; NaN]]) [[Fin 1%R]] nb_genes_type
  = phi_coefficient [[Fin 1%R]] [[Fin 1%R]] nb_genes_type /\
  phi_coefficient [[Fin 1%R]] ([[Fin 1%R]] ++ [[NaN; NaN]]) nb_genes_type
  = phi_coefficient [[Fin 1%R]] [[Fin 1%R]] nb_genes_type.
Proof.
  apply (aggregators_ignore_surplus nb_genes_type
           [[Fin 1%R]] [[Fin 1%R]] [[NaN; NaN]]).
  reflexivity.
Defined.

End SurplusEntries.

(** ** The entries of [compute_tf_tg_corrs] *)

Section CorrelationEntries.
Local Open Scope R_scope.

Variable tf_tg_interactions : regulatory_map.
Variable expr : ndarray.
Variable gene_symbols : list string.
Hypothesis symbols_unique : List.NoDup gene_symbols.

Lemma tg_tg_list_bounded (entry : string * list string) (c : npfloat) :
  real_valued expr -> no_zero_variance expr ->
  ncols expr = length gene_symbols ->
  In c (tg_tg_list expr gene_symbols entry) ->
  exists r, c = Fin r /\ -1 <= r <= 1.
Proof using symbols_unique.
  intros Hr Hv Hm Hc. unfold tg_tg_list in Hc.
  set (E := columns expr (target_positions gene_symbols entry.2)) in *.
  pose proof (target_positions_cols expr gene_symbols symbols_unique Hm
                entry.2) as Hcols.
  rewrite upper_diag_list_filter in Hc. apply List.filter_In in Hc as [Hc _].
  apply strict_upper_In in Hc as (i & j & Hi & Hj & ->).
  simpl in Hi, Hj.
  destruct (pearson_matrix_entry_bounded E E i j) as (r & Er & Hb);
    try (apply columns_real; assumption);
    try (apply columns_variance; assumption);
    try reflexivity; simpl; try lia.
  now exists r.
Qed.

Lemma tf_tg_vector_bounded (entry : string * list string) (c : npfloat) :
  real_valued expr -> no_zero_variance expr ->
  ncols expr = length gene_symbols ->
  eligible gene_symbols entry = true ->
  In c (tf_tg_vector expr gene_symbols entry) ->
  exists r, c = Fin r /\ -1 <= r <= 1.
Proof using symbols_unique.
  intros Hr Hv Hm Hel Hc. unfold tf_tg_vector in Hc.
  set (E := columns expr (target_positions gene_symbols entry.2)) in *.
  set (T := columns expr [position gene_symbols entry.1]) in *.
  pose proof (target_positions_cols expr gene_symbols symbols_unique Hm
                entry.2) as Hcols.
  assert (Htf : Forall (fun j => (j < ncols expr)%nat)
                       [position gene_symbols entry.1]).
  { repeat constructor. rewrite Hm.
    apply andb_true_iff in Hel as [Hel _]. now apply np_where_unique. }
  unfold np_ravel in Hc. apply in_concat in Hc as (l & Hl & Hc).
  apply in_map_iff in Hl as (i & <- & Hi). apply in_seq in Hi.
  unfold row in Hc. apply in_map_iff in Hc as (j & <- & Hj).
  apply in_seq in Hj. simpl in Hi, Hj.
  destruct (pearson_matrix_entry_bounded T E i j) as (r & Er & Hb);
    try (apply columns_real; assumption);
    try (apply columns_variance; assumption);
    try reflexivity; simpl; try lia.
  now exists r.
Qed.

(** The entries of the two lists, TF by TF. *)
Lemma tf_tg_corrs_entries (tf_tg : regulatory_map) :
  real_valued expr -> no_zero_variance expr ->
  ncols expr = length gene_symbols ->
  let kept := List.filter (eligible gene_symbols) tf_tg in
  exists tf_tg_corr tg_tg_corr : list (list npfloat),
    compute_tf_tg_corrs tf_tg_interactions expr gene_symbols (Some tf_tg) false
    = Ok (tf_tg_corr, tg_tg_corr) /\
    compute_tf_tg_corrs tf_tg_interactions expr gene_symbols (Some tf_tg) true
    = Ok (concat tf_tg_corr, concat tg_tg_corr) /\
    length tf_tg_corr = length kept /\ length tg_tg_corr = length kept /\
    forall i entry, kept !! i = Some entry ->
      exists v t : list npfloat,
        tf_tg_corr !! i = Some v /\ tg_tg_corr !! i = Some t /\
        length v = length (present_targets gene_symbols entry.2) /\
        (2 * length t
         = length (present_targets gene_symbols entry.2)
           * (length (present_targets gene_symbols entry.2) - 1))%nat /\
        forall c, In c v \/ In c t -> exists r, c = Fin r /\ -1 <= r <= 1.
Proof using symbols_unique.
  intros Hr Hv Hm kept.
  exists (map (tf_tg_vector expr gene_symbols) kept),
         (map (tg_tg_list expr gene_symbols) kept).
  unfold compute_tf_tg_corrs.
  rewrite (tf_tg_corrs_loop expr gene_symbols symbols_unique Hm).
  cbn [mbind result_bind fst snd app]. fold kept.
  split; [reflexivity|]. split; [reflexivity|].
  rewrite !length_map. split; [reflexivity|]. split; [reflexivity|].
  intros i entry Hi.
  assert (Hel : eligible gene_symbols entry = true).
  { apply list_elem_of_lookup_2, list_elem_of_In in Hi.
    now apply List.filter_In in Hi as [_ Hi]. }
  exists (tf_tg_vector expr gene_symbols entry),
         (tg_tg_list expr gene_symbols entry).
  rewrite !lookup_map, Hi. split; [reflexivity|]. split; [reflexivity|].
  destruct (tf_tg_vector_real expr gene_symbols Hr Hv symbols_unique Hm
              entry Hel) as (rs & Ers & Hlen).
  destruct (tg_tg_list_real expr gene_symbols Hr Hv symbols_unique Hm entry)
    as (ts & Ets & Htlen).
  split; [now rewrite Ers, length_map|].
  split; [now rewrite Ets, length_map|].
  intros c [Hc|Hc].
  - now apply (tf_tg_vector_bounded entry c).
  - now apply (tg_tg_list_bounded entry c).
Qed.

Lemma take_columns_cases (a : ndarray) (idxs : list nat) :
  take_columns a idxs =
  if forallb (fun j => (j <? ncols a)%nat) idxs then Ok (columns a idxs)
  else Raise IndexError.
Proof. reflexivity. Qed.

(** One TF of the loop, whatever the number of columns of the matrix. *)
Lemma tf_tg_corrs_body_cases
    (acc : list (list npfloat) * list (list npfloat))
    (entry : string * list string) :
  tf_tg_corrs_body expr gene_symbols acc entry =
  if eligible gene_symbols entry then
    if in_range expr gene_symbols entry then
      Ok (acc.1 ++ [tf_tg_vector expr gene_symbols entry],
          acc.2 ++ [tg_tg_list expr gene_symbols entry])
    else Raise IndexError
  else Ok acc.
Proof using symbols_unique.
  destruct acc as [a1 a2], entry as [tf tgs]. unfold tf_tg_corrs_body.
  rewrite target_indices_unique by assumption. cbn [mbind result_bind].
  rewrite eligible_alt.
  destruct (eligible gene_symbols (tf, tgs)) eqn:E; [|reflexivity].
  unfold in_range. cbn [forallb fst snd].
  rewrite (take_columns_cases expr (target_positions gene_symbols tgs)).
  destruct (forallb _ (target_positions gene_symbols tgs)) eqn:Ht;
    [|now rewrite andb_false_r].
  rewrite andb_true_r. cbn [mbind result_bind].
  unfold correlations_list. rewrite pearson_correlation_eq.
  rewrite Nat.eqb_refl. cbn [mbind result_bind].
  apply andb_true_iff in E as [Etf _]. simpl in Etf.
  destruct (np_where_unique gene_symbols tf symbols_unique Etf) as [Ew Hpos].
  unfold np_argwhere_first. rewrite Ew. cbn [mbind result_bind].
  rewrite take_columns_cases. cbn [forallb]. rewrite andb_true_r.
  destruct (position gene_symbols tf <? ncols expr)%nat; [|reflexivity].
  cbn [mbind result_bind].
  rewrite pearson_correlation_eq. simpl nrows. rewrite Nat.eqb_refl.
  reflexivity.
Qed.

Lemma tf_tg_corrs_loop_cases (tf_tg : regulatory_map) :
  forall acc,
    ((forall entry, In entry tf_tg -> eligible gene_symbols entry = true ->
                    in_range expr gene_symbols entry = true) /\
     for_each (tf_tg_corrs_body expr gene_symbols) tf_tg acc =
     Ok (acc.1 ++ map (tf_tg_vector expr gene_symbols)
                      (List.filter (eligible gene_symbols) tf_tg),
         acc.2 ++ map (tg_tg_list expr gene_symbols)
                      (List.filter (eligible gene_symbols) tf_tg))) \/
    ((exists entry, In entry tf_tg /\ eligible gene_symbols entry = true /\
                    in_range expr gene_symbols entry = false) /\
     for_each (tf_tg_corrs_body expr gene_symbols) tf_tg acc
     = Raise IndexError).
Proof using symbols_unique.
  induction tf_tg as [|entry rest IH]; intros [a1 a2].
  - left. split; [intros e []|]. simpl. now rewrite !app_nil_r.
  - cbn [for_each]. rewrite tf_tg_corrs_body_cases. simpl List.filter.
    cbn [fst snd].
    destruct (eligible gene_symbols entry) eqn:El.
    + destruct (in_range expr gene_symbols entry) eqn:Ein.
      * cbn [mbind result_bind].
        destruct (IH (a1 ++ [tf_tg_vector expr gene_symbols entry],
                      a2 ++ [tg_tg_list expr gene_symbols entry]))
          as [[Hall ->]|[(e & He & Hel & Hout) ->]].
        -- left. split.
           ++ intros e [<-|He]; [intros _; exact Ein | now apply Hall].
           ++ cbn [fst snd map]. now rewrite <- !app_assoc.
        -- right. split; [|reflexivity]. exists e. split; [now right | auto].
      * right. split; [|reflexivity]. exists entry. split; [now left | auto].
    + cbn [mbind result_bind].
      destruct (IH (a1, a2)) as [[Hall ->]|[(e & He & Hel & Hout) ->]].
      * left. split; [|reflexivity].
        intros e [<-|He]; [congruence | now apply Hall].
      * right. split; [|reflexivity]. exists e. split; [now right | auto].
Qed.

End CorrelationEntries.

(** X16.  On a real-valued matrix without zero-variance column, with unique
    gene symbols, the two lists of [compute_tf_tg_corrs] hold, for each
    eligible TF with [g] present targets, a TF-TG vector of [g] numbers and a
    TG-TG list of [g(g-1)/2] numbers, all within [[-1, 1]]; with [flat=True]
    the result is the concatenation of these lists. *)
Theorem compute_tf_tg_corrs_entries (tf_tg_interactions : regulatory_map)
    (expr : ndarray) (gene_symbols : list string) (tf_tg : regulatory_map) :
  List.NoDup gene_symbols ->
  real_valued expr -> no_zero_variance expr ->
  ncols expr = length gene_symbols ->
  let kept := List.filter (eligible gene_symbols) tf_tg in
  exists tf_tg_corr tg_tg_corr : list (list npfloat),
    compute_tf_tg_corrs tf_tg_interactions expr gene_symbols (Some tf_tg) false
    = Ok (tf_tg_corr, tg_tg_corr) /\
    compute_tf_tg_corrs tf_tg_interactions expr gene_symbols (Some tf_tg) true
    = Ok (concat tf_tg_corr, concat tg_tg_corr) /\
    length tf_tg_corr = length kept /\ length tg_tg_corr = length kept /\
    forall i entry, kept !! i = Some entry ->
      exists v t : list npfloat,
        tf_tg_corr !! i = Some v /\ tg_tg_corr !! i = Some t /\
        length v = length (present_targets gene_symbols entry.2) /\
        (2 * length t
         = length (present_targets gene_symbols entry.2)
           * (length (present_targets gene_symbols entry.2) - 1))%nat /\
        forall c, In c v \/ In c t ->
                  exists r, c = Fin r /\ (-1 <= r <= 1)%R.
Proof.
  intros Hnd. exact (tf_tg_corrs_entries tf_tg_interactions expr gene_symbols
                       Hnd tf_tg).
Qed.

Lemma compute_tf_tg_corrs_entries_witness :
  let kept := List.filter (eligible example_symbols) example_map in
  exists tf_tg_corr tg_tg_corr : list (list npfloat),
    compute_tf_tg_corrs [] example_expr example_symbols (Some example_map) false
    = Ok (tf_tg_corr, tg_tg_corr) /\
    compute_tf_tg_corrs [] example_expr example_symbols (Some example_map) true
    = Ok (concat tf_tg_corr, concat tg_tg_corr) /\
    length tf_tg_corr = length kept /\ length tg_tg_corr = length kept /\
    forall i entry, kept !! i = Some entry ->
      exists v t : list npfloat,
        tf_tg_corr !! i = Some v /\ tg_tg_corr !! i = Some t /\
        length v = length (present_targets example_symbols entry.2) /\
        (2 * length t
         = length (present_targets example_symbols entry.2)
           * (length (present_targets example_symbols entry.2) - 1))%nat /\
        forall c, In c v \/ In c t ->
                  exists r, c = Fin r /\ (-1 <= r <= 1)%R.
Proof.
  apply (compute_tf_tg_corrs_entries [] example_expr example_symbols
           example_map).
  - exact example_symbols_unique.
  - exact example_expr_real.
  - exact example_expr_variance.
  - reflexivity.
Defined.

(** X17.  With unique gene symbols, [compute_tf_tg_corrs] returns exactly
    when the expression matrix has a column for every eligible TF and each of
    its present targets; a matrix narrower than that makes the column
    selection raise [IndexError], and nothing else is raised. *)
Theorem compute_tf_tg_corrs_index_error (tf_tg_interactions : regulatory_map)
    (expr : ndarray) (gene_symbols : list string) (tf_tg : regulatory_map)
    (flat : bool) :
  List.NoDup gene_symbols ->
  ((forall entry, In entry tf_tg -> eligible gene_symbols entry = true ->
                  in_range expr gene_symbols entry = true) ->
   exists r, compute_tf_tg_corrs tf_tg_interactions expr gene_symbols
                                 (Some tf_tg) flat = Ok r) /\
  ((exists entry, In entry tf_tg /\ eligible gene_symbols entry = true /\
                  in_range expr gene_symbols entry = false) ->
   compute_tf_tg_corrs tf_tg_interactions expr gene_symbols (Some tf_tg) flat
   = Raise IndexError) /\
  ((exists r, compute_tf_tg_corrs tf_tg_interactions expr gene_symbols
                                  (Some tf_tg) flat = Ok r) \/
   compute_tf_tg_corrs tf_tg_interactions expr gene_symbols (Some tf_tg) flat
   = Raise IndexError).
Proof.
  intros Hnd. unfold compute_tf_tg_corrs.
  destruct (tf_tg_corrs_loop_cases expr gene_symbols Hnd tf_tg ([], []))
    as [[Hall ->]|[(e & He & Hel & Hout) ->]]; cbn [mbind result_bind].
  - assert (Hin : ~ exists entry, In entry tf_tg /\
                     eligible gene_symbols entry = true /\
                     in_range expr gene_symbols entry = false).
    { intros (e & He & Hel & Hout). rewrite (Hall e He Hel) in Hout.
      discriminate. }
    destruct flat.
    + split; [intros _; eauto|]. split; [|left; eauto].
      intros Hex. contradiction.
    + split; [intros _; eauto|]. split; [|left; eauto].
      intros Hex. contradiction.
  - split; [|split; [reflexivity | now right]].
    intros Hall. rewrite (Hall e He Hel) in Hout. discriminate.
Qed.

Lemma compute_tf_tg_corrs_index_error_witness :
  ((forall entry, In entry example_map ->
                  eligible example_symbols entry = true ->
                  in_range example_expr example_symbols entry = true) ->
   exists r, compute_tf_tg_corrs [] example_expr example_symbols
                                 (Some example_map) false = Ok r) /\
  ((exists entry, In entry example_map /\
                  eligible example_symbols entry = true /\
                  in_range example_expr example_symbols entry = false) ->
   compute_tf_tg_corrs [] example_expr example_symbols (Some example_map) false
   = Raise IndexError) /\
  ((exists r, compute_tf_tg_corrs [] example_expr example_symbols
                                  (Some example_map) false = Ok r) \/
   compute_tf_tg_corrs [] example_expr example_symbols (Some example_map) false
   = Raise IndexError).
Proof.
  apply (compute_tf_tg_corrs_index_error [] example_expr example_symbols
           example_map false).
  exact example_symbols_unique.
Defined.

(** ** Chip rates: their weights, and a map without eligible TF *)

Section ChipRateEdges.
Local Open Scope R_scope.

Variable tf_tg_interactions : regulatory_map.
Variable mannwhitneyu : list npfloat -> list npfloat -> result npfloat.
Variable multipletests : list npfloat -> result (list bool).

Lemma tf_tg_vector_length (expr : ndarray) (gene_symbols : list string)
    (entry : string * list string) :
  length (tf_tg_vector expr gene_symbols entry)
  = length (present_targets gene_symbols entry.2).
Proof.
  unfold tf_tg_vector. rewrite np_ravel_row by reflexivity.
  unfold row. rewrite length_map, length_seq. simpl.
  unfold target_positions. now rewrite length_map.
Qed.

Lemma chip_rates_weights_vectors (expr : ndarray)
    (gene_symbols : list string) (tf_tg : regulatory_map) :
  List.NoDup gene_symbols -> ncols expr = length gene_symbols ->
  (forall ps, ps <> [] ->
     exists reject, multipletests ps = Ok reject /\ length reject = length ps) ->
  (forall x y, exists p, mannwhitneyu x y = Ok p) ->
  (0 < nrows expr)%nat ->
  exists (rates : list npfloat) (weights : list nat)
         (tf_tg_corr tg_tg_corr : list (list npfloat)),
    find_chip_rates tf_tg_interactions mannwhitneyu multipletests
                    expr gene_symbols (Some tf_tg) = Ok (rates, weights) /\
    compute_tf_tg_corrs tf_tg_interactions expr gene_symbols (Some tf_tg) false
    = Ok (tf_tg_corr, tg_tg_corr) /\
    length rates = length tf_tg_corr /\
    weights = map (@length npfloat) tf_tg_corr.
Proof.
  intros Hnd Hcols Hmt Hmw Hn.
  eexists _, _, _, _. split; [now apply find_chip_rates_eq|].
  split.
  { unfold compute_tf_tg_corrs.
    rewrite (tf_tg_corrs_loop expr gene_symbols Hnd Hcols). reflexivity. }
  cbn [fst snd app]. rewrite !length_map. split; [reflexivity|].
  rewrite map_map. apply map_ext. intros entry.
  now rewrite tf_tg_vector_length.
Qed.

Lemma chip_rates_body_skip (expr_norm : ndarray) (gene_symbols : list string)
    (st : list npfloat * list nat) (entry : string * list string) :
  List.NoDup gene_symbols -> eligible gene_symbols entry = false ->
  chip_rates_body mannwhitneyu multipletests expr_norm gene_symbols st entry
  = Ok st.
Proof.
  intros Hnd Hel. destruct st as [rates weights], entry as [tf tgs].
  unfold chip_rates_body.
  rewrite target_indices_unique by assumption. cbn [mbind result_bind].
  now rewrite eligible_alt, Hel.
Qed.

Lemma find_chip_rates_no_eligible (expr : ndarray)
    (gene_symbols : list string) (tf_tg : regulatory_map) :
  List.NoDup gene_symbols ->
  List.filter (eligible gene_symbols) tf_tg = [] ->
  find_chip_rates tf_tg_interactions mannwhitneyu multipletests
                  expr gene_symbols (Some tf_tg) = Ok ([], []).
Proof.
  intros Hnd Hnone. unfold find_chip_rates.
  generalize (@nil npfloat, @nil nat).
  induction tf_tg as [|entry rest IH]; intros st; [reflexivity|].
  simpl in Hnone. destruct (eligible gene_symbols entry) eqn:El;
    [discriminate|].
  cbn [for_each]. rewrite chip_rates_body_skip by assumption.
  cbn [mbind result_bind]. now apply IH.
Qed.

Lemma omega_of_no_rates : omega_of_rates [] [] [] [] = Ok NaN.
Proof.
  unfold omega_of_rates, np_all_equal. simpl.
  unfold weighted_mean, weighted_var, weighted_covar, np_dot, np_mul_vec.
  simpl. unfold vdot, np_sum, of_nat. simpl. now rewrite Rzero_0.
Qed.

End ChipRateEdges.

(** X18.  [find_chip_rates] and [compute_tf_tg_corrs] keep the same TFs, and
    the weight of a TF in the first is the length of its TF-TG vector in the
    second: the weights of [omega_coefficient] are those [psi_coefficient]
    uses with ['nb_genes']. *)
Theorem chip_rate_weights_are_vector_lengths
    (tf_tg_interactions : regulatory_map)
    (mannwhitneyu : list npfloat -> list npfloat -> result npfloat)
    (multipletests : list npfloat -> result (list bool))
    (expr : ndarray) (gene_symbols : list string) (tf_tg : regulatory_map) :
  List.NoDup gene_symbols -> ncols expr = length gene_symbols ->
  (forall ps, ps <> [] ->
     exists reject, multipletests ps = Ok reject /\ length reject = length ps) ->
  (forall x y, exists p, mannwhitneyu x y = Ok p) ->
  (0 < nrows expr)%nat ->
  exists (rates : list npfloat) (weights : list nat)
         (tf_tg_corr tg_tg_corr : list (list npfloat)),
    find_chip_rates tf_tg_interactions mannwhitneyu multipletests
                    expr gene_symbols (Some tf_tg) = Ok (rates, weights) /\
    compute_tf_tg_corrs tf_tg_interactions expr gene_symbols (Some tf_tg) false
    = Ok (tf_tg_corr, tg_tg_corr) /\
    length rates = length tf_tg_corr /\
    weights = map (@length npfloat) tf_tg_corr.
Proof.
  exact (chip_rates_weights_vectors tf_tg_interactions mannwhitneyu
           multipletests expr gene_symbols tf_tg).
Qed.

Lemma chip_rate_weights_are_vector_lengths_witness :
  exists (rates : list npfloat) (weights : list nat)
         (tf_tg_corr tg_tg_corr : list (list npfloat)),
    find_chip_rates [] example_mannwhitneyu example_multipletests
                    example_expr example_symbols (Some example_map)
    = Ok (rates, weights) /\
    compute_tf_tg_corrs [] example_expr example_symbols (Some example_map) false
    = Ok (tf_tg_corr, tg_tg_corr) /\
    length rates = length tf_tg_corr /\
    weights = map (@length npfloat) tf_tg_corr.
Proof.
  apply (chip_rate_weights_are_vector_lengths [] example_mannwhitneyu
           example_multipletests example_expr example_symbols example_map).
  - exact example_symbols_unique.
  - reflexivity.
  - exact example_multipletests_shape.
  - intros x y. now exists (Fin 1%R).
  - simpl. lia.
Defined.

(** X19.  With unique gene symbols and a map without eligible TF,
    [find_chip_rates] returns two empty arrays without calling the
    statistics libraries, and [omega_coefficient] returns NaN: unlike
    [psi_coefficient] and [phi_coefficient] it raises nothing, its divisions
    being numpy's. *)
Theorem omega_coefficient_no_eligible_tf
    (tf_tg_interactions : regulatory_map)
    (mannwhitneyu : list npfloat -> list npfloat -> result npfloat)
    (multipletests : list npfloat -> result (list bool))
    (expr_x expr_z : ndarray) (gene_symbols : list string) :
  List.NoDup gene_symbols ->
  List.filter (eligible gene_symbols) tf_tg_interactions = [] ->
  find_chip_rates tf_tg_interactions mannwhitneyu multipletests
                  expr_x gene_symbols None = Ok ([], []) /\
  omega_coefficient tf_tg_interactions mannwhitneyu multipletests
                    expr_x expr_z gene_symbols = Ok NaN.
Proof.
  intros Hnd Hnone. split.
  - exact (find_chip_rates_no_eligible tf_tg_interactions mannwhitneyu
             multipletests expr_x gene_symbols tf_tg_interactions Hnd Hnone).
  - unfold omega_coefficient.
    rewrite !(find_chip_rates_no_eligible tf_tg_interactions mannwhitneyu
                multipletests _ gene_symbols tf_tg_interactions Hnd Hnone).
    cbn [mbind result_bind]. apply omega_of_no_rates.
Qed.

Lemma omega_coefficient_no_eligible_tf_witness :
  find_chip_rates foreign_map example_mannwhitneyu example_multipletests
                  example_expr example_symbols None = Ok ([], []) /\
  omega_coefficient foreign_map example_mannwhitneyu example_multipletests
                    example_expr example_expr example_symbols = Ok NaN.
Proof.
  apply (omega_coefficient_no_eligible_tf foreign_map example_mannwhitneyu
           example_multipletests example_expr example_expr example_symbols).
  - exact example_symbols_unique.
  - reflexivity.
Defined.

(** ** The range of the omega coefficient *)

Section OmegaRange.
Local Open Scope R_scope.

Context {A : Type}.
Variable fw : A -> nat.
Variable fr fs : A -> R.

Lemma weighted_comb_expand (g h : A -> R) (s t : R) (l : list A) :
  Rsum (map (fun a => INR (fw a) * ((s * g a - t * h a) * (s * g a - t * h a)))
            l)
  = s * s * Rsum (map (fun a => INR (fw a) * (g a * g a)) l)
    - 2 * s * t * Rsum (map (fun a => INR (fw a) * (g a * h a)) l)
    + t * t * Rsum (map (fun a => INR (fw a) * (h a * h a)) l).
Proof.
  induction l as [|a l IH]; simpl; [ring|]. rewrite IH. ring.
Qed.

Lemma weighted_comb_nonneg (g h : A -> R) (s t : R) (l : list A) :
  0 <= Rsum (map (fun a => INR (fw a)
                           * ((s * g a - t * h a) * (s * g a - t * h a))) l).
Proof.
  apply Rsum_nonneg. intros v Hv. apply in_map_iff in Hv as (x & <- & _).
  apply Rmult_le_pos; [apply pos_INR | apply Rle_0_sqr].
Qed.

(** The Cauchy-Schwarz inequality for sums with non-negative weights. *)
Lemma weighted_cauchy_schwarz (g h : A -> R) (l : list A) :
  Rsum (map (fun a => INR (fw a) * (g a * h a)) l)
  * Rsum (map (fun a => INR (fw a) * (g a * h a)) l)
  <= Rsum (map (fun a => INR (fw a) * (g a * g a)) l)
     * Rsum (map (fun a => INR (fw a) * (h a * h a)) l).
Proof.
  set (Sgg := Rsum (map (fun a => INR (fw a) * (g a * g a)) l)).
  set (Shh := Rsum (map (fun a => INR (fw a) * (h a * h a)) l)).
  set (Sgh := Rsum (map (fun a => INR (fw a) * (g a * h a)) l)).
  assert (Hc : forall s t, 0 <= s * s * Sgg - 2 * s * t * Sgh + t * t * Shh).
  { intros s t. unfold Sgg, Sgh, Shh. rewrite <- weighted_comb_expand.
    apply weighted_comb_nonneg. }
  assert (Hgg : 0 <= Sgg).
  { apply Rsum_nonneg. intros v Hv. apply in_map_iff in Hv as (x & <- & _).
    apply Rmult_le_pos; [apply pos_INR | apply Rle_0_sqr]. }
  assert (Hhh : 0 <= Shh).
  { apply Rsum_nonneg. intros v Hv. apply in_map_iff in Hv as (x & <- & _).
    apply Rmult_le_pos; [apply pos_INR | apply Rle_0_sqr]. }
  destruct Hhh as [Hpos|Hz].
  - pose proof (Hc Shh Sgh) as H1.
    assert (H2 : 0 <= Shh * (Shh * Sgg - Sgh * Sgh)) by nra.
    destruct (Rle_or_lt (Sgh * Sgh) (Sgg * Shh)) as [Hle|Hgt]; [exact Hle|].
    exfalso. assert (Shh * (Shh * Sgg - Sgh * Sgh) < 0); [|lra].
    replace (Shh * (Shh * Sgg - Sgh * Sgh))
      with (- (Shh * (Sgh * Sgh - Sgg * Shh))) by ring.
    apply Ropp_lt_gt_0_contravar. apply Rmult_gt_0_compat; lra.
  - rewrite <- Hz in *. pose proof (Hc Sgh (Sgg + 1)) as H1.
    assert (H2 : Sgh * Sgh * (Sgg + 2) <= 0) by nra.
    assert (H3 : 0 <= Sgh * Sgh) by apply Rle_0_sqr.
    assert (H4 : Sgh * Sgh = 0).
    { destruct H3 as [H3|H3]; [|now symmetry].
      exfalso. assert (0 < Sgh * Sgh * (Sgg + 2)); [|lra].
      apply Rmult_lt_0_compat; lra. }
    rewrite H4. lra.
Qed.

Lemma weighted_covar_map2 (mx my : R) (l : list A) :
  0 < total_weight fw l ->
  weighted_covar (map (fun a => Fin (fr a)) l) (map (fun a => Fin (fs a)) l)
                 (map fw l) (Fin mx) (Fin my)
  = Ok (Fin (Rsum (map (fun a => INR (fw a)
                                 * ((fr a + - mx) * (fs a + - my))) l)
             / total_weight fw l)).
Proof.
  intros HW. unfold weighted_covar, np_mul_vec.
  rewrite !length_map, Nat.eqb_refl.
  cbn [mbind result_bind]. rewrite !map_map. cbn [fsub fneg fadd].
  assert (Ezip : zip_with fmul (map (fun x => of_nat (fw x)) l)
                              (map (fun x => Fin (fr x + - mx)) l)
                 = map (fun a => Fin (INR (fw a) * (fr a + - mx))) l).
  { clear. induction l as [|a l IH]; [reflexivity|]. simpl. now rewrite IH. }
  rewrite Ezip. unfold np_dot. rewrite !length_map, Nat.eqb_refl.
  cbn [mbind result_bind].
  assert (Edot : vdot (map (fun a => Fin (INR (fw a) * (fr a + - mx))) l)
                      (map (fun x => Fin (fs x + - my)) l)
                 = Fin (Rsum (map (fun a => INR (fw a)
                                   * ((fr a + - mx) * (fs a + - my))) l))).
  { unfold vdot. rewrite <- np_sum_Fin. f_equal. clear.
    induction l as [|a l IH]; [reflexivity|]. simpl. rewrite IH.
    do 2 f_equal. ring. }
  rewrite Edot. unfold of_nat. rewrite (INR_sum_list fw).
  fold (total_weight fw l). rewrite fdiv_Fin by lra. reflexivity.
Qed.

(** The weighted Pearson correlation of two real-valued rate vectors with
    positive weights. *)
Lemma omega_of_rates_range (l : list A) :
  l <> [] -> (forall a, In a l -> (0 < fw a)%nat) ->
  let rates_x := map (fun a => Fin (fr a)) l in
  let rates_y := map (fun a => Fin (fs a)) l in
  let weights := map fw l in
  exists v, omega_of_rates rates_x weights rates_y weights = Ok v /\
            (v = NaN \/ exists r, v = Fin r /\ -1 <= r <= 1) /\
            (~ constant rates_x -> ~ constant rates_y ->
             exists r, v = Fin r /\ -1 <= r <= 1).
Proof.
  intros Hne Hpos rates_x rates_y weights. subst rates_x rates_y weights.
  pose proof (total_weight_pos fw l Hne Hpos) as HW.
  fold (total_weight fw l) in HW.
  unfold omega_of_rates. rewrite np_all_equal_refl.
  cbn [mbind result_bind assert_].
  rewrite (weighted_mean_map fw fr) by exact HW. cbn [mbind result_bind].
  rewrite (weighted_mean_map fw fs) by exact HW. cbn [mbind result_bind].
  set (mx := Rsum (map (fun a => INR (fw a) * fr a) l) / total_weight fw l).
  set (my := Rsum (map (fun a => INR (fw a) * fs a) l) / total_weight fw l).
  rewrite (weighted_var_map fw fr) by exact HW. cbn [mbind result_bind].
  rewrite (weighted_var_map fw fs) by exact HW. cbn [mbind result_bind].
  rewrite weighted_covar_map2 by exact HW. cbn [mbind result_bind].
  set (W := total_weight fw l) in *.
  set (Vx := weighted_squares fw fr mx l).
  set (Vy := weighted_squares fw fs my l).
  set (C := Rsum (map (fun a => INR (fw a)
                                * ((fr a + - mx) * (fs a + - my))) l)).
  assert (HVx : 0 <= Vx) by apply weighted_squares_nonneg.
  assert (HVy : 0 <= Vy) by apply weighted_squares_nonneg.
  assert (HCS : C * C <= Vx * Vy).
  { exact (weighted_cauchy_schwarz (fun a => fr a + - mx)
                                   (fun a => fs a + - my) l). }
  assert (Hiw : 0 < / W) by now apply Rinv_0_lt_compat.
  assert (Hvx : 0 <= Vx / W) by (apply Rmult_le_pos; lra).
  assert (Hvy : 0 <= Vy / W) by (apply Rmult_le_pos; lra).
  assert (HP : 0 <= Vx / W * (Vy / W)) by (apply Rmult_le_pos; assumption).
  simpl fmul. rewrite fsqrt_Fin by exact HP.
  assert (Hcw : C / W * (C / W) <= Vx / W * (Vy / W)).
  { unfold Rdiv.
    replace (C * / W * (C * / W)) with (C * C * (/ W * / W)) by ring.
    replace (Vx * / W * (Vy * / W)) with (Vx * Vy * (/ W * / W)) by ring.
    apply Rmult_le_compat_r; [|exact HCS]. apply Rmult_le_pos; lra. }
  assert (Hnan : Vx = 0 \/ Vy = 0 ->
                 fdiv (Fin (C / W)) (Fin (sqrt (Vx / W * (Vy / W)))) = NaN).
  { intros Hz.
    assert (E0 : Vx / W * (Vy / W) = 0).
    { destruct Hz as [-> | ->]; unfold Rdiv; ring. }
    rewrite E0 in Hcw |- *. rewrite sqrt_0.
    assert (Ec : C / W = 0) by nra. rewrite Ec. apply fdiv_0_0. }
  destruct (Req_dec_T (Vx / W * (Vy / W)) 0) as [E0|Hnz].
  - assert (Hz : Vx = 0 \/ Vy = 0).
    { apply Rmult_integral in E0 as [E0|E0]; [left | right];
        unfold Rdiv in E0; apply Rmult_integral in E0 as [E0|E0]; lra. }
    exists NaN. split; [f_equal; now apply Hnan|]. split; [now left|].
    intros Hcx Hcy. exfalso. destruct Hz as [Hz|Hz].
    + apply Hcx. exists (Fin mx). intros v Hv.
      apply in_map_iff in Hv as (a & <- & Ha). f_equal.
      apply (weighted_squares_zero fw fr mx l Hpos); [exact Hz | exact Ha].
    + apply Hcy. exists (Fin my). intros v Hv.
      apply in_map_iff in Hv as (a & <- & Ha). f_equal.
      apply (weighted_squares_zero fw fs my l Hpos); [exact Hz | exact Ha].
  - assert (HPpos : 0 < Vx / W * (Vy / W)) by lra.
    pose proof (sqrt_lt_R0 _ HPpos) as Hq.
    pose proof (sqrt_sqrt _ HP) as Eq.
    set (q := sqrt (Vx / W * (Vy / W))) in *.
    rewrite fdiv_Fin by lra.
    assert (Hr : -1 <= C / W / q <= 1).
    { assert (Hb : - q <= C / W <= q) by nra.
      split.
      - apply Rmult_le_reg_r with q; [exact Hq|].
        unfold Rdiv at 1. rewrite Rmult_assoc, Rinv_l by lra. lra.
      - apply Rmult_le_reg_r with q; [exact Hq|].
        unfold Rdiv at 1. rewrite Rmult_assoc, Rinv_l by lra. lra. }
    exists (Fin (C / W / q)). split; [reflexivity|].
    split; [right | intros _ _]; eexists; (split; [reflexivity | exact Hr]).
Qed.

End OmegaRange.

Section OmegaCoefficientRange.
Local Open Scope R_scope.

Variable tf_tg_interactions : regulatory_map.
Variable mannwhitneyu : list npfloat -> list npfloat -> result npfloat.
Variable multipletests : list npfloat -> result (list bool).

Lemma chip_rates_real (expr : ndarray) (gene_symbols : list string)
    (kept : regulatory_map) :
  (forall ps, ps <> [] ->
     exists reject, multipletests ps = Ok reject /\ length reject = length ps) ->
  (0 < nrows expr)%nat ->
  map (chip_rate mannwhitneyu multipletests expr gene_symbols) kept
  = map (fun e => Fin (real_part
           (chip_rate mannwhitneyu multipletests expr gene_symbols e))) kept.
Proof.
  intros Hmt Hn. apply map_ext. intros e.
  destruct (chip_rate_value mannwhitneyu multipletests expr gene_symbols e
              Hmt Hn) as (k & _ & -> & _).
  reflexivity.
Qed.

Lemma omega_coefficient_bounds (expr_x expr_z : ndarray)
    (gene_symbols : list string) :
  List.NoDup gene_symbols ->
  ncols expr_x = length gene_symbols -> ncols expr_z = length gene_symbols ->
  (forall ps, ps <> [] ->
     exists reject, multipletests ps = Ok reject /\ length reject = length ps) ->
  (forall x y, exists p, mannwhitneyu x y = Ok p) ->
  (0 < nrows expr_x)%nat -> (0 < nrows expr_z)%nat ->
  let kept := List.filter (eligible gene_symbols) tf_tg_interactions in
  kept <> [] ->
  exists v,
    omega_coefficient tf_tg_interactions mannwhitneyu multipletests
                      expr_x expr_z gene_symbols = Ok v /\
    (v = NaN \/ exists r, v = Fin r /\ -1 <= r <= 1) /\
    (~ constant (map (chip_rate mannwhitneyu multipletests expr_x gene_symbols)
                     kept) ->
     ~ constant (map (chip_rate mannwhitneyu multipletests expr_z gene_symbols)
                     kept) ->
     exists r, v = Fin r /\ -1 <= r <= 1).
Proof.
  intros Hnd Hcx Hcz Hmt Hmw Hnx Hnz kept Hne.
  unfold omega_coefficient.
  rewrite (find_chip_rates_eq tf_tg_interactions mannwhitneyu multipletests
             expr_x gene_symbols tf_tg_interactions Hnd Hcx Hmt Hnx Hmw).
  cbn [mbind result_bind].
  rewrite (find_chip_rates_eq tf_tg_interactions mannwhitneyu multipletests
             expr_z gene_symbols tf_tg_interactions Hnd Hcz Hmt Hnz Hmw).
  fold kept. cbn [mbind result_bind].
  rewrite (chip_rates_real expr_x gene_symbols kept Hmt Hnx).
  rewrite (chip_rates_real expr_z gene_symbols kept Hmt Hnz).
  apply (omega_of_rates_range
           (fun e => length (present_targets gene_symbols e.2))
           (fun e => real_part
              (chip_rate mannwhitneyu multipletests expr_x gene_symbols e))
           (fun e => real_part
              (chip_rate mannwhitneyu multipletests expr_z gene_symbols e))
           kept Hne).
  intros e He. apply List.filter_In in He as [_ He].
  now apply eligible_weight_pos.
Qed.

End OmegaCoefficientRange.

(** X20.  With unique gene symbols matching the columns of both matrices, a
    sample in each, library calls that return, and at least one eligible TF,
    [omega_coefficient] returns NaN or a number in [[-1, 1]]; it is a number
    when the chip rates of neither dataset are all one value. *)
Theorem omega_coefficient_range (tf_tg_interactions : regulatory_map)
    (mannwhitneyu : list npfloat -> list npfloat -> result npfloat)
    (multipletests : list npfloat -> result (list bool))
    (expr_x expr_z : ndarray) (gene_symbols : list string) :
  List.NoDup gene_symbols ->
  ncols expr_x = length gene_symbols -> ncols expr_z = length gene_symbols ->
  (forall ps, ps <> [] ->
     exists reject, multipletests ps = Ok reject /\ length reject = length ps) ->
  (forall x y, exists p, mannwhitneyu x y = Ok p) ->
  (0 < nrows expr_x)%nat -> (0 < nrows expr_z)%nat ->
  let kept := List.filter (eligible gene_symbols) tf_tg_interactions in
  kept <> [] ->
  exists v,
    omega_coefficient tf_tg_interactions mannwhitneyu multipletests
                      expr_x expr_z gene_symbols = Ok v /\
    (v = NaN \/ exists r, v = Fin r /\ (-1 <= r <= 1)%R) /\
    (~ constant (map (chip_rate mannwhitneyu multipletests expr_x gene_symbols)
                     kept) ->
     ~ constant (map (chip_rate mannwhitneyu multipletests expr_z gene_symbols)
                     kept) ->
     exists r, v = Fin r /\ (-1 <= r <= 1)%R).
Proof.
  exact (omega_coefficient_bounds tf_tg_interactions mannwhitneyu
           multipletests expr_x expr_z gene_symbols).
Qed.

(** The second map of the example, whose two TFs get different chip rates
    from the stand-ins. *)
Lemma omega_coefficient_range_witness :
  exists r : R,
    omega_coefficient example_map2 example_mannwhitneyu2 example_multipletests2
                      example_expr example_expr example_symbols = Ok (Fin r) /\
    (-1 <= r <= 1)%R.
Proof.
  assert (Hrates :
    ~ constant (map (chip_rate example_mannwhitneyu2 example_multipletests2
                               example_expr example_symbols)
                    (List.filter (eligible example_symbols) example_map2))).
  { simpl List.filter. cbn [map].
    rewrite example_rate_TF1, example_rate_G1.
    intros [c Hc].
    pose proof (Hc _ (or_introl eq_refl)) as Ea.
    pose proof (Hc _ (or_intror (or_introl eq_refl))) as Eb.
    rewrite <- Eb in Ea. injection Ea as Ea. simpl in Ea. lra. }
  destruct (omega_coefficient_range example_map2 example_mannwhitneyu2
              example_multipletests2 example_expr example_expr example_symbols)
    as (v & E & _ & Hnum).
  - exact example_symbols_unique.
  - reflexivity.
  - reflexivity.
  - exact example_multipletests2_shape.
  - intros x y. unfold example_mannwhitneyu2. eauto.
  - simpl. lia.
  - simpl. lia.
  - discriminate.
  - destruct (Hnum Hrates Hrates) as (r & Ev & Hr).
    exists r. split; [now rewrite E, Ev | exact Hr].
Defined.

(** ** Gene distances, clustering and the gamma coefficients *)

Section GammaEdges.
Local Open Scope R_scope.

Variable linkage_complete : list npfloat -> result (list linkage_row).
Variable cophenet : list linkage_row -> list npfloat -> npfloat.

(** The distances [1 - correlation] of a dataset. *)
Lemma distance_vector_range (x : ndarray) :
  real_valued x -> no_zero_variance x ->
  exists ds : list R,
    distance_vector x = map Fin ds /\
    (2 * length ds = ncols x * (ncols x - 1))%nat /\
    forall d, In d ds -> 0 <= d <= 2.
Proof.
  intros Hr Hv.
  destruct (upper_diag_pearson_real x Hr Hv) as (rs & E & Eu & Hlen).
  exists (map (fun r => 1 + - r) rs). unfold distance_vector.
  rewrite E, !map_map. split; [reflexivity|].
  rewrite length_map. split; [exact Hlen|].
  intros d Hd. apply in_map_iff in Hd as (r & <- & Hr').
  assert (Hin : In (Fin r) (strict_upper (pearson_matrix x x))).
  { rewrite <- Eu, E. apply in_map_iff. now exists r. }
  apply strict_upper_In in Hin as (i & j & Hi & Hj & Eij).
  simpl in Hi, Hj.
  destruct (pearson_matrix_entry_bounded x x i j) as (r' & Er & Hb);
    try assumption; try reflexivity; try lia.
  rewrite Er in Eij. injection Eij as ->. lra.
Qed.

Lemma hierarchical_clustering_distances (data : ndarray) :
  hierarchical_clustering linkage_complete data pearson_correlation
  = linkage_complete (distance_vector data).
Proof.
  unfold hierarchical_clustering. rewrite correlations_list_self.
  reflexivity.
Qed.

Lemma gamma_coefficients_run (expr_x expr_z : ndarray) :
  gamma_coefficients linkage_complete cophenet expr_x expr_z =
  gamma_dx_dz ← pearson_correlation_1d (distance_vector expr_x)
                                        (distance_vector expr_z);
  xl_matrix ← linkage_complete (distance_vector expr_x);
  zl_matrix ← linkage_complete (distance_vector expr_z);
  gamma_tx_tz ← compare_cophenetic xl_matrix zl_matrix;
  Ok (gamma_dx_dz, cophenet xl_matrix (distance_vector expr_x),
      cophenet zl_matrix (distance_vector expr_z), gamma_tx_tz).
Proof.
  unfold gamma_coefficients. rewrite !hierarchical_clustering_distances.
  rewrite !correlations_list_self. reflexivity.
Qed.

Lemma gamma_gene_counts (expr_x expr_z : ndarray) :
  real_valued expr_x -> real_valued expr_z ->
  no_zero_variance expr_x -> no_zero_variance expr_z ->
  ncols expr_x <> ncols expr_z ->
  (2 <= ncols expr_x)%nat \/ (2 <= ncols expr_z)%nat ->
  gamma_coefficients linkage_complete cophenet expr_x expr_z
  = Raise AssertionError.
Proof.
  intros Hrx Hrz Hvx Hvz Hne H2. rewrite gamma_coefficients_run.
  destruct (distance_vector_range expr_x Hrx Hvx) as (dx & -> & Hlx & _).
  destruct (distance_vector_range expr_z Hrz Hvz) as (dz & -> & Hlz & _).
  unfold pearson_correlation_1d. rewrite !length_map.
  destruct (Nat.eqb_spec (length dx) (length dz)) as [E|E]; [|reflexivity].
  exfalso. rewrite E in Hlx. nia.
Qed.

Lemma gamma_range (expr_x expr_z : ndarray)
    (xl_matrix zl_matrix : list linkage_row) :
  real_valued expr_x -> real_valued expr_z ->
  no_zero_variance expr_x -> no_zero_variance expr_z ->
  ncols expr_x = ncols expr_z ->
  linkage_complete (distance_vector expr_x) = Ok xl_matrix ->
  linkage_complete (distance_vector expr_z) = Ok zl_matrix ->
  valid_linkage xl_matrix -> valid_linkage zl_matrix ->
  length xl_matrix = length zl_matrix ->
  exists g1 g4 : npfloat,
    gamma_coefficients linkage_complete cophenet expr_x expr_z
    = Ok (g1, cophenet xl_matrix (distance_vector expr_x),
          cophenet zl_matrix (distance_vector expr_z), g4) /\
    (g1 = NaN \/ exists r, g1 = Fin r /\ -1 <= r <= 1) /\
    (g4 = NaN \/ exists r, g4 = Fin r /\ -1 <= r <= 1).
Proof.
  intros Hrx Hrz Hvx Hvz Hn Hlx Hlz Hvlx Hvlz Hlen.
  rewrite gamma_coefficients_run, Hlx, Hlz.
  destruct (distance_vector_range expr_x Hrx Hvx) as (dx & -> & Hdx & _).
  destruct (distance_vector_range expr_z Hrz Hvz) as (dz & -> & Hdz & _).
  destruct (pearson_1d_cases dx dz) as (g1 & -> & _ & Hg1 & _);
    [rewrite Hn in Hdx; lia|].
  cbn [mbind result_bind]. unfold compare_cophenetic.
  destruct (dendrogram_condensed xl_matrix Hvlx) as (r1 & -> & H1).
  destruct (dendrogram_condensed zl_matrix Hvlz) as (r2 & -> & H2).
  cbn [mbind result_bind].
  destruct (pearson_1d_cases r1 r2) as (g4 & -> & _ & Hg4 & _); [nia|].
  cbn [mbind result_bind]. exists g1, g4. split; [reflexivity|].
  split; assumption.
Qed.

End GammaEdges.



(** X22.  [gamma_coefficients] on two real-valued matrices without
    zero-variance column whose numbers of genes differ (one of them having
    two genes at least) raises [AssertionError], from the comparison of the
    two distance vectors, before any clustering is done. *)
Theorem gamma_coefficients_gene_counts
    (linkage_complete : list npfloat -> result (list linkage_row))
    (cophenet : list linkage_row -> list npfloat -> npfloat)
    (expr_x expr_z : ndarray) :
  real_valued expr_x -> real_valued expr_z ->
  no_zero_variance expr_x -> no_zero_variance expr_z ->
  ncols expr_x <> ncols expr_z ->
  (2 <= ncols expr_x)%nat \/ (2 <= ncols expr_z)%nat ->
  gamma_coefficients linkage_complete cophenet expr_x expr_z
  = Raise AssertionError.
Proof. exact (gamma_gene_counts linkage_complete cophenet expr_x expr_z). Qed.

Lemma gamma_coefficients_gene_counts_witness :
  gamma_coefficients example_linkage_complete example_cophenet
    example_expr (columns example_expr [0%nat; 1%nat])
  = Raise AssertionError.
Proof.
  apply (gamma_coefficients_gene_counts example_linkage_complete
           example_cophenet example_expr (columns example_expr [0%nat; 1%nat])).
  - exact example_expr_real.
  - apply (columns_real example_expr example_expr_real).
    repeat constructor; simpl; lia.
  - exact example_expr_variance.
  - apply (columns_variance example_expr example_expr_variance).
    repeat constructor; simpl; lia.
  - simpl. lia.
  - left. simpl. lia.
Defined.

(** X23.  On two real-valued matrices of the same number of genes, without
    zero-variance column, for which [linkage] returns valid linkage matrices
    of one size, [gamma_coefficients] returns; its first and last entries
    are each NaN or a number in [[-1, 1]], and the two in the middle are
    scipy's cophenetic coefficients. *)
Theorem gamma_coefficients_range
    (linkage_complete : list npfloat -> result (list linkage_row))
    (cophenet : list linkage_row -> list npfloat -> npfloat)
    (expr_x expr_z : ndarray) (xl_matrix zl_matrix : list linkage_row) :
  real_valued expr_x -> real_valued expr_z ->
  no_zero_variance expr_x -> no_zero_variance expr_z ->
  ncols expr_x = ncols expr_z ->
  linkage_complete (distance_vector expr_x) = Ok xl_matrix ->
  linkage_complete (distance_vector expr_z) = Ok zl_matrix ->
  valid_linkage xl_matrix -> valid_linkage zl_matrix ->
  length xl_matrix = length zl_matrix ->
  exists g1 g4 : npfloat,
    gamma_coefficients linkage_complete cophenet expr_x expr_z
    = Ok (g1, cophenet xl_matrix (distance_vector expr_x),
          cophenet zl_matrix (distance_vector expr_z), g4) /\
    (g1 = NaN \/ exists r, g1 = Fin r /\ (-1 <= r <= 1)%R) /\
    (g4 = NaN \/ exists r, g4 = Fin r /\ (-1 <= r <= 1)%R).
Proof.
  exact (gamma_range linkage_complete cophenet expr_x expr_z
           xl_matrix zl_matrix).
Qed.

Lemma gamma_coefficients_range_witness :
  exists g1 g4 : npfloat,
    gamma_coefficients example_linkage_complete example_cophenet
                       example_expr example_expr
    = Ok (g1, example_cophenet example_linkage (distance_vector example_expr),
          example_cophenet example_linkage (distance_vector example_expr), g4) /\
    (g1 = NaN \/ exists r, g1 = Fin r /\ (-1 <= r <= 1)%R) /\
    (g4 = NaN \/ exists r, g4 = Fin r /\ (-1 <= r <= 1)%R).
Proof.
  apply (gamma_coefficients_range example_linkage_complete example_cophenet
           example_expr example_expr example_linkage example_linkage).
  - exact example_expr_real.
  - exact example_expr_real.
  - exact example_expr_variance.
  - exact example_expr_variance.
  - reflexivity.
  - reflexivity.
  - reflexivity.
  - exact example_linkage_valid.
  - exact example_linkage_valid.
  - reflexivity.
Defined.

(** ** Silhouette scores *)

Section SilhouetteScores.
Local Open Scope nat_scope.

Variable silhouette_score : ndarray -> list nat -> result npfloat.
Variable data : ndarray.

Lemma indices_nonempty (c : Cluster) : 1 <= length (indices c).
Proof.
  induction c as [k|l IHl r IHr]; simpl; [lia|]. rewrite length_app. lia.
Qed.

Lemma leaf_clusters_leaves (n : nat) : leaves_then_nodes n (leaf_clusters n).
Proof.
  intros k c. unfold leaf_clusters. rewrite lookup_leaf_clusters_from.
  destruct (decide _) as [Hk|Hk]; [|discriminate]. intros [= <-].
  destruct (Nat.ltb_spec k n); [reflexivity | lia].
Qed.

(** One row of the loop over valid ids: the score is 0 for two leaves, and
    otherwise what the library gives for the distances [1 - correlation] of
    the genes of the new cluster. *)
Lemma silhouette_body_cases (i : nat) (clusters : gmap nat Cluster)
    (scores : list pynum) (z : linkage_row) :
  clusters_upto (ncols data) i clusters ->
  (forall k, ncols data + i <= k -> clusters !! k = None) ->
  leaves_then_nodes (ncols data) clusters ->
  (c1 z < ncols data + i /\ c2 z < ncols data + i ->
   exists (k1 k2 : Cluster),
     let clusters' := <[ncols data + i := Node k1 k2]> clusters in
     let expr := columns data (indices k1 ++ indices k2) in
     let labels :=
       repeat 0 (length (indices k1)) ++ repeat 1 (length (indices k2)) in
     clusters_upto (ncols data) (S i) clusters' /\
     (forall k, ncols data + S i <= k -> clusters' !! k = None) /\
     leaves_then_nodes (ncols data) clusters' /\
     silhouette_body silhouette_score data (ncols data) (clusters, scores) (i, z)
     = if merges_leaves (ncols data) z
       then Ok (clusters', scores ++ [PyInt 0])
       else
         score ← silhouette_score
                   (np_rsub_scalar (Fin 1%R) (pearson_matrix expr expr)) labels;
         Ok (clusters', scores ++ [NpFloat score])) /\
  (~ (c1 z < ncols data + i /\ c2 z < ncols data + i) ->
   silhouette_body silhouette_score data (ncols data) (clusters, scores) (i, z)
   = Raise KeyError).
Proof.
  intros Hup Hex Hln. split.
  - intros [H1 H2]. pose proof Hup as [Hdom Hidx].
    destruct (Hdom _ H1) as [k1 E1]. destruct (Hdom _ H2) as [k2 E2].
    exists k1, k2. cbv zeta.
    split; [split|split; [|split]].
    + intros k Hk. destruct (decide (k = ncols data + i)) as [->|Hne].
      * rewrite lookup_insert_eq. eauto.
      * rewrite lookup_insert_ne by lia. apply Hdom. lia.
    + intros k c. rewrite lookup_insert. destruct (decide _).
      * intros [= <-]. simpl. apply Forall_app. split; eauto.
      * apply Hidx.
    + intros k Hk. rewrite lookup_insert_ne by lia. apply Hex. lia.
    + intros k c. rewrite lookup_insert. destruct (decide _) as [<-|Hne].
      * intros [= <-]. destruct (Nat.ltb_spec (ncols data + i) (ncols data));
          [lia | eauto].
      * apply Hln.
    + assert (N1 : forall c, <[ncols data + i := c]> clusters !! c1 z
                             = clusters !! c1 z)
        by (intros c; apply lookup_insert_ne; lia).
      assert (N2 : forall c, <[ncols data + i := c]> clusters !! c2 z
                             = clusters !! c2 z)
        by (intros c; apply lookup_insert_ne; lia).
      unfold silhouette_body, dict_get. rewrite E1, E2.
      cbn [mbind result_bind]. rewrite N1, E1. cbn [mbind result_bind].
      rewrite N2, E2. cbn [mbind result_bind].
      assert (Hcols : take_columns data (indices (Node k1 k2))
                      = Ok (columns data (indices k1 ++ indices k2))).
      { apply take_columns_in_range. simpl. apply Forall_app.
        split; [exact (Hidx _ _ E1) | exact (Hidx _ _ E2)]. }
      assert (Hlen : (length (indices k1) + length (indices k2) =? 2)
                     = merges_leaves (ncols data) z).
      { pose proof (Hln _ _ E1) as L1. pose proof (Hln _ _ E2) as L2.
        pose proof (indices_nonempty k1) as P1.
        pose proof (indices_nonempty k2) as P2.
        unfold merges_leaves.
        destruct (Nat.ltb_spec (c1 z) (ncols data)) as [Hc1|Hc1];
          destruct (Nat.ltb_spec (c2 z) (ncols data)) as [Hc2|Hc2];
          cbn [andb].
        - subst k1 k2. reflexivity.
        - destruct L2 as (l & r & ->). apply Nat.eqb_neq.
          pose proof (indices_nonempty l). pose proof (indices_nonempty r).
          simpl in *. rewrite length_app in *. lia.
        - destruct L1 as (l & r & ->). apply Nat.eqb_neq.
          pose proof (indices_nonempty l). pose proof (indices_nonempty r).
          simpl in *. rewrite length_app in *. lia.
        - destruct L1 as (l & r & ->). apply Nat.eqb_neq.
          pose proof (indices_nonempty l). pose proof (indices_nonempty r).
          simpl in *. rewrite length_app in *. lia. }
      rewrite length_app, !repeat_length, Hlen.
      destruct (merges_leaves (ncols data) z); [reflexivity|].
      rewrite lookup_insert_eq. cbn [mbind result_bind].
      rewrite Hcols. cbn [mbind result_bind].
      rewrite pearson_correlation_eq, Nat.eqb_refl. reflexivity.
  - intros Hbad. unfold silhouette_body, dict_get.
    destruct (lt_dec (c1 z) (ncols data + i)) as [H1|H1].
    + destruct (proj1 Hup _ H1) as [k1 ->].
      rewrite (Hex (c2 z)) by lia. reflexivity.
    + rewrite (Hex (c1 z)) by lia. reflexivity.
Qed.



(** A dendrogram whose rows all merge two leaves: the library is never
    called. *)
Lemma silhouette_leaves_loop (rows : list linkage_row) :
  Forall (fun z => merges_leaves (ncols data) z = true) rows ->
  forall (i : nat) (clusters : gmap nat Cluster) (scores : list pynum),
    clusters_upto (ncols data) i clusters ->
    (forall k, ncols data + i <= k -> clusters !! k = None) ->
    leaves_then_nodes (ncols data) clusters ->
    exists clusters',
      for_each (silhouette_body silhouette_score data (ncols data))
               (zip (seq i (length rows)) rows) (clusters, scores)
      = Ok (clusters', scores ++ map (fun _ => PyInt 0) rows).
Proof.
  induction 1 as [|z rows Hz _ IH]; intros i clusters scores Hup Hex Hln.
  - exists clusters. simpl. now rewrite app_nil_r.
  - cbn [length seq zip_with for_each].
    destruct (silhouette_body_cases i clusters scores z Hup Hex Hln)
      as [Hgo _].
    pose proof Hz as Hz'. unfold merges_leaves in Hz'.
    apply andb_true_iff in Hz' as [H1 H2].
    apply Nat.ltb_lt in H1. apply Nat.ltb_lt in H2.
    destruct Hgo as (k1 & k2 & Hup' & Hex' & Hln' & ->); [lia|].
    rewrite Hz. cbn [mbind result_bind].
    destruct (IH (S i) _ (scores ++ [PyInt 0]) Hup' Hex' Hln') as [cl' ->].
    exists cl'. simpl. now rewrite <- app_assoc.
Qed.

End SilhouetteScores.



(** X25.  On a linkage matrix whose rows all merge two single genes,
    [compute_silhouette] returns a 0 for every row without calling the
    silhouette library, whatever that library would do. *)
Theorem compute_silhouette_of_leaves
    (silhouette_score : ndarray -> list nat -> result npfloat)
    (data : ndarray) (l_matrix : list linkage_row) :
  Forall (fun z => merges_leaves (ncols data) z = true) l_matrix ->
  compute_silhouette silhouette_score data l_matrix
  = Ok (map (fun _ => PyInt 0) l_matrix).
Proof.
  intros Hall. unfold compute_silhouette, enumerate.
  destruct (silhouette_leaves_loop silhouette_score data l_matrix Hall 0
              (leaf_clusters (ncols data)) []) as [cl' ->].
  - apply leaf_clusters_upto.
  - intros k Hk. apply leaf_clusters_exact. lia.
  - apply leaf_clusters_leaves.
  - reflexivity.
Qed.

Lemma compute_silhouette_of_leaves_witness :
  compute_silhouette (fun _ _ => Raise ValueError) example_expr
                     [mk_row 0 1 0%R 2; mk_row 2 1 1%R 2]
  = Ok (map (fun _ => PyInt 0) [mk_row 0 1 0%R 2; mk_row 2 1 1%R 2]).
Proof.
  apply (compute_silhouette_of_leaves (fun _ _ => Raise ValueError)
           example_expr [mk_row 0 1 0%R 2; mk_row 2 1 1%R 2]).
  repeat constructor.
Defined.

(** ** The six scores of two datasets *)

Section ScoreRanges.
Local Open Scope R_scope.

Lemma cosine_real (a b : list R) :
  length a = length b ->
  exists c, cosine_similarity (map Fin a) (map Fin b) = Ok c /\ nan_or_unit c.
Proof.
  intros Hl. rewrite cosine_similarity_Fin by exact Hl.
  eexists. split; [reflexivity|].
  destruct (Rle_lt_or_eq_dec _ _ (Rsum_self_nonneg a)) as [Ha|Ha];
    [destruct (Rle_lt_or_eq_dec _ _ (Rsum_self_nonneg b)) as [Hb|Hb]|].
  - pose proof (sqrt_lt_R0 _ Ha) as Hsa. pose proof (sqrt_lt_R0 _ Hb) as Hsb.
    rewrite fdiv_Fin by nra. right. eexists. split; [reflexivity|].
    now apply dot_over_norms_bounded.
  - left. rewrite <- Hb, sqrt_0, Rmult_0_r.
    rewrite (zip_with_Rmult_comm a b), Rsum_zip_zero_l; [apply fdiv_0_0|].
    apply Rsum_squares_zero. now symmetry.
  - left. rewrite <- Ha, sqrt_0, Rmult_0_l.
    rewrite Rsum_zip_zero_l; [apply fdiv_0_0|].
    apply Rsum_squares_zero. now symmetry.
Qed.

Lemma weighted_state_step (st : pynum * pynum) (weight : pynum) (x : R)
    (c : npfloat) :
  st = (PyInt 0, PyInt 0) \/ weighted_state st ->
  to_float weight = Fin x -> 0 < x -> nan_or_unit c ->
  weighted_state (py_add st.1 weight,
                  py_add st.2 (py_mul weight (NpFloat c))).
Proof.
  intros Hst Hw Hx Hc.
  assert (Hmul : py_mul weight (NpFloat c) = NpFloat (fmul (Fin x) c)).
  { destruct weight; unfold py_mul; now rewrite Hw. }
  rewrite Hmul.
  destruct Hst as [->|(w & t & Hwpos & Hws & Hts & Ht)].
  - exists (0 + x), (fadd (Fin 0) (fmul (Fin x) c)). cbn [fst snd].
    split; [lra|]. split; [now apply to_float_py_add|].
    split; [reflexivity|].
    destruct Hc as [->|(r & -> & Hr)]; [now left|].
    right. eexists. split; [reflexivity | nra].
  - destruct st as [ws ts]. cbn [fst snd] in *. subst ts.
    exists (w + x), (fadd t (fmul (Fin x) c)).
    split; [lra|]. split; [now apply to_float_py_add|].
    split; [reflexivity|].
    destruct Ht as [->|(r0 & -> & Hr0)]; [now left|].
    destruct Hc as [->|(r & -> & Hr)]; [now left|].
    right. eexists. split; [reflexivity | nra].
Qed.

Lemma weighted_state_result (st : pynum * pynum) :
  weighted_state st ->
  exists v, py_truediv st.2 st.1 = Ok (NpFloat v) /\ nan_or_unit v.
Proof.
  intros (w & t & Hw & Hws & Hts & Ht). destruct st as [ws ts].
  cbn [fst snd] in *. subst ts.
  assert (E : py_truediv (NpFloat t) ws = Ok (NpFloat (fdiv t (Fin w)))).
  { destruct ws; unfold py_truediv; now rewrite Hws. }
  rewrite E. eexists. split; [reflexivity|].
  destruct Ht as [->|(r & -> & Hr)]; [now left|].
  rewrite fdiv_Fin by lra. right. eexists. split; [reflexivity|].
  split.
  - apply Rmult_le_reg_r with w; [exact Hw|].
    unfold Rdiv. rewrite Rmult_assoc, Rinv_l by lra. lra.
  - apply Rmult_le_reg_r with w; [exact Hw|].
    unfold Rdiv. rewrite Rmult_assoc, Rinv_l by lra. lra.
Qed.

Lemma psi_body_weighted (weights_type : string) (st : pynum * pynum)
    (a b : list R) :
  st = (PyInt 0, PyInt 0) \/ weighted_state st ->
  length a = length b -> a <> [] ->
  exists st', psi_body weights_type st (map Fin a, map Fin b) = Ok st' /\
              weighted_state st'.
Proof.
  intros Hst Hl Hne. destruct (cosine_real a b Hl) as (c & Ec & Hc).
  destruct st as [ws ts]. unfold psi_body. rewrite Ec.
  cbn [mbind result_bind]. eexists. split; [reflexivity|].
  destruct (String.eqb weights_type nb_genes_type).
  - apply (weighted_state_step (ws, ts) _ (INR (length a)) c Hst).
    + simpl. unfold of_Z. now rewrite length_map, <- INR_IZR_INZ.
    + now apply INR_length_pos.
    + exact Hc.
  - apply (weighted_state_step (ws, ts) _ 1 c Hst);
      [reflexivity | lra | exact Hc].
Qed.

Lemma psi_loop_weighted (weights_type : string)
    (l : list (list R * list R)) :
  Forall (fun p => length p.1 = length p.2 /\ p.1 <> []) l ->
  forall st, st = (PyInt 0, PyInt 0) \/ weighted_state st ->
    exists st',
      for_each (psi_body weights_type)
               (map (fun p => (map Fin p.1, map Fin p.2)) l) st = Ok st' /\
      (weighted_state st \/ l <> [] -> weighted_state st').
Proof.
  induction 1 as [|[a b] l [Hl Hne] _ IH]; intros st Hst.
  - exists st. split; [reflexivity|]. intros [H|H]; [exact H | congruence].
  - cbn [map for_each fst snd].
    destruct (psi_body_weighted weights_type st a b Hst Hl Hne)
      as (st1 & -> & H1).
    cbn [mbind result_bind].
    destruct (IH st1 (or_intror H1)) as (st' & E & Hin).
    exists st'. split; [exact E|]. intros _. apply Hin. now left.
Qed.

Lemma phi_body_weighted (weights_type : string) (st : pynum * pynum)
    (a b : list R) :
  st = (PyInt 0, PyInt 0) \/ weighted_state st -> length a = length b ->
  exists st', phi_body weights_type st (map Fin a, map Fin b) = Ok st' /\
              (a = [] -> st' = st) /\ (a <> [] -> weighted_state st').
Proof.
  intros Hst Hl. destruct st as [ws ts].
  destruct a as [|a0 a].
  - exists (ws, ts). repeat split; congruence.
  - destruct (cosine_real _ _ Hl) as (c & Ec & Hc).
    destruct (phi_weight_positive weights_type (map Fin (a0 :: a)))
      as (weight & x & Ew & Hw & Hx); [discriminate|].
    unfold phi_body. simpl Nat.ltb. cbv iota. rewrite Ew.
    cbn [mbind result_bind]. rewrite Ec. cbn [mbind result_bind].
    eexists. split; [reflexivity|]. split; [discriminate | intros _].
    now apply (weighted_state_step (ws, ts) weight x c Hst).
Qed.

Lemma phi_loop_weighted (weights_type : string)
    (l : list (list R * list R)) :
  Forall (fun p => length p.1 = length p.2) l ->
  forall st, st = (PyInt 0, PyInt 0) \/ weighted_state st ->
    exists st',
      for_each (phi_body weights_type)
               (map (fun p => (map Fin p.1, map Fin p.2)) l) st = Ok st' /\
      (weighted_state st \/ Exists (fun p => p.1 <> []) l ->
       weighted_state st').
Proof.
  induction 1 as [|[a b] l Hl _ IH]; intros st Hst.
  - exists st. split; [reflexivity|].
    intros [H|H]; [exact H | inversion H].
  - cbn [map for_each fst snd].
    destruct (phi_body_weighted weights_type st a b Hst Hl)
      as (st1 & -> & Hsame & Hnew).
    cbn [mbind result_bind].
    assert (Hrun1 : st1 = (PyInt 0, PyInt 0) \/ weighted_state st1).
    { destruct a as [|a0 a];
        [rewrite Hsame by reflexivity; exact Hst
        | right; apply Hnew; discriminate]. }
    destruct (IH st1 Hrun1) as (st' & E & Hin).
    exists st'. split; [exact E|].
    intros Hor. apply Hin.
    destruct a as [|a0 a].
    + rewrite Hsame by reflexivity.
      destruct Hor as [H|H]; [now left|].
      inversion H as [? ? Hh|? ? Ht]; subst; [simpl in Hh; congruence|].
      now right.
    + left. apply Hnew. discriminate.
Qed.

Lemma map_Fin_real_part (rs : list R) : map Fin (map real_part (map Fin rs)) = map Fin rs.
Proof. rewrite !map_map. reflexivity. Qed.

Lemma zip_map_real {A : Type} (f g : A -> list npfloat) (l : list A) :
  (forall a, In a l -> exists rs, f a = map Fin rs) ->
  (forall a, In a l -> exists rs, g a = map Fin rs) ->
  zip (map f l) (map g l)
  = map (fun p : list R * list R => (map Fin p.1, map Fin p.2))
        (map (fun a => (map real_part (f a), map real_part (g a))) l).
Proof.
  induction l as [|a l IH]; intros Hf Hg; [reflexivity|].
  cbn [map zip_with fst snd].
  rewrite <- IH;
    [|intros x Hx; apply Hf; now right | intros x Hx; apply Hg; now right].
  destruct (Hf a (or_introl eq_refl)) as [rf Ef].
  destruct (Hg a (or_introl eq_refl)) as [rg Eg].
  rewrite Ef, Eg, !map_Fin_real_part. reflexivity.
Qed.

Variable tf_tg_interactions : regulatory_map.
Variable linkage_complete : list npfloat -> result (list linkage_row).
Variable cophenet : list linkage_row -> list npfloat -> npfloat.
Variable mannwhitneyu : list npfloat -> list npfloat -> result npfloat.
Variable multipletests : list npfloat -> result (list bool).

Lemma compute_scores_ranges (expr_x expr_z : ndarray)
    (gene_symbols : list string) (xl_matrix zl_matrix : list linkage_row) :
  real_valued expr_x -> real_valued expr_z ->
  no_zero_variance expr_x -> no_zero_variance expr_z ->
  List.NoDup gene_symbols ->
  ncols expr_x = length gene_symbols -> ncols expr_z = length gene_symbols ->
  linkage_complete (distance_vector expr_x) = Ok xl_matrix ->
  linkage_complete (distance_vector expr_z) = Ok zl_matrix ->
  valid_linkage xl_matrix -> valid_linkage zl_matrix ->
  length xl_matrix = length zl_matrix ->
  (forall ps, ps <> [] ->
     exists reject, multipletests ps = Ok reject /\ length reject = length ps) ->
  (forall x y, exists p, mannwhitneyu x y = Ok p) ->
  let kept := List.filter (eligible gene_symbols) tf_tg_interactions in
  (exists entry, In entry kept /\
                 (2 <= length (present_targets gene_symbols entry.2))%nat) ->
  exists s_dist s_dend s_tftg s_tgtg s_tfac : npfloat,
    compute_scores tf_tg_interactions linkage_complete cophenet mannwhitneyu
                   multipletests expr_x expr_z gene_symbols
    = Ok [s_dist; s_dend;
          (let d := fsub (cophenet xl_matrix (distance_vector expr_x))
                         (cophenet zl_matrix (distance_vector expr_z)) in
           fmul d d);
          s_tftg; s_tgtg; s_tfac] /\
    nan_or_unit s_dist /\ nan_or_unit s_dend /\ nan_or_unit s_tftg /\
    nan_or_unit s_tgtg /\ nan_or_unit s_tfac.
Proof.
  intros Hrx Hrz Hvx Hvz Hnd Hcx Hcz Hlx Hlz Hvlx Hvlz Hlen Hmt Hmw kept
         (e2 & He2 & H2).
  assert (Hne : kept <> []) by (intros E; rewrite E in He2; destruct He2).
  assert (Hel : forall entry, In entry kept ->
                              eligible gene_symbols entry = true).
  { intros entry H. now apply List.filter_In in H as [_ H]. }
  assert (Hsym : (0 < length gene_symbols)%nat).
  { apply (eligible_symbols_nonempty gene_symbols e2). now apply Hel. }
  assert (Hnx : (0 < nrows expr_x)%nat)
    by (apply some_sample_of_variance; [exact Hvx | lia]).
  assert (Hnz : (0 < nrows expr_z)%nat)
    by (apply some_sample_of_variance; [exact Hvz | lia]).
  (* gamma *)
  destruct (gamma_range linkage_complete cophenet expr_x expr_z
              xl_matrix zl_matrix Hrx Hrz Hvx Hvz ltac:(congruence)
              Hlx Hlz Hvlx Hvlz Hlen) as (g1 & g4 & Egamma & Hg1 & Hg4).
  (* psi *)
  assert (Epsi : exists v,
    psi_coefficient (map (tf_tg_vector expr_x gene_symbols) kept)
                    (map (tf_tg_vector expr_z gene_symbols) kept) nb_genes_type
    = Ok (NpFloat v) /\ nan_or_unit v).
  { unfold psi_coefficient. rewrite zip_map_real.
    2:{ intros a Ha.
        destruct (tf_tg_vector_real expr_x gene_symbols Hrx Hvx Hnd Hcx a
                    (Hel a Ha)) as (rs & E & _). eauto. }
    2:{ intros a Ha.
        destruct (tf_tg_vector_real expr_z gene_symbols Hrz Hvz Hnd Hcz a
                    (Hel a Ha)) as (rs & E & _). eauto. }
    destruct (psi_loop_weighted nb_genes_type
                (map (fun a => (map real_part (tf_tg_vector expr_x gene_symbols a),
                                map real_part (tf_tg_vector expr_z gene_symbols a)))
                     kept)) with (st := (PyInt 0, PyInt 0))
      as ([ws ts] & -> & Hst); [| now left |].
    - apply Forall_forall. intros p Hp. apply list_elem_of_In in Hp.
      apply in_map_iff in Hp as (a & <- & Ha). cbn [fst snd].
      rewrite !length_map, !tf_tg_vector_length. split; [reflexivity|].
      intros E. apply (f_equal (@length _)) in E.
      rewrite length_map, tf_tg_vector_length in E. simpl in E.
      pose proof (eligible_weight_pos gene_symbols a (Hel a Ha)). lia.
    - cbn [mbind result_bind]. apply (weighted_state_result (ws, ts)).
      apply Hst. right. destruct kept; [congruence | discriminate]. }
  destruct Epsi as (psi & Epsi & Hpsi).
  (* phi *)
  assert (Ephi : exists v,
    phi_coefficient (map (tg_tg_list expr_x gene_symbols) kept)
                    (map (tg_tg_list expr_z gene_symbols) kept) nb_genes_type
    = Ok (NpFloat v) /\ nan_or_unit v).
  { unfold phi_coefficient. rewrite zip_map_real.
    2:{ intros a Ha.
        destruct (tg_tg_list_real expr_x gene_symbols Hrx Hvx Hnd Hcx a)
          as (rs & E & _). eauto. }
    2:{ intros a Ha.
        destruct (tg_tg_list_real expr_z gene_symbols Hrz Hvz Hnd Hcz a)
          as (rs & E & _). eauto. }
    destruct (phi_loop_weighted nb_genes_type
                (map (fun a => (map real_part (tg_tg_list expr_x gene_symbols a),
                                map real_part (tg_tg_list expr_z gene_symbols a)))
                     kept)) with (st := (PyInt 0, PyInt 0))
      as ([ws ts] & -> & Hst); [| now left |].
    - apply Forall_forall. intros p Hp. apply list_elem_of_In in Hp.
      apply in_map_iff in Hp as (a & <- & Ha). cbn [fst snd].
      rewrite !length_map.
      destruct (tg_tg_list_real expr_x gene_symbols Hrx Hvx Hnd Hcx a)
        as (rx & -> & Lx).
      destruct (tg_tg_list_real expr_z gene_symbols Hrz Hvz Hnd Hcz a)
        as (rz & -> & Lz).
      rewrite !length_map. lia.
    - cbn [mbind result_bind]. apply (weighted_state_result (ws, ts)).
      apply Hst. right. apply Exists_exists.
      exists (map real_part (tg_tg_list expr_x gene_symbols e2),
              map real_part (tg_tg_list expr_z gene_symbols e2)).
      split.
      + apply list_elem_of_In, in_map_iff. now exists e2.
      + cbn [fst]. intros E.
        apply (tg_tg_list_nonempty expr_x gene_symbols Hrx Hvx Hnd Hcx e2 H2).
        destruct (tg_tg_list expr_x gene_symbols e2); [reflexivity|].
        discriminate. }
  destruct Ephi as (phi & Ephi & Hphi).
  (* omega *)
  destruct (omega_coefficient_bounds tf_tg_interactions mannwhitneyu
              multipletests expr_x expr_z gene_symbols Hnd Hcx Hcz Hmt Hmw
              Hnx Hnz Hne) as (omega & Eomega & Homega & _).
  exists g1, g4, psi, phi, omega. split.
  - unfold compute_scores. rewrite Egamma. cbn [mbind result_bind].
    rewrite !(compute_tf_tg_corrs_self tf_tg_interactions _ gene_symbols Hnd)
      by assumption.
    cbn [mbind result_bind]. fold kept. rewrite Epsi.
    cbn [mbind result_bind]. rewrite Ephi. cbn [mbind result_bind].
    rewrite Eomega. cbn [mbind result_bind]. reflexivity.
  - repeat split; assumption.
Qed.

End ScoreRanges.

(** X26.  On two real-valued matrices over the same unique gene symbols,
    without zero-variance column, when [linkage] returns valid linkage
    matrices of one size, the statistics calls return, and some eligible TF
    has two present targets, [compute_scores] returns six values in the order
    (S_dist, S_dend, S_sdcc, S_tftg, S_tgtg, S_tfac): the third is the squared
    difference of the two cophenetic coefficients, and each of the others is
    NaN or a number in [[-1, 1]]. *)
Theorem compute_scores_range
    (tf_tg_interactions : regulatory_map)
    (linkage_complete : list npfloat -> result (list linkage_row))
    (cophenet : list linkage_row -> list npfloat -> npfloat)
    (mannwhitneyu : list npfloat -> list npfloat -> result npfloat)
    (multipletests : list npfloat -> result (list bool))
    (expr_x expr_z : ndarray)
    (gene_symbols : list string) (xl_matrix zl_matrix : list linkage_row) :
  real_valued expr_x -> real_valued expr_z ->
  no_zero_variance expr_x -> no_zero_variance expr_z ->
  List.NoDup gene_symbols ->
  ncols expr_x = length gene_symbols -> ncols expr_z = length gene_symbols ->
  linkage_complete (distance_vector expr_x) = Ok xl_matrix ->
  linkage_complete (distance_vector expr_z) = Ok zl_matrix ->
  valid_linkage xl_matrix -> valid_linkage zl_matrix ->
  length xl_matrix = length zl_matrix ->
  (forall ps, ps <> [] ->
     exists reject, multipletests ps = Ok reject /\ length reject = length ps) ->
  (forall x y, exists p, mannwhitneyu x y = Ok p) ->
  let kept := List.filter (eligible gene_symbols) tf_tg_interactions in
  (exists entry, In entry kept /\
                 (2 <= length (present_targets gene_symbols entry.2))%nat) ->
  exists s_dist s_dend s_tftg s_tgtg s_tfac : npfloat,
    compute_scores tf_tg_interactions linkage_complete cophenet mannwhitneyu
                   multipletests expr_x expr_z gene_symbols
    = Ok [s_dist; s_dend;
          (let d := fsub (cophenet xl_matrix (distance_vector expr_x))
                         (cophenet zl_matrix (distance_vector expr_z)) in
           fmul d d);
          s_tftg; s_tgtg; s_tfac] /\
    nan_or_unit s_dist /\ nan_or_unit s_dend /\ nan_or_unit s_tftg /\
    nan_or_unit s_tgtg /\ nan_or_unit s_tfac.
Proof.
  exact (compute_scores_ranges tf_tg_interactions linkage_complete cophenet
           mannwhitneyu multipletests expr_x expr_z gene_symbols
           xl_matrix zl_matrix).
Qed.

Lemma compute_scores_range_witness :
  exists s_dist s_dend s_tftg s_tgtg s_tfac : npfloat,
    compute_scores example_map example_linkage_complete example_cophenet
                   example_mannwhitneyu example_multipletests
                   example_expr example_expr example_symbols
    = Ok [s_dist; s_dend;
          (let d := fsub (example_cophenet example_linkage
                            (distance_vector example_expr))
                         (example_cophenet example_linkage
                            (distance_vector example_expr)) in
           fmul d d);
          s_tftg; s_tgtg; s_tfac] /\
    nan_or_unit s_dist /\ nan_or_unit s_dend /\ nan_or_unit s_tftg /\
    nan_or_unit s_tgtg /\ nan_or_unit s_tfac.
Proof.
  apply (compute_scores_range example_map example_linkage_complete
           example_cophenet example_mannwhitneyu example_multipletests
           example_expr example_expr example_symbols
           example_linkage example_linkage).
  - exact example_expr_real.
  - exact example_expr_real.
  - exact example_expr_variance.
  - exact example_expr_variance.
  - exact example_symbols_unique.
  - reflexivity.
  - reflexivity.
  - reflexivity.
  - reflexivity.
  - exact example_linkage_valid.
  - exact example_linkage_valid.
  - reflexivity.
  - exact example_multipletests_shape.
  - intros x y. now exists (Fin 1%R).
  - exists ("TF1", ["G1"; "G2"])%string. split; [now left | simpl; lia].
Defined.
